(** * Trip service (app/main.py): a shallow embedding and its verification

    The service keeps one process-wide list, [trips_db], of [Trip] records and
    exposes handlers that list, sort, search, create, replace, patch and
    delete them and compute statistics.  The handlers are embedded as
    functions in a state-and-exception monad over the list; identifiers and
    clock readings, which the source draws from [uuid.uuid4()] and
    [datetime.now()], are inputs of the handlers.

    Strings are Python [str] values held as their UTF-8 bytes (byte order and
    byte-wise substring search coincide with code-point order and code-point
    substring search); [int] is [Z]; [float] is the kernel's binary64.

    The model ends where a handler returns or raises: how the framework turns
    the returned value or the exception into the bytes of a response is not
    part of it.  The validation library and a few builtins of the language
    are interfaces with laws, see [Pydantic] and [Python]. *)

From Stdlib Require Import ZArith Floats String Ascii List Lia.
From stdpp Require Import base option list gmap strings sorting.

Set Warnings "-register-all,-inexact-float".

Open Scope string_scope.
Open Scope Z_scope.
Open Scope list_scope.

(** ** Python values *)

(** The values that travel through a JSON body, a model's dictionary and
    the keyword arguments of the model: JSON scalars, arrays and objects. *)
Inductive PyValue : Type :=
| PyNone
| PyBool (b : bool)
| PyInt (z : Z)
| PyFloat (f : float)
| PyStr (s : string)
| PyList (l : list PyValue)
| PyDict (d : list (string * PyValue)).

(** Exceptions the handlers and the framework raise. *)
Inductive exn : Type :=
| HTTPException (status_code : Z) (detail : string)
| RequestValidationError
| ValidationError
| TypeError
| AttributeError
| ZeroDivisionError
| OverflowError
| ValueError
| IndexError.

(** ** The data model: [class Trip(BaseModel)] *)

Record Trip : Type := mkTrip {
  id : option string;
  destination : string;
  country : string;
  travel_agency : string;
  duration_days : Z;
  price : float;
  rating : float;
  group_size : Z;
  created_at : option string;
  updated_at : option string
}.

(** ** The validation library

    The field validators of pydantic are not part of the repository and
    differ between its versions in what they coerce.  They are taken as an
    interface with the laws every version satisfies: a value already of the
    declared type is accepted unchanged, [None] is refused by a required
    scalar field, and a list is never a string.  [model_method] tells the
    names of the methods a model instance carries besides its fields; the
    source itself calls the method [dict]. *)
Class Pydantic : Type := {
  str_validator : PyValue → option string;
  int_validator : PyValue → option Z;
  float_validator : PyValue → option float;
  bool_validator : PyValue → option bool;
  model_method : string → bool;
  str_validator_str : ∀ s, str_validator (PyStr s) = Some s;
  int_validator_int : ∀ z, int_validator (PyInt z) = Some z;
  float_validator_float : ∀ f, float_validator (PyFloat f) = Some f;
  str_validator_None : str_validator PyNone = None;
  int_validator_None : int_validator PyNone = None;
  float_validator_None : float_validator PyNone = None;
  str_validator_list : ∀ l, str_validator (PyList l) = None;
  model_method_dict : model_method "dict" = true
}.

(** The names of the model's fields, in declaration order. *)
Definition Trip_fields : list string :=
  ["id"; "destination"; "country"; "travel_agency"; "duration_days";
   "price"; "rating"; "group_size"; "created_at"; "updated_at"].

Definition py_optional_str (o : option string) : PyValue :=
  match o with Some s => PyStr s | None => PyNone end.

(** [trip.dict()]: a fresh dictionary with one entry per field. *)
Definition Trip_dict (t : Trip) : gmap string PyValue :=
  <["id" := py_optional_str (id t)]>
  (<["destination" := PyStr (destination t)]>
  (<["country" := PyStr (country t)]>
  (<["travel_agency" := PyStr (travel_agency t)]>
  (<["duration_days" := PyInt (duration_days t)]>
  (<["price" := PyFloat (price t)]>
  (<["rating" := PyFloat (rating t)]>
  (<["group_size" := PyInt (group_size t)]>
  (<["created_at" := py_optional_str (created_at t)]>
  (<["updated_at" := py_optional_str (updated_at t)]> ∅))))))))).

Section Model.
Context `{Pydantic}.

(** A field declared [Optional[str] = None]: absent and [None] give [None]. *)
Definition optional_str (o : option PyValue) : option (option string) :=
  match o with
  | None | Some PyNone => Some None
  | Some v => Some <$> str_validator v
  end.

(** A required field: absent is an error, present goes through the validator. *)
Definition required {A : Type} (validator : PyValue → option A)
    (o : option PyValue) : option A :=
  o ≫= validator.

(** The constructor call on keyword arguments [kw]: every field is
    validated; keys that name no field are ignored; [None] stands for a
    raised validation error. *)
Definition Trip_init (kw : gmap string PyValue) : option Trip :=
  i ← optional_str (kw !! "id");
  d ← required str_validator (kw !! "destination");
  c ← required str_validator (kw !! "country");
  a ← required str_validator (kw !! "travel_agency");
  n ← required int_validator (kw !! "duration_days");
  p ← required float_validator (kw !! "price");
  r ← required float_validator (kw !! "rating");
  g ← required int_validator (kw !! "group_size");
  ca ← optional_str (kw !! "created_at");
  ua ← optional_str (kw !! "updated_at");
  Some (mkTrip i d c a n p r g ca ua).


(** ** Results, the store and the handler monad *)

(** A computation that returns or raises. *)
Definition result (A : Type) : Type := exn + A.

#[global] Instance result_ret : MRet result := λ A a, inr a.
#[global] Instance result_bind : MBind result := λ A B f r,
  match r with inl e => inl e | inr a => f a end.
#[global] Instance result_fmap : FMap result := λ A B f r,
  match r with inl e => inl e | inr a => inr (f a) end.

(** A handler runs on the global list [trips_db]; a raised exception leaves
    the list as the handler had made it by then. *)
Definition M (A : Type) : Type := list Trip → result A * list Trip.

#[global] Instance M_ret : MRet M := λ A a db, (inr a, db).
#[global] Instance M_bind : MBind M := λ A B f m db,
  match m db with
  | (inl e, db') => (inl e, db')
  | (inr a, db') => f a db'
  end.

Definition raise {A : Type} (e : exn) : M A := λ db, (inl e, db).
Definition lift {A : Type} (r : result A) : M A := λ db, (r, db).

(** Python list indexing: a negative index counts from the end. *)
Definition py_index (i : Z) (n : nat) : option nat :=
  if (0 <=? i) && (i <? Z.of_nat n) then Some (Z.to_nat i)
  else if (- Z.of_nat n <=? i) && (i <? 0) then Some (Z.to_nat (Z.of_nat n + i))
  else None.

Definition read_db : M (list Trip) := λ db, (inr db, db).
Definition db_clear : M unit := λ _, (inr tt, []).
Definition db_append (t : Trip) : M unit := λ db, (inr tt, db ++ [t]).
Definition db_getitem (i : Z) : M Trip := λ db,
  match py_index i (length db) ≫= (db !!.) with
  | Some t => (inr t, db)
  | None => (inl IndexError, db)
  end.
Definition db_setitem (i : Z) (t : Trip) : M unit := λ db,
  match py_index i (length db) with
  | Some k => (inr tt, <[k := t]> db)
  | None => (inl IndexError, db)
  end.
Definition db_pop (i : Z) : M Trip := λ db,
  match py_index i (length db) with
  | Some k => match db !! k with
              | Some t => (inr t, delete k db)
              | None => (inl IndexError, db)
              end
  | None => (inl IndexError, db)
  end.

(** Field assignment on a model instance. *)
Definition set_id (v : option string) (t : Trip) : Trip :=
  mkTrip v (destination t) (country t) (travel_agency t) (duration_days t)
    (price t) (rating t) (group_size t) (created_at t) (updated_at t).
Definition set_created_at (v : option string) (t : Trip) : Trip :=
  mkTrip (id t) (destination t) (country t) (travel_agency t) (duration_days t)
    (price t) (rating t) (group_size t) v (updated_at t).
Definition set_updated_at (v : option string) (t : Trip) : Trip :=
  mkTrip (id t) (destination t) (country t) (travel_agency t) (duration_days t)
    (price t) (rating t) (group_size t) (created_at t) v.

(** ** Helpers of the source *)

(** [find_trip_by_id]: the first record whose id equals [trip_id]. *)
Fixpoint find_trip_by_id (db : list Trip) (trip_id : string) : option Trip :=
  match db with
  | [] => None
  | trip :: rest =>
      if bool_decide (id trip = Some trip_id) then Some trip
      else find_trip_by_id rest trip_id
  end.

Fixpoint find_trip_index_from (i : Z) (db : list Trip) (trip_id : string) : Z :=
  match db with
  | [] => -1
  | trip :: rest =>
      if bool_decide (id trip = Some trip_id) then i
      else find_trip_index_from (i + 1) rest trip_id
  end.

(** [find_trip_index]: the position of that record, or [-1]. *)
Definition find_trip_index (db : list Trip) (trip_id : string) : Z :=
  find_trip_index_from 0 db trip_id.

Definition not_found (trip_id : string) : exn :=
  HTTPException 404
    (String.append "Поездка с ID '" (String.append trip_id "' не найдена")).

(** ** Attributes and their ordering *)

(** What [getattr] of a model instance yields: the value of a field, or a
    bound method. *)
Inductive attr : Type :=
| AttrNone
| AttrStr (s : string)
| AttrInt (z : Z)
| AttrFloat (f : float)
| AttrMethod (name : string).

Definition attr_optional_str (o : option string) : attr :=
  match o with Some s => AttrStr s | None => AttrNone end.

Definition field_value (x : Trip) (name : string) : option attr :=
  if String.eqb name "id" then Some (attr_optional_str (id x))
  else if String.eqb name "destination" then Some (AttrStr (destination x))
  else if String.eqb name "country" then Some (AttrStr (country x))
  else if String.eqb name "travel_agency" then Some (AttrStr (travel_agency x))
  else if String.eqb name "duration_days" then Some (AttrInt (duration_days x))
  else if String.eqb name "price" then Some (AttrFloat (price x))
  else if String.eqb name "rating" then Some (AttrFloat (rating x))
  else if String.eqb name "group_size" then Some (AttrInt (group_size x))
  else if String.eqb name "created_at" then Some (attr_optional_str (created_at x))
  else if String.eqb name "updated_at" then Some (attr_optional_str (updated_at x))
  else None.

(** [getattr(x, name)]: a field's value, else a method, else [AttributeError]. *)
Definition getattr (x : Trip) (name : string) : result attr :=
  match field_value x name with
  | Some v => inr v
  | None => if model_method name then inr (AttrMethod name) else inl AttributeError
  end.

(** The exact comparison of a binary64 number with an integer. *)
Definition float_compare_Z (f : float) (z : Z) : option comparison :=
  match Prim2SF f with
  | S754_nan => None
  | S754_zero _ => Some (0 ?= z)
  | S754_infinity s => Some (if s then Lt else Gt)
  | S754_finite s m e =>
      let sm := if s then Z.neg m else Z.pos m in
      Some (if 0 <=? e then sm * 2 ^ e ?= z else sm ?= z * 2 ^ (- e))
  end.

(** Python's [a < b] on attribute values: strings by code point, numbers by
    value; [None] and methods are not orderable. *)
Definition attr_lt (a b : attr) : result bool :=
  match a, b with
  | AttrStr s1, AttrStr s2 => inr (String.ltb s1 s2)
  | AttrInt z1, AttrInt z2 => inr (z1 <? z2)
  | AttrFloat f1, AttrFloat f2 => inr (PrimFloat.ltb f1 f2)
  | AttrFloat f, AttrInt z =>
      inr (match float_compare_Z f z with Some Lt => true | _ => false end)
  | AttrInt z, AttrFloat f =>
      inr (match float_compare_Z f z with Some Gt => true | _ => false end)
  | _, _ => inl TypeError
  end.

(** ** [list.sort(key=..., reverse=...)]

    The keys are computed first, for every element; then the list is sorted
    stably with [<] on the keys alone.  With [reverse] the list is reversed,
    sorted, and reversed again, as CPython does to keep the sort stable.  The
    sort is written as an insertion sort: it agrees with CPython's merge sort
    whenever [<] is a strict weak order on the keys, and like it raises when
    two keys cannot be compared. *)
Fixpoint keyed {K : Type} (key : Trip → result K) (l : list Trip)
    : result (list (K * Trip)) :=
  match l with
  | [] => inr []
  | x :: l' => k ← key x; kl ← keyed key l'; inr ((k, x) :: kl)
  end.

Fixpoint insert_sorted {K : Type} (lt : K → K → result bool) (x : K * Trip)
    (l : list (K * Trip)) : result (list (K * Trip)) :=
  match l with
  | [] => inr [x]
  | y :: l' =>
      b ← lt (fst y) (fst x);
      if b : bool then l'' ← insert_sorted lt x l'; inr (y :: l'')
      else inr (x :: y :: l')
  end.

Fixpoint insertion_sort {K : Type} (lt : K → K → result bool)
    (l : list (K * Trip)) : result (list (K * Trip)) :=
  match l with
  | [] => inr []
  | x :: l' => s ← insertion_sort lt l'; insert_sorted lt x s
  end.

Definition list_sort {K : Type} (key : Trip → result K)
    (lt : K → K → result bool) (reverse : bool) (l : list Trip)
    : result (list Trip) :=
  kl ← keyed key l;
  s ← insertion_sort lt (if reverse then rev kl else kl);
  inr (snd <$> (if reverse then rev s else s)).

(** ** Builtins of the language

    [str.lower], [sum] over floats, true division and [round] are not part of
    the repository; they are an interface.  The divisor of both divisions is
    the length of a list.  Division by zero raises [ZeroDivisionError]; the
    quotient of two integers may else raise [OverflowError], which it does
    not when the dividend is below [2 ^ 1023] in magnitude; a float divided
    by a non-zero length is a float.  Lower-casing the empty string gives the
    empty string. *)
Class Python : Type := {
  str_lower : string → string;
  sum_float : list float → float;
  int_truediv : Z → Z → result float;
  float_truediv : float → Z → result float;
  py_round : float → Z → float;
  str_lower_empty : str_lower "" = "";
  int_truediv_zero : ∀ a, int_truediv a 0 = inl ZeroDivisionError;
  int_truediv_nonzero :
    ∀ a n, n ≠ 0 → Z.abs a < 2 ^ 1023 → ∃ q, int_truediv a n = inr q;
  float_truediv_zero : ∀ a, float_truediv a 0 = inl ZeroDivisionError;
  float_truediv_nonzero : ∀ a n, n ≠ 0 → ∃ q, float_truediv a n = inr q
}.

(** [sub in s] on strings: [sub] occurs in [s] as a contiguous run. *)
Fixpoint str_contains (sub s : string) : bool :=
  String.prefix sub s ||
  match s with
  | EmptyString => false
  | String _ s' => str_contains sub s'
  end.

(** [min(values)] and [max(values)]: the first element that no later one
    beats under [<] (for [max], under [>]); [ValueError] on an empty list. *)
Fixpoint py_min_from {A : Type} (lt : A → A → bool) (cur : A) (l : list A) : A :=
  match l with
  | [] => cur
  | x :: l' => py_min_from lt (if lt x cur then x else cur) l'
  end.

Definition py_min {A : Type} (lt : A → A → bool) (l : list A) : result A :=
  match l with
  | [] => inl ValueError
  | x :: l' => inr (py_min_from lt x l')
  end.

Definition py_max {A : Type} (lt : A → A → bool) (l : list A) : result A :=
  py_min (λ a b, lt b a) l.

(** [sum(values)] over integers. *)
Definition sum_int (l : list Z) : Z := foldl Z.add 0 l.

Definition len {A : Type} (l : list A) : Z := Z.of_nat (length l).

Context `{Python}.

(** ** The seed data *)

Record trip_data : Type := mkData {
  d_destination : string;
  d_country : string;
  d_travel_agency : string;
  d_duration_days : Z;
  d_price : float;
  d_rating : float;
  d_group_size : Z
}.

Definition STATIC_TRIPS : list trip_data :=
  [ mkData "Париж" "Франция" "ТурМир" 7 120000.0 4.8 15;
    mkData "Бали" "Индонезия" "АзияТур" 10 185000.0 4.6 12;
    mkData "Токио" "Япония" "ВостокТур" 8 220000.0 4.9 8;
    mkData "Нью-Йорк" "США" "АмерикаТур" 12 250000.0 4.7 20;
    mkData "Дубай" "ОАЭ" "ВостокТур" 9 190000.0 4.5 18 ].

(** What one request draws from outside: an identifier from [uuid.uuid4()]
    and a reading of the clock from [get_current_time()]. *)
Record env : Type := mkEnv { uuid4 : string; get_current_time : string }.

(** [initialize_database]: the list is cleared, and every seed record is
    appended with an identifier and a clock reading of its own. *)
Fixpoint seed (rnd : nat → env) (i : nat) (l : list trip_data) : M unit :=
  match l with
  | [] => mret tt
  | d :: l' =>
      let trip_id := uuid4 (rnd i) in
      let now := get_current_time (rnd i) in
      db_append (mkTrip (Some trip_id) (d_destination d) (d_country d)
                   (d_travel_agency d) (d_duration_days d) (d_price d)
                   (d_rating d) (d_group_size d) (Some now) (Some now));;
      seed rnd (S i) l'
  end.

Definition initialize_database (rnd : nat → env) : M unit :=
  db_clear;; seed rnd 0%nat STATIC_TRIPS.

(** ** The handlers *)

(** Truth value of an [Optional[str]] argument. *)
Definition truthy (o : option string) : option string :=
  match o with
  | Some EmptyString | None => None
  | Some s => Some s
  end.

(** GET /trips *)
Definition get_all_trips (sort_by : option string) (reverse : bool)
    : M (list Trip) :=
  result ← read_db;
  match truthy sort_by with
  | Some name =>
      match list_sort (λ x, getattr x name) attr_lt reverse result with
      | inr sorted => mret sorted
      | inl AttributeError => mret result
      | inl e => raise e
      end
  | None => mret result
  end.

(** GET /trips/{trip_id} *)
Definition get_trip (trip_id : string) : M Trip :=
  db ← read_db;
  match find_trip_by_id db trip_id with
  | None => raise (not_found trip_id)
  | Some trip => mret trip
  end.

(** POST /trips *)
Definition create_trip (trip : Trip) (e : env) : M Trip :=
  let trip_id := uuid4 e in
  let now := get_current_time e in
  let trip := set_id (Some trip_id) trip in
  let trip := set_created_at (Some now) trip in
  let trip := set_updated_at (Some now) trip in
  db_append trip;;
  mret trip.

(** PUT /trips/{trip_id} *)
Definition update_trip (trip_id : string) (updated_trip : Trip) (e : env)
    : M Trip :=
  db ← read_db;
  let trip_index := find_trip_index db trip_id in
  if trip_index =? -1 then raise (not_found trip_id)
  else
    original_trip ← db_getitem trip_index;
    let updated_trip := set_id (Some trip_id) updated_trip in
    let updated_trip := set_created_at (created_at original_trip) updated_trip in
    let updated_trip := set_updated_at (Some (get_current_time e)) updated_trip in
    db_setitem trip_index updated_trip;;
    mret updated_trip.

(** The loop of [patch_trip] over the items of the request's dictionary. *)
Definition patch_item (key : string) (value : PyValue)
    (trip_dict : gmap string PyValue) : gmap string PyValue :=
  if bool_decide (is_Some (trip_dict !! key))
     && negb (bool_decide (key ∈ ["id"; "created_at"]))
  then <[key := value]> trip_dict
  else trip_dict.

(** PATCH /trips/{trip_id} *)
Definition patch_trip (trip_id : string) (trip_update : gmap string PyValue)
    (e : env) : M Trip :=
  db ← read_db;
  let trip_index := find_trip_index db trip_id in
  if trip_index =? -1 then raise (not_found trip_id)
  else
    current_trip ← db_getitem trip_index;
    let trip_dict := Trip_dict current_trip in
    let trip_dict := map_fold patch_item trip_dict trip_update in
    let trip_dict := <["updated_at" := PyStr (get_current_time e)]> trip_dict in
    match Trip_init trip_dict with
    | None => raise ValidationError
    | Some updated_trip =>
        db_setitem trip_index updated_trip;;
        mret updated_trip
    end.

(** DELETE /trips/{trip_id} *)
Definition delete_trip (trip_id : string)
    : M (string * gmap string PyValue) :=
  db ← read_db;
  let trip_index := find_trip_index db trip_id in
  if trip_index =? -1 then raise (not_found trip_id)
  else
    deleted_trip ← db_pop trip_index;
    mret ("Поездка успешно удалена", Trip_dict deleted_trip).

(** GET /statistics *)
Inductive number : Type := NInt (z : Z) | NFloat (f : float).

Record field_stats : Type := mkStats {
  st_min : number;
  st_max : number;
  st_average : float;
  st_sum : number;
  st_count : Z
}.

Inductive statistics_response : Type :=
| NoData (message : string) (trip_count : Z)
| Statistics (trip_count : Z) (statistics : list (string * field_stats))
    (calculated_at : string).

(** The dictionary built for one field, over its [values]. *)
Definition int_statistics (values : list Z) : result field_stats :=
  mn ← py_min Z.ltb values;
  mx ← py_max Z.ltb values;
  q ← int_truediv (sum_int values) (len values);
  inr (mkStats (NInt mn) (NInt mx) (py_round q 2) (NInt (sum_int values))
         (len values)).

Definition float_statistics (values : list float) : result field_stats :=
  mn ← py_min PrimFloat.ltb values;
  mx ← py_max PrimFloat.ltb values;
  q ← float_truediv (sum_float values) (len values);
  inr (mkStats (NFloat mn) (NFloat mx) (py_round q 2) (NFloat (sum_float values))
         (len values)).

Definition get_statistics (e : env) : M statistics_response :=
  db ← read_db;
  match db with
  | [] => mret (NoData "Нет данных для расчета статистики" 0)
  | _ =>
      s_duration_days ← lift (int_statistics (duration_days <$> db));
      s_price ← lift (float_statistics (price <$> db));
      s_rating ← lift (float_statistics (rating <$> db));
      s_group_size ← lift (int_statistics (group_size <$> db));
      mret (Statistics (len db)
              [("duration_days", s_duration_days); ("price", s_price);
               ("rating", s_rating); ("group_size", s_group_size)]
              (get_current_time e))
  end.

(** GET /trips/search *)
Definition search_trips (destination' country' : option string)
    (min_price max_price min_rating : option float) : M (list Trip) :=
  results ← read_db;
  let results :=
    match truthy destination' with
    | Some d => List.filter (λ t, str_contains (str_lower d)
                                    (str_lower (destination t))) results
    | None => results
    end in
  let results :=
    match truthy country' with
    | Some c => List.filter (λ t, str_contains (str_lower c)
                                    (str_lower (country t))) results
    | None => results
    end in
  let results :=
    match min_price with
    | Some lo => List.filter (λ t, PrimFloat.leb lo (price t)) results
    | None => results
    end in
  let results :=
    match max_price with
    | Some hi => List.filter (λ t, PrimFloat.leb (price t) hi) results
    | None => results
    end in
  let results :=
    match min_rating with
    | Some lo => List.filter (λ t, PrimFloat.leb lo (rating t)) results
    | None => results
    end in
  mret results.

(** GET /health *)
Record health : Type := mkHealth {
  h_status : string;
  h_timestamp : string;
  h_trip_count : Z;
  h_service : string
}.

Definition health_check (e : env) : M health :=
  db ← read_db;
  mret (mkHealth "healthy" (get_current_time e) (len db) "tourist-trips-api").

(** ** Routing

    The routes in the order the source registers them.  A path is the list
    of its segments; a parameter such as [{trip_id}] matches any one
    non-empty segment.  The router takes the first route whose path and
    method both match; a route whose path alone matches answers 405, and no
    match at all answers 404. *)
Inductive http_method : Type := GET | POST | PUT | PATCH | DELETE.

#[global] Instance http_method_eq_dec : EqDecision http_method.
Proof. solve_decision. Defined.

Inductive segment : Type := Lit (s : string) | Param (name : string).

Inductive endpoint : Type :=
| ep_root | ep_get_all_trips | ep_get_trip | ep_create_trip | ep_update_trip
| ep_patch_trip | ep_delete_trip | ep_get_statistics | ep_search_trips
| ep_health_check.

Record route : Type := mkRoute {
  r_method : http_method;
  r_path : list segment;
  r_endpoint : endpoint
}.

Definition routes : list route :=
  [ mkRoute GET [] ep_root;
    mkRoute GET [Lit "trips"] ep_get_all_trips;
    mkRoute GET [Lit "trips"; Param "trip_id"] ep_get_trip;
    mkRoute POST [Lit "trips"] ep_create_trip;
    mkRoute PUT [Lit "trips"; Param "trip_id"] ep_update_trip;
    mkRoute PATCH [Lit "trips"; Param "trip_id"] ep_patch_trip;
    mkRoute DELETE [Lit "trips"; Param "trip_id"] ep_delete_trip;
    mkRoute GET [Lit "statistics"] ep_get_statistics;
    mkRoute GET [Lit "trips"; Lit "search"] ep_search_trips;
    mkRoute GET [Lit "health"] ep_health_check ].

(** The parameters a path binds when it matches a pattern. *)
Fixpoint match_path (pattern : list segment) (path : list string)
    : option (gmap string string) :=
  match pattern, path with
  | [], [] => Some ∅
  | Lit s :: pattern', x :: path' =>
      if String.eqb s x then match_path pattern' path' else None
  | Param name :: pattern', x :: path' =>
      if String.eqb x "" then None
      else <[name := x]> <$> match_path pattern' path'
  | _, _ => None
  end.

Fixpoint find_route (rs : list route) (m : http_method) (path : list string)
    (partial : bool) : result (endpoint * gmap string string) :=
  match rs with
  | [] => inl (HTTPException (if partial then 405 else 404)
                 (if partial then "Method Not Allowed" else "Not Found"))
  | r :: rs' =>
      match match_path (r_path r) path with
      | Some params =>
          if bool_decide (r_method r = m) then inr (r_endpoint r, params)
          else find_route rs' m path true
      | None => find_route rs' m path partial
      end
  end.

(** ** Requests and responses *)

Record request : Type := mkRequest {
  req_method : http_method;
  req_path : list string;
  req_query : gmap string string;
  req_json : option PyValue
}.

Inductive payload : Type :=
| RInfo
| RTrips (l : list Trip)
| RTrip (t : Trip)
| RDeleted (message : string) (deleted_trip : gmap string PyValue)
| RStatistics (s : statistics_response)
| RHealth (h : health).

Record response : Type := mkResponse { status_code : Z; content : payload }.

(** A JSON object as keyword arguments: a repeated key keeps its last value. *)
Definition kwargs (d : list (string * PyValue)) : gmap string PyValue :=
  list_to_map (rev d).

(** The framework validates the arguments of a handler before it calls it. *)
Definition body_Trip (req : request) : result Trip :=
  match req_json req with
  | Some (PyDict d) =>
      match Trip_init (kwargs d) with
      | Some t => inr t
      | None => inl RequestValidationError
      end
  | _ => inl RequestValidationError
  end.

Definition body_dict (req : request) : result (gmap string PyValue) :=
  match req_json req with
  | Some (PyDict d) => inr (kwargs d)
  | _ => inl RequestValidationError
  end.

Definition query_optional {A : Type} (validator : PyValue → option A)
    (req : request) (name : string) : result (option A) :=
  match req_query req !! name with
  | None => inr None
  | Some s =>
      match validator (PyStr s) with
      | Some a => inr (Some a)
      | None => inl RequestValidationError
      end
  end.

Definition path_param (params : gmap string string) (name : string) : string :=
  default "" (params !! name).

(** One request, from routing to the handler's return. *)
Definition serve (req : request) (e : env) : M response :=
  '(ep, params) ← lift (find_route routes (req_method req) (req_path req) false);
  match ep with
  | ep_root => mret (mkResponse 200 RInfo)
  | ep_get_all_trips =>
      sort_by ← lift (query_optional str_validator req "sort_by");
      reverse ← lift (query_optional bool_validator req "reverse");
      l ← get_all_trips sort_by (default false reverse);
      mret (mkResponse 200 (RTrips l))
  | ep_get_trip =>
      t ← get_trip (path_param params "trip_id");
      mret (mkResponse 200 (RTrip t))
  | ep_create_trip =>
      trip ← lift (body_Trip req);
      t ← create_trip trip e;
      mret (mkResponse 201 (RTrip t))
  | ep_update_trip =>
      updated_trip ← lift (body_Trip req);
      t ← update_trip (path_param params "trip_id") updated_trip e;
      mret (mkResponse 200 (RTrip t))
  | ep_patch_trip =>
      trip_update ← lift (body_dict req);
      t ← patch_trip (path_param params "trip_id") trip_update e;
      mret (mkResponse 200 (RTrip t))
  | ep_delete_trip =>
      '(message, deleted_trip) ← delete_trip (path_param params "trip_id");
      mret (mkResponse 200 (RDeleted message deleted_trip))
  | ep_get_statistics =>
      s ← get_statistics e;
      mret (mkResponse 200 (RStatistics s))
  | ep_search_trips =>
      destination' ← lift (query_optional str_validator req "destination");
      country' ← lift (query_optional str_validator req "country");
      min_price ← lift (query_optional float_validator req "min_price");
      max_price ← lift (query_optional float_validator req "max_price");
      min_rating ← lift (query_optional float_validator req "min_rating");
      l ← search_trips destination' country' min_price max_price min_rating;
      mret (mkResponse 200 (RTrips l))
  | ep_health_check =>
      h ← health_check e;
      mret (mkResponse 200 (RHealth h))
  end.

(** ** Runs of the service

    An operation of the store is a handler called on its arguments, or a
    whole request.  The process starts with an empty list, seeds it, and then
    performs the operations of a trace one after the other, each with the
    identifier and the clock reading it may draw. *)
Inductive operation : Type :=
| op_list (sort_by : option string) (reverse : bool)
| op_getById (trip_id : string)
| op_create (trip : Trip)
| op_replace (trip_id : string) (updated_trip : Trip)
| op_patch (trip_id : string) (trip_update : gmap string PyValue)
| op_delete (trip_id : string)
| op_search (destination' country' : option string)
    (min_price max_price min_rating : option float)
| op_statistics
| op_request (req : request).

Definition perform (op : operation) (e : env) : M unit :=
  match op with
  | op_list sort_by reverse => get_all_trips sort_by reverse;; mret tt
  | op_getById trip_id => get_trip trip_id;; mret tt
  | op_create trip => create_trip trip e;; mret tt
  | op_replace trip_id updated_trip =>
      update_trip trip_id updated_trip e;; mret tt
  | op_patch trip_id trip_update => patch_trip trip_id trip_update e;; mret tt
  | op_delete trip_id => delete_trip trip_id;; mret tt
  | op_search destination' country' min_price max_price min_rating =>
      search_trips destination' country' min_price max_price min_rating;;
      mret tt
  | op_statistics => get_statistics e;; mret tt
  | op_request req => serve req e;; mret tt
  end.

Definition startup (rnd : nat → env) : list Trip :=
  snd (initialize_database rnd []).

Definition step (db : list Trip) (oe : operation * env) : list Trip :=
  snd (perform (fst oe) (snd oe) db).

Definition run (rnd : nat → env) (trace : list (operation * env)) : list Trip :=
  foldl step (startup rnd) trace.

End Model.

(** * Specification

    The vocabulary of the statements proved below: what it means for a
    record to be stored under an id, for a patch to merge, for a record to
    satisfy the search filters, for statistics to summarise a field, for an
    operation to be atomic, and the invariants of the data model. *)

Section Vocabulary.
Context `{Pydantic} `{Python}.

(** [t] is the first record of [db] whose id is [trip_id], at position [k]. *)
Definition first_with_id (db : list Trip) (trip_id : string) (k : nat)
    (t : Trip) : Prop :=
  db !! k = Some t ∧ id t = Some trip_id ∧
  ∀ j t', (j < k)%nat → db !! j = Some t' → id t' ≠ Some trip_id.

(** No record of [db] has the id [trip_id]. *)
Definition absent (db : list Trip) (trip_id : string) : Prop :=
  ∀ t, t ∈ db → id t ≠ Some trip_id.

(** [new] is what a field holds after a patch: the validated value of the
    request when the request names the field, the old value otherwise. *)
Definition patched {A : Type} (validator : PyValue → option A) (old : A)
    (given : option PyValue) (new : A) : Prop :=
  match given with
  | Some v => validator v = Some new
  | None => new = old
  end.

(** The request's value for one of the seven data fields is refused by the
    field's validator. *)
Definition refused `{Pydantic} (m : gmap string PyValue) : Prop :=
  (∃ v, m !! "destination" = Some v ∧ str_validator v = None) ∨
  (∃ v, m !! "country" = Some v ∧ str_validator v = None) ∨
  (∃ v, m !! "travel_agency" = Some v ∧ str_validator v = None) ∨
  (∃ v, m !! "duration_days" = Some v ∧ int_validator v = None) ∨
  (∃ v, m !! "price" = Some v ∧ float_validator v = None) ∨
  (∃ v, m !! "rating" = Some v ∧ float_validator v = None) ∨
  (∃ v, m !! "group_size" = Some v ∧ int_validator v = None).

(** The keyword arguments the patched record is rebuilt from. *)
Definition patch_kwargs (cur : Trip) (m : gmap string PyValue) (now : string)
    : gmap string PyValue :=
  <["updated_at" := PyStr now]> (map_fold patch_item (Trip_dict cur) m).

(** The filters in the words of the specification: [needle] occurs in [hay]
    once both are lower-cased. *)
Definition ci_substring (needle hay : string) : Prop :=
  ∃ pre suf,
    str_lower hay = String.append pre (String.append (str_lower needle) suf).

(** A record satisfies every supplied filter; an absent filter asks nothing. *)
Definition satisfies (destination' country' : option string)
    (min_price max_price min_rating : option float) (t : Trip) : Prop :=
  (∀ d, destination' = Some d → ci_substring d (destination t)) ∧
  (∀ c, country' = Some c → ci_substring c (country t)) ∧
  (∀ lo, min_price = Some lo → PrimFloat.leb lo (price t) = true) ∧
  (∀ hi, max_price = Some hi → PrimFloat.leb (price t) hi = true) ∧
  (∀ lo, min_rating = Some lo → PrimFloat.leb lo (rating t) = true).

(** The five filters of the source as one predicate. *)
Definition keeps (destination' country' : option string)
    (min_price max_price min_rating : option float) (t : Trip) : bool :=
  match truthy destination' with
  | Some d => str_contains (str_lower d) (str_lower (destination t))
  | None => true
  end &&
  match truthy country' with
  | Some c => str_contains (str_lower c) (str_lower (country t))
  | None => true
  end &&
  match min_price with Some lo => PrimFloat.leb lo (price t) | None => true end &&
  match max_price with Some hi => PrimFloat.leb (price t) hi | None => true end &&
  match min_rating with Some lo => PrimFloat.leb lo (rating t) | None => true end.

Definition not_nan (x : float) : Prop := Prim2SF x ≠ S754_nan.

(** The sum of a list of integers, by recursion on the list. *)
Fixpoint total (l : list Z) : Z :=
  match l with
  | [] => 0
  | x :: l' => x + total l'
  end.

(** What the entry of an integer field says about the field's [values]. *)
Definition int_summary (values : list Z) (s : field_stats) : Prop :=
  ∃ mn mx q,
    st_min s = NInt mn ∧ st_max s = NInt mx ∧
    mn ∈ values ∧ mx ∈ values ∧ (∀ v, v ∈ values → mn ≤ v ≤ mx) ∧
    st_sum s = NInt (total values) ∧
    st_count s = len values ∧
    int_truediv (total values) (len values) = inr q ∧
    st_average s = py_round q 2.

(** The same for a float field.  The minimum is a value that no value is
    below, the maximum one that is below no value; when no value is a NaN
    this is the least and the greatest value. *)
Definition float_summary (values : list float) (s : field_stats) : Prop :=
  ∃ mn mx q,
    st_min s = NFloat mn ∧ st_max s = NFloat mx ∧
    mn ∈ values ∧ mx ∈ values ∧
    (∀ v, v ∈ values → PrimFloat.ltb v mn = false ∧ PrimFloat.ltb mx v = false) ∧
    ((∀ v, v ∈ values → not_nan v) →
     ∀ v, v ∈ values → PrimFloat.leb mn v = true ∧ PrimFloat.leb v mx = true) ∧
    st_sum s = NFloat (sum_float values) ∧
    st_count s = len values ∧
    float_truediv (sum_float values) (len values) = inr q ∧
    st_average s = py_round q 2.

(** A computation is atomic when a raised exception comes with the list
    unchanged. *)
Definition atomic {A : Type} (m : M A) : Prop :=
  ∀ db err, fst (m db) = inl err → snd (m db) = db.

(** A computation that never writes. *)
Definition read_only {A : Type} (m : M A) : Prop :=
  ∀ db, snd (m db) = db.

(** A computation that never raises. *)
Definition total_m {A : Type} (m : M A) : Prop :=
  ∀ db, ∃ a db', m db = (inr a, db').

(** Two records with the same seven data fields. *)
Definition same_data (t1 t2 : Trip) : Prop :=
  destination t1 = destination t2 ∧ country t1 = country t2 ∧
  travel_agency t1 = travel_agency t2 ∧ duration_days t1 = duration_days t2 ∧
  price t1 = price t2 ∧ rating t1 = rating t2 ∧ group_size t1 = group_size t2.

(** The record [create_trip] stores for the validated body [trip]. *)
Definition created (trip : Trip) (e : env) : Trip :=
  mkTrip (Some (uuid4 e)) (destination trip) (country trip)
    (travel_agency trip) (duration_days trip) (price trip) (rating trip)
    (group_size trip) (Some (get_current_time e)) (Some (get_current_time e)).

(** Timestamps are the strings [datetime.now().isoformat()] gives; they are
    compared as strings, which for timestamps of one calendar era is the
    order of time. *)
Definition str_le (a b : string) : Prop := String.leb a b = true.

(** The four shapes of a step: nothing; a record appended that carries the
    generated identifier and the clock reading in both timestamps; a record
    replaced at its position by one with the same [id] and [created_at] and
    the clock reading in [updated_at]; a record removed. *)
Inductive effect (e : env) (db : list Trip) : list Trip → Prop :=
| eff_none : effect e db db
| eff_create (t : Trip) :
    id t = Some (uuid4 e) →
    created_at t = Some (get_current_time e) →
    updated_at t = Some (get_current_time e) →
    effect e db (db ++ [t])
| eff_update (k : nat) (old new : Trip) :
    db !! k = Some old →
    id new = id old →
    created_at new = created_at old →
    updated_at new = Some (get_current_time e) →
    effect e db (<[k := new]> db)
| eff_delete (k : nat) (old : Trip) :
    db !! k = Some old →
    effect e db (delete k db).

Definition effects {A : Type} (e : env) (m : M A) : Prop :=
  ∀ db, effect e db (snd (m db)).

(** The identifiers and the clock readings a run has drawn, in order: those
    of the seeding, then one of each for every operation of the trace. *)
Definition issued (rnd : nat → env) (trace : list (operation * env))
    : list string :=
  ((λ i, uuid4 (rnd i)) <$> seq 0 (length STATIC_TRIPS))
  ++ ((λ oe, uuid4 (snd oe)) <$> trace).

Definition readings (rnd : nat → env) (trace : list (operation * env))
    : list string :=
  ((λ i, get_current_time (rnd i)) <$> seq 0 (length STATIC_TRIPS))
  ++ ((λ oe, get_current_time (snd oe)) <$> trace).

(** The assumptions on the outside: [uuid4] never repeats an identifier, and
    the clock never runs backwards. *)
Definition fresh_identifiers (rnd : nat → env)
    (trace : list (operation * env)) : Prop :=
  NoDup (issued rnd trace).

Definition monotone_clock (rnd : nat → env)
    (trace : list (operation * env)) : Prop :=
  Sorted str_le (readings rnd trace).

(** A record carries an issued identifier, and timestamps in order, the
    later of which is a reading already taken. *)
Definition well_stamped (us ts : list string) (t : Trip) : Prop :=
  ∃ i c u, id t = Some i ∧ i ∈ us ∧ created_at t = Some c ∧
           updated_at t = Some u ∧ str_le c u ∧ u ∈ ts.

Definition store_ok (us ts : list string) (db : list Trip) : Prop :=
  NoDup (id <$> db) ∧ Forall (well_stamped us ts) db.

(** The records the seeding appends. *)
Fixpoint seeded (rnd : nat → env) (i : nat) (l : list trip_data) : list Trip :=
  match l with
  | [] => []
  | d :: l' =>
      mkTrip (Some (uuid4 (rnd i))) (d_destination d) (d_country d)
        (d_travel_agency d) (d_duration_days d) (d_price d) (d_rating d)
        (d_group_size d) (Some (get_current_time (rnd i)))
        (Some (get_current_time (rnd i)))
      :: seeded rnd (S i) l'
  end.

(** [x] may stand before [y]: the key of [y] is not below that of [x]. *)
Definition not_after {K : Type} (ltb : K → K → bool) (x y : K * Trip) : Prop :=
  ltb (fst y) (fst x) = false.

(** The key [a] ties with the key [k]: neither is below the other. *)
Definition ties {K : Type} (ltb : K → K → bool) (k a : K) : bool :=
  negb (ltb a k) && negb (ltb k a).

Definition in_domain {K : Type} (P : K → Prop) (l : list (K * Trip)) : Prop :=
  Forall (λ x, P (fst x)) l.

(** [<] on attributes as a boolean, and the three kinds of keys it orders:
    strings, integers, and floats other than NaN. *)
Definition attr_ltb (a b : attr) : bool :=
  match attr_lt a b with inr r => r | inl _ => false end.

Inductive kind : Type := KStr | KInt | KFloat.

Definition of_kind (κ : kind) (a : attr) : Prop :=
  match κ, a with
  | KStr, AttrStr _ => True
  | KInt, AttrInt _ => True
  | KFloat, AttrFloat f => not_nan f
  | _, _ => False
  end.

(** The key [get_all_trips] sorts by when [name] is a field. *)
Definition key_of (name : string) (x : Trip) : attr :=
  default AttrNone (field_value x name).

(** The keyword arguments of the constructor call in [initialize_database]:
    the entries of the seed dictionary, then [id], [created_at] and
    [updated_at]. *)
Definition seed_kwargs (d : trip_data) (trip_id now : string)
    : gmap string PyValue :=
  <["updated_at" := PyStr now]>
  (<["created_at" := PyStr now]>
  (<["id" := PyStr trip_id]>
  (<["group_size" := PyInt (d_group_size d)]>
  (<["rating" := PyFloat (d_rating d)]>
  (<["price" := PyFloat (d_price d)]>
  (<["duration_days" := PyInt (d_duration_days d)]>
  (<["travel_agency" := PyStr (d_travel_agency d)]>
  (<["country" := PyStr (d_country d)]>
  (<["destination" := PyStr (d_destination d)]> ∅))))))))).

(** The response of a handler that returned: its status code and content. *)
Definition respond {A : Type} (code : Z) (wrap : A → payload) (m : M A)
    : M response :=
  a ← m; mret (mkResponse code (wrap a)).

End Vocabulary.

(** * Instances and sample data for evaluation

    [strict_pydantic] accepts exactly the values already of the declared
    type (and the two JSON spellings of a boolean in a query string).
    [reference_python] lower-cases ASCII letters, sums floats from left to
    right, divides with one rounding in binary64 and rounds by scaling.  Both
    satisfy the laws of their interfaces; the examples below are evaluated
    with them. *)
Definition strict_str (v : PyValue) : option string :=
  match v with PyStr s => Some s | _ => None end.
Definition strict_int (v : PyValue) : option Z :=
  match v with PyInt z => Some z | _ => None end.
Definition strict_float (v : PyValue) : option float :=
  match v with PyFloat f => Some f | _ => None end.
Definition strict_bool (v : PyValue) : option bool :=
  match v with
  | PyBool b => Some b
  | PyStr s => if String.eqb s "true" then Some true
               else if String.eqb s "false" then Some false else None
  | _ => None
  end.

#[export] Instance strict_pydantic : Pydantic := {|
  str_validator := strict_str;
  int_validator := strict_int;
  float_validator := strict_float;
  bool_validator := strict_bool;
  model_method name := String.eqb name "dict";
  str_validator_str _ := eq_refl;
  int_validator_int _ := eq_refl;
  float_validator_float _ := eq_refl;
  str_validator_None := eq_refl;
  int_validator_None := eq_refl;
  float_validator_None := eq_refl;
  str_validator_list _ := eq_refl;
  model_method_dict := eq_refl
|}.

Definition ascii_lower (c : ascii) : ascii :=
  let n := nat_of_ascii c in
  if ((65 <=? n) && (n <=? 90))%nat then ascii_of_nat (n + 32) else c.

Fixpoint lower (s : string) : string :=
  match s with
  | EmptyString => EmptyString
  | String c s' => String (ascii_lower c) (lower s')
  end.

(** The float nearest to an integer, and the float nearest to the quotient
    of two integers: the quotient is taken with 56 bits or more and a sticky
    bit, then rounded to 53. *)
Definition float_of_Z (z : Z) : float :=
  SF2Prim (binary_normalize prec emax z 0 false).

Definition int_quotient (a n : Z) : spec_float :=
  let k := Z.max 0 (Z.log2 (Z.abs n) + 56 - Z.log2 (Z.abs a)) in
  let q := (Z.abs a * 2 ^ k) / Z.abs n in
  let sticky := if (Z.abs a * 2 ^ k) mod Z.abs n =? 0 then 0 else 1 in
  let m := 2 * q + sticky in
  binary_normalize prec emax (if xorb (a <? 0) (n <? 0) then - m else m)
    (- (k + 1)) (n <? 0).

Definition int_truediv_exact (a n : Z) : result float :=
  if n =? 0 then inl ZeroDivisionError
  else if Z.abs a <? 2 ^ 1023 then inr (SF2Prim (int_quotient a n))
  else match int_quotient a n with
       | S754_infinity _ => inl OverflowError
       | q => inr (SF2Prim q)
       end.

Definition round_half_even (x : float) : float :=
  let big := 4503599627370496%float in
  if (PrimFloat.abs x <? big)%float then
    if (x <? 0)%float then ((x - big) + big)%float else ((x + big) - big)%float
  else x.

Definition round_by_scaling (x : float) (ndigits : Z) : float :=
  let s := float_of_Z (10 ^ ndigits) in
  (round_half_even (x * s) / s)%float.

Definition truediv (a : float) (n : Z) : result float :=
  if n =? 0 then inl ZeroDivisionError else inr (a / float_of_Z n)%float.

#[export] Instance reference_python : Python.
Proof.
  refine {|
    str_lower := lower;
    sum_float l := foldl PrimFloat.add 0%float l;
    int_truediv := int_truediv_exact;
    float_truediv := truediv;
    py_round := round_by_scaling;
    str_lower_empty := eq_refl;
    int_truediv_zero _ := eq_refl;
    float_truediv_zero _ := eq_refl
  |}.
  - intros a n Hn Ha. unfold int_truediv_exact.
    destruct (Z.eqb_spec n 0); [done|].
    destruct (Z.ltb_spec (Z.abs a) (2 ^ 1023)); [eauto | lia].
  - intros a n Hn. unfold truediv. destruct (Z.eqb_spec n 0); [done | eauto].
Defined.

(** Identifiers ["a"], ["b"], ... and one clock reading for the seed. *)
Definition sample_rnd (i : nat) : env :=
  mkEnv (String (ascii_of_nat (97 + i)) "") "2024-01-01T00:00:00".

Definition sample_db : list Trip :=
  Eval vm_compute in startup sample_rnd.

Definition sample_env : env := mkEnv "z" "2024-06-01T12:00:00".

Definition paris : Trip :=
  mkTrip (Some "a") "Париж" "Франция" "ТурМир" 7 120000.0 4.8 15
    (Some "2024-01-01T00:00:00") (Some "2024-01-01T00:00:00").

Definition paris_patched : Trip :=
  mkTrip (Some "a") "Париж" "Франция" "ТурМир" 7 99999.0 4.8 15
    (Some "2024-01-01T00:00:00") (Some "2024-06-01T12:00:00").

Definition paris_touched : Trip :=
  set_updated_at (Some "2024-06-01T12:00:00") paris.

Definition rome : Trip :=
  mkTrip None "Рим" "Италия" "ЕвроТур" 5 90000.0 4.4 10 None None.

Definition rome_stored : Trip :=
  mkTrip (Some "a") "Рим" "Италия" "ЕвроТур" 5 90000.0 4.4 10
    (Some "2024-01-01T00:00:00") (Some "2024-06-01T12:00:00").

Definition rome_body : list (string * PyValue) :=
  [("destination", PyStr "Рим"); ("country", PyStr "Италия");
   ("travel_agency", PyStr "ЕвроТур"); ("duration_days", PyInt 5);
   ("price", PyFloat 90000.0); ("rating", PyFloat 4.4);
   ("group_size", PyInt 10)].

Definition rome_body_with_ids : list (string * PyValue) :=
  ("id", PyStr "a") :: ("created_at", PyStr "1999-12-31T23:59:59") ::
  ("updated_at", PyNone) :: rome_body.

(** The same body with a list as [id]. *)
Definition rome_body_id_list : list (string * PyValue) :=
  ("id", PyList []) :: rome_body.

(** A run for evaluation: a record is created, the first seed record is
    deleted, and the new record is patched. *)
Definition sample_trace : list (operation * env) :=
  [ (op_create rome, mkEnv "z" "2024-06-01T12:00:00");
    (op_delete "a", mkEnv "y" "2024-06-02T08:30:00");
    (op_patch "z" {["price" := PyFloat 95000.0]},
     mkEnv "x" "2024-06-02T08:30:00.250000") ].

(** Records with the prices 2, NaN and 1, in this order. *)
Definition priced (i : string) (p : float) : Trip :=
  mkTrip (Some i) "" "" "" 1 p 0 1 (Some "") (Some "").

Definition nan_prices : list Trip :=
  [priced "two" 2; priced "nan" nan; priced "one" 1].

(** A tour of [2 ^ 1100] days. *)
Definition marathon : Trip :=
  mkTrip (Some "m") "" "" "" (2 ^ 1100) 1 1 1 (Some "") (Some "").

(** Two runs on which the outside misbehaves.  In the first the clock reads
    an hour less at the patch than at the create before it, as local time
    does when summer time ends; in the second the identifier ["z"] is drawn
    twice. *)
Definition backwards_trace : list (operation * env) :=
  [ (op_create rome, mkEnv "z" "2024-10-27T02:30:00");
    (op_patch "z" {["price" := PyFloat 95000.0]},
     mkEnv "y" "2024-10-27T02:00:00") ].

Definition repeated_trace : list (operation * env) :=
  [ (op_create rome, mkEnv "z" "2024-06-01T12:00:00");
    (op_create rome, mkEnv "z" "2024-06-01T12:00:01") ].

(** * Verification *)

(** ** Looking a record up by its identifier *)

Lemma first_with_id_cons_ne a db trip_id k t :
  id a ≠ Some trip_id →
  first_with_id (a :: db) trip_id k t →
  ∃ k', k = S k' ∧ first_with_id db trip_id k' t.
Proof.
  intros Ha (Hk & Hid & Hfirst). destruct k as [|k']; simpl in Hk.
  - congruence.
  - exists k'. split; [done|]. repeat split; [done..|].
    intros j t' Hj Ht'. apply (Hfirst (S j) t'); [lia | done].
Qed.

Lemma find_trip_index_from_first i db trip_id k t :
  first_with_id db trip_id k t →
  find_trip_index_from i db trip_id = i + Z.of_nat k.
Proof.
  revert i k. induction db as [|a db IH]; intros i k Hf.
  - destruct Hf as (Hk & _). by rewrite lookup_nil in Hk.
  - simpl. case_bool_decide as Ha.
    + destruct k as [|k']; [lia|].
      destruct Hf as (_ & _ & Hfirst). by destruct (Hfirst 0%nat a); [lia|..].
    + destruct (first_with_id_cons_ne _ _ _ _ _ Ha Hf) as (k' & -> & Hf').
      rewrite (IH _ _ Hf'). lia.
Qed.

Lemma find_trip_index_from_absent i db trip_id :
  absent db trip_id → find_trip_index_from i db trip_id = -1.
Proof.
  revert i. induction db as [|a db IH]; intros i Ha; [done|].
  simpl. case_bool_decide as Hid.
  - destruct (Ha a); [left | done].
  - apply IH. intros t Ht. apply Ha. by right.
Qed.

(** The index is [-1] exactly when the id is absent; otherwise it is the
    position of the first record with that id. *)
Lemma find_trip_index_cases db trip_id :
  (absent db trip_id ∧ find_trip_index db trip_id = -1) ∨
  (∃ k t, first_with_id db trip_id k t ∧
          find_trip_index db trip_id = Z.of_nat k).
Proof.
  unfold find_trip_index.
  assert (absent db trip_id ∨ ∃ k t, first_with_id db trip_id k t) as [Ha|Hf].
  { induction db as [|a db IH].
    - left. intros t Ht. by apply elem_of_nil in Ht.
    - destruct (decide (id a = Some trip_id)) as [Hid|Hid].
      + right. exists 0%nat, a. repeat split; [done|]. intros; lia.
      + destruct IH as [Ha|(k & t & Hk & Ht & Hfirst)].
        * left. intros t [->|Ht]%elem_of_cons; [done | by apply Ha].
        * right. exists (S k), t. repeat split; [done..|].
          intros [|j] t' Hj Ht'; simpl in Ht'; [congruence|].
          apply (Hfirst j t'); [lia | done]. }
  - left. split; [done|]. by apply find_trip_index_from_absent.
  - right. destruct Hf as (k & t & Hf). exists k, t. split; [done|].
    by rewrite (find_trip_index_from_first 0 _ _ _ _ Hf).
Qed.

Lemma find_trip_index_first db trip_id k t :
  first_with_id db trip_id k t → find_trip_index db trip_id = Z.of_nat k.
Proof. intros Hf. unfold find_trip_index. by rewrite (find_trip_index_from_first 0 _ _ _ _ Hf). Qed.

Lemma find_trip_index_absent db trip_id :
  absent db trip_id → find_trip_index db trip_id = -1.
Proof. apply find_trip_index_from_absent. Qed.

Lemma find_trip_by_id_absent db trip_id :
  absent db trip_id → find_trip_by_id db trip_id = None.
Proof.
  induction db as [|a db IH]; intros Ha; [done|].
  simpl. case_bool_decide as Hid.
  - destruct (Ha a); [left | done].
  - apply IH. intros t Ht. apply Ha. by right.
Qed.

Lemma py_index_nat (k n : nat) :
  (k < n)%nat → py_index (Z.of_nat k) n = Some k.
Proof.
  intros Hk. unfold py_index.
  destruct (Z.leb_spec 0 (Z.of_nat k)); [|lia].
  destruct (Z.ltb_spec (Z.of_nat k) (Z.of_nat n)); [|lia].
  simpl. by rewrite Nat2Z.id.
Qed.

Lemma db_getitem_lookup (db : list Trip) (k : nat) (t : Trip) :
  db !! k = Some t → db_getitem (Z.of_nat k) db = (inr t, db).
Proof.
  intros Hk. unfold db_getitem.
  rewrite py_index_nat by (by eapply lookup_lt_Some). simpl. by rewrite Hk.
Qed.

Lemma db_setitem_lookup (db : list Trip) (k : nat) (t t' : Trip) :
  db !! k = Some t → db_setitem (Z.of_nat k) t' db = (inr tt, <[k := t']> db).
Proof.
  intros Hk. unfold db_setitem.
  by rewrite py_index_nat by (by eapply lookup_lt_Some).
Qed.

Lemma db_pop_lookup (db : list Trip) (k : nat) (t : Trip) :
  db !! k = Some t → db_pop (Z.of_nat k) db = (inr t, delete k db).
Proof.
  intros Hk. unfold db_pop.
  rewrite py_index_nat by (by eapply lookup_lt_Some). by rewrite Hk.
Qed.

(** ** The dictionary [patch_trip] builds *)

Section Patch.
Context `{Pydantic}.

Lemma Trip_dict_lookup_None (t : Trip) (key : string) :
  Trip_dict t !! key = None ↔ key ∉ Trip_fields.
Proof.
  unfold Trip_dict, Trip_fields.
  rewrite !lookup_insert_None, lookup_empty, !not_elem_of_cons.
  split; [intros Hk | intros Hk]; repeat split; intuition (try congruence).
  by eapply not_elem_of_nil.
Qed.

(** After the loop a key of the model's dictionary holds the request's
    value when the request names it and it is neither [id] nor
    [created_at]; the loop adds no key. *)
Lemma patch_loop_lookup (d m : gmap string PyValue) (key : string) :
  map_fold patch_item d m !! key =
    match d !! key with
    | None => None
    | Some old =>
        if bool_decide (key ∈ ["id"; "created_at"]) then Some old
        else Some (default old (m !! key))
    end.
Proof.
  revert key.
  apply (map_fold_weak_ind
    (λ r m, ∀ key, r !! key =
       match d !! key with
       | None => None
       | Some old =>
           if bool_decide (key ∈ ["id"; "created_at"]) then Some old
           else Some (default old (m !! key))
       end)).
  - intros key. rewrite lookup_empty. simpl.
    destruct (d !! key); [|done]. by case_bool_decide.
  - intros i x m' r Hi IH key. unfold patch_item.
    destruct (decide (i = key)) as [->|Hne].
    + rewrite lookup_insert_eq. simpl.
      pose proof (IH key) as Hr. destruct (d !! key) as [old|] eqn:Hd.
      * destruct (bool_decide (key ∈ ["id"; "created_at"])); simpl.
        -- by rewrite andb_false_r.
        -- rewrite bool_decide_true by (rewrite Hr; eauto). simpl.
           by rewrite lookup_insert_eq.
      * rewrite bool_decide_false by (rewrite Hr; by intros [? ?]). done.
    + rewrite (lookup_insert_ne m') by done.
      destruct (bool_decide (is_Some (r !! i)) && negb (bool_decide (i ∈ ["id"; "created_at"]))).
      * rewrite lookup_insert_ne by done. apply IH.
      * apply IH.
Qed.

(** The constructor reads the ten field keys and no other. *)
Lemma Trip_init_ext (kw kw' : gmap string PyValue) :
  (∀ key, key ∈ Trip_fields → kw !! key = kw' !! key) →
  Trip_init kw = Trip_init kw'.
Proof.
  intros Hkw. unfold Trip_init.
  rewrite !(Hkw "id"), !(Hkw "destination"), !(Hkw "country"),
    !(Hkw "travel_agency"), !(Hkw "duration_days"), !(Hkw "price"),
    !(Hkw "rating"), !(Hkw "group_size"), !(Hkw "created_at"),
    !(Hkw "updated_at"); [done|unfold Trip_fields; set_solver..].
Qed.

Lemma optional_str_py (o : option string) :
  optional_str (Some (py_optional_str o)) = Some o.
Proof. destruct o as [s|]; simpl; [by rewrite str_validator_str | done]. Qed.

(** A record's own dictionary builds the record back. *)
Lemma Trip_init_dict (t : Trip) : Trip_init (Trip_dict t) = Some t.
Proof.
  unfold Trip_init.
  change (Trip_dict t !! "id") with (Some (py_optional_str (id t))).
  change (Trip_dict t !! "destination") with (Some (PyStr (destination t))).
  change (Trip_dict t !! "country") with (Some (PyStr (country t))).
  change (Trip_dict t !! "travel_agency") with (Some (PyStr (travel_agency t))).
  change (Trip_dict t !! "duration_days") with (Some (PyInt (duration_days t))).
  change (Trip_dict t !! "price") with (Some (PyFloat (price t))).
  change (Trip_dict t !! "rating") with (Some (PyFloat (rating t))).
  change (Trip_dict t !! "group_size") with (Some (PyInt (group_size t))).
  change (Trip_dict t !! "created_at") with (Some (py_optional_str (created_at t))).
  change (Trip_dict t !! "updated_at") with (Some (py_optional_str (updated_at t))).
  rewrite !optional_str_py. simpl.
  rewrite !str_validator_str, !int_validator_int, !float_validator_float. simpl.
  by destruct t.
Qed.

End Patch.

(** ** PATCH: the merge *)

Section PatchSpec.
Context `{Pydantic}.

Lemma patch_kwargs_data cur m now key old :
  key ∉ ["id"; "created_at"; "updated_at"] →
  Trip_dict cur !! key = Some old →
  patch_kwargs cur m now !! key = Some (default old (m !! key)).
Proof.
  intros Hk Hold. unfold patch_kwargs.
  rewrite !not_elem_of_cons in Hk. destruct Hk as (Hid & Hca & Hua & _).
  rewrite lookup_insert_ne by done.
  rewrite patch_loop_lookup, Hold.
  rewrite bool_decide_false; [done|].
  rewrite !elem_of_cons, elem_of_nil. tauto.
Qed.

Lemma patch_kwargs_id cur m now :
  patch_kwargs cur m now !! "id" = Some (py_optional_str (id cur)).
Proof. unfold patch_kwargs. rewrite lookup_insert_ne by done. by rewrite patch_loop_lookup. Qed.

Lemma patch_kwargs_created_at cur m now :
  patch_kwargs cur m now !! "created_at" = Some (py_optional_str (created_at cur)).
Proof. unfold patch_kwargs. rewrite lookup_insert_ne by done. by rewrite patch_loop_lookup. Qed.

Lemma patch_kwargs_updated_at cur m now :
  patch_kwargs cur m now !! "updated_at" = Some (PyStr now).
Proof. unfold patch_kwargs. by rewrite lookup_insert_eq. Qed.

Lemma required_patched {A : Type} (validator : PyValue → option A)
    (wrap : A → PyValue) (old new : A) (given : option PyValue) :
  validator (wrap old) = Some old →
  patched validator old given new →
  required validator (Some (default (wrap old) given)) = Some new.
Proof. intros Hold Hp. destruct given as [v|]; simpl in *; congruence. Qed.

Lemma required_refused {A : Type} (validator : PyValue → option A)
    (old v : PyValue) (given : option PyValue) :
  given = Some v → validator v = None →
  required validator (Some (default old given)) = None.
Proof. by intros -> ?. Qed.

(** What [patch_trip] does once the record is found. *)
Lemma patch_trip_found db trip_id k cur m e :
  first_with_id db trip_id k cur →
  patch_trip trip_id m e db =
    match Trip_init (patch_kwargs cur m (get_current_time e)) with
    | None => (inl ValidationError, db)
    | Some updated_trip => (inr updated_trip, <[k := updated_trip]> db)
    end.
Proof.
  intros Hf. unfold patch_trip, mbind, M_bind, read_db. cbv beta iota.
  rewrite (find_trip_index_first _ _ _ _ Hf).
  destruct (Z.eqb_spec (Z.of_nat k) (-1)) as [|_]; [lia|].
  destruct Hf as (Hk & _).
  rewrite (db_getitem_lookup _ _ _ Hk).
  fold (patch_kwargs cur m (get_current_time e)).
  destruct (Trip_init _) as [t|]; [|done].
  by rewrite (db_setitem_lookup _ _ _ _ Hk).
Qed.

Lemma patch_trip_absent db trip_id m e :
  absent db trip_id →
  patch_trip trip_id m e db = (inl (not_found trip_id), db).
Proof.
  intros Ha. unfold patch_trip, mbind, M_bind, read_db. cbv beta iota.
  by rewrite (find_trip_index_absent _ _ Ha).
Qed.

Lemma Trip_init_patch_kwargs cur m now d c a n p r g :
  patched str_validator (destination cur) (m !! "destination") d →
  patched str_validator (country cur) (m !! "country") c →
  patched str_validator (travel_agency cur) (m !! "travel_agency") a →
  patched int_validator (duration_days cur) (m !! "duration_days") n →
  patched float_validator (price cur) (m !! "price") p →
  patched float_validator (rating cur) (m !! "rating") r →
  patched int_validator (group_size cur) (m !! "group_size") g →
  Trip_init (patch_kwargs cur m now) =
    Some (mkTrip (id cur) d c a n p r g (created_at cur) (Some now)).
Proof.
  intros Hd Hc Ha Hn Hp Hr Hg. unfold Trip_init.
  rewrite patch_kwargs_id, patch_kwargs_created_at, patch_kwargs_updated_at.
  rewrite (patch_kwargs_data cur m now "destination" (PyStr (destination cur)))
    by (done || by compute_done).
  rewrite (patch_kwargs_data cur m now "country" (PyStr (country cur)))
    by (done || by compute_done).
  rewrite (patch_kwargs_data cur m now "travel_agency" (PyStr (travel_agency cur)))
    by (done || by compute_done).
  rewrite (patch_kwargs_data cur m now "duration_days" (PyInt (duration_days cur)))
    by (done || by compute_done).
  rewrite (patch_kwargs_data cur m now "price" (PyFloat (price cur)))
    by (done || by compute_done).
  rewrite (patch_kwargs_data cur m now "rating" (PyFloat (rating cur)))
    by (done || by compute_done).
  rewrite (patch_kwargs_data cur m now "group_size" (PyInt (group_size cur)))
    by (done || by compute_done).
  rewrite !optional_str_py.
  rewrite (required_patched str_validator PyStr (destination cur) d (m !! "destination")) by (done || apply str_validator_str).
  rewrite (required_patched str_validator PyStr (country cur) c (m !! "country")) by (done || apply str_validator_str).
  rewrite (required_patched str_validator PyStr (travel_agency cur) a (m !! "travel_agency")) by (done || apply str_validator_str).
  rewrite (required_patched int_validator PyInt (duration_days cur) n (m !! "duration_days")) by (done || apply int_validator_int).
  rewrite (required_patched float_validator PyFloat (price cur) p (m !! "price")) by (done || apply float_validator_float).
  rewrite (required_patched float_validator PyFloat (rating cur) r (m !! "rating")) by (done || apply float_validator_float).
  rewrite (required_patched int_validator PyInt (group_size cur) g (m !! "group_size")) by (done || apply int_validator_int).
  simpl. by rewrite str_validator_str.
Qed.

End PatchSpec.

(** ** Sample data for the evaluated examples *)

Lemma sample_first_a : first_with_id sample_db "a" 0 paris.
Proof. repeat split; [reflexivity..|]. intros; lia. Qed.

Lemma sample_absent_search : absent sample_db "search".
Proof.
  intros t Ht Hid. unfold sample_db in Ht.
  repeat (apply elem_of_cons in Ht as [->|Ht]; [discriminate Hid|]).
  by apply elem_of_nil in Ht.
Qed.

(** ** PUT and PATCH *)

Section UpdateSpec.
Context `{Pydantic}.

Lemma update_trip_found db trip_id k original updated_trip e :
  first_with_id db trip_id k original →
  let new := mkTrip (Some trip_id) (destination updated_trip)
               (country updated_trip) (travel_agency updated_trip)
               (duration_days updated_trip) (price updated_trip)
               (rating updated_trip) (group_size updated_trip)
               (created_at original) (Some (get_current_time e)) in
  update_trip trip_id updated_trip e db = (inr new, <[k := new]> db).
Proof.
  intros Hf new. unfold update_trip, mbind, M_bind, read_db. cbv beta iota.
  rewrite (find_trip_index_first _ _ _ _ Hf).
  destruct (Z.eqb_spec (Z.of_nat k) (-1)) as [|_]; [lia|].
  destruct Hf as (Hk & _).
  rewrite (db_getitem_lookup _ _ _ Hk).
  by rewrite (db_setitem_lookup _ _ _ _ Hk).
Qed.

Lemma update_trip_absent db trip_id updated_trip e :
  absent db trip_id →
  update_trip trip_id updated_trip e db = (inl (not_found trip_id), db).
Proof.
  intros Ha. unfold update_trip, mbind, M_bind, read_db. cbv beta iota.
  by rewrite (find_trip_index_absent _ _ Ha).
Qed.

(** C2. [update_trip] on a stored id keeps the id and [created_at] of the
    stored record, sets [updated_at] to the clock reading, takes the seven
    data fields from the supplied record alone, and writes the result at the
    position of the stored record: that position now holds the new record,
    the list keeps its length and every other position its record.  On an id
    that no record has it raises the 404 exception and leaves the list as it
    was. *)
Theorem update_trip_replaces (db : list Trip) (trip_id : string)
    (updated_trip : Trip) (e : env) :
  (absent db trip_id →
   update_trip trip_id updated_trip e db = (inl (not_found trip_id), db)) ∧
  (∀ k original,
     first_with_id db trip_id k original →
     let new := mkTrip (Some trip_id) (destination updated_trip)
                  (country updated_trip) (travel_agency updated_trip)
                  (duration_days updated_trip) (price updated_trip)
                  (rating updated_trip) (group_size updated_trip)
                  (created_at original) (Some (get_current_time e)) in
     update_trip trip_id updated_trip e db = (inr new, <[k := new]> db) ∧
     id new = id original ∧
     created_at new = created_at original ∧
     <[k := new]> db !! k = Some new ∧
     length (<[k := new]> db) = length db ∧
     ∀ j, j ≠ k → <[k := new]> db !! j = db !! j).
Proof.
  split; [apply update_trip_absent|].
  intros k original Hf new. split; [by apply update_trip_found|].
  destruct Hf as (Hk & Hid & _). repeat split.
  - by rewrite Hid.
  - apply list_lookup_insert_eq. by eapply lookup_lt_Some.
  - apply length_insert.
  - intros j Hj. by apply list_lookup_insert_ne.
Qed.

(** C1 (amended). For a stored id, and a mapping whose values for the seven
    data fields are each accepted by the field's validator, [patch_trip]
    overwrites every data field the mapping names with the validated value,
    keeps every data field it does not name, keeps [id] and [created_at],
    sets [updated_at] to the clock reading (also for the empty mapping),
    writes the merged record at the position of the stored one and returns
    it.  A key that names no field changes nothing.  On an id that no record
    has it raises the 404 exception. *)
Theorem patch_trip_merges (db : list Trip) (trip_id : string)
    (m : gmap string PyValue) (e : env) :
  (absent db trip_id →
   patch_trip trip_id m e db = (inl (not_found trip_id), db)) ∧
  (∀ k cur d c a n p r g,
     first_with_id db trip_id k cur →
     patched str_validator (destination cur) (m !! "destination") d →
     patched str_validator (country cur) (m !! "country") c →
     patched str_validator (travel_agency cur) (m !! "travel_agency") a →
     patched int_validator (duration_days cur) (m !! "duration_days") n →
     patched float_validator (price cur) (m !! "price") p →
     patched float_validator (rating cur) (m !! "rating") r →
     patched int_validator (group_size cur) (m !! "group_size") g →
     let merged := mkTrip (id cur) d c a n p r g (created_at cur)
                     (Some (get_current_time e)) in
     patch_trip trip_id m e db = (inr merged, <[k := merged]> db)) ∧
  (∀ key v,
     key ∉ Trip_fields →
     patch_trip trip_id (<[key := v]> m) e db = patch_trip trip_id m e db).
Proof.
  split; [apply patch_trip_absent|]. split.
  - intros k cur d c a n p r g Hf Hd Hc Ha Hn Hp Hr Hg merged.
    rewrite (patch_trip_found _ _ _ _ _ _ Hf).
    by rewrite (Trip_init_patch_kwargs _ _ _ d c a n p r g).
  - intros key v Hkey.
    destruct (find_trip_index_cases db trip_id) as [[Ha _]|(k & cur & Hf & _)].
    + by rewrite !patch_trip_absent.
    + rewrite !(patch_trip_found _ _ _ _ _ _ Hf).
      rewrite (Trip_init_ext (patch_kwargs cur (<[key:=v]> m) (get_current_time e))
                 (patch_kwargs cur m (get_current_time e))); [done|].
      intros f Hf'. unfold patch_kwargs.
      destruct (decide ("updated_at" = f)) as [<-|Hne].
      * by rewrite !lookup_insert_eq.
      * rewrite !(lookup_insert_ne _ "updated_at") by done.
        rewrite !patch_loop_lookup.
        rewrite (lookup_insert_ne m) by (by intros ->). done.
Qed.

(** C10 (amended). For a stored id, a mapping that gives one of the seven
    data fields a value its validator refuses makes [patch_trip] raise the
    model's validation error, which is neither the 404 exception nor the
    validation error of a request; the list, and with it the stored record
    and its [updated_at], is as before. *)
Theorem patch_trip_refused (db : list Trip) (trip_id : string) (k : nat)
    (cur : Trip) (m : gmap string PyValue) (e : env) :
  first_with_id db trip_id k cur →
  refused m →
  patch_trip trip_id m e db = (inl ValidationError, db) ∧
  db !! k = Some cur ∧
  ValidationError ≠ not_found trip_id ∧
  ValidationError ≠ RequestValidationError.
Proof.
  intros Hf Hm. rewrite (patch_trip_found _ _ _ _ _ _ Hf).
  split; [|by destruct Hf].
  assert (Trip_init (patch_kwargs cur m (get_current_time e)) = None) as ->; [|done].
  set (now := get_current_time e). unfold Trip_init.
  rewrite patch_kwargs_id, patch_kwargs_created_at, patch_kwargs_updated_at.
  rewrite (patch_kwargs_data cur m now "destination" (PyStr (destination cur)))
    by (done || by compute_done).
  rewrite (patch_kwargs_data cur m now "country" (PyStr (country cur)))
    by (done || by compute_done).
  rewrite (patch_kwargs_data cur m now "travel_agency" (PyStr (travel_agency cur)))
    by (done || by compute_done).
  rewrite (patch_kwargs_data cur m now "duration_days" (PyInt (duration_days cur)))
    by (done || by compute_done).
  rewrite (patch_kwargs_data cur m now "price" (PyFloat (price cur)))
    by (done || by compute_done).
  rewrite (patch_kwargs_data cur m now "rating" (PyFloat (rating cur)))
    by (done || by compute_done).
  rewrite (patch_kwargs_data cur m now "group_size" (PyInt (group_size cur)))
    by (done || by compute_done).
  rewrite !optional_str_py.
  destruct Hm as [(v & Hv & Hr)|[(v & Hv & Hr)|[(v & Hv & Hr)|[(v & Hv & Hr)|
                 [(v & Hv & Hr)|[(v & Hv & Hr)|(v & Hv & Hr)]]]]]];
    rewrite (required_refused _ _ v _ Hv Hr); simpl;
    repeat (match goal with
            | |- mbind _ ?o = None => destruct o; simpl
            end); done.
Qed.

End UpdateSpec.

(** Evaluated instances of the theorems above, on the seed data. *)

Lemma update_trip_replaces_witness :
  update_trip "a" rome sample_env sample_db
    = (inr rome_stored, <[0%nat := rome_stored]> sample_db).
Proof.
  exact (proj1 (proj2 (update_trip_replaces sample_db "a" rome sample_env)
                 0%nat paris sample_first_a)).
Defined.

Lemma patch_trip_merges_witness :
  patch_trip "a" {["price" := PyFloat 99999.0]} sample_env sample_db
    = (inr paris_patched, <[0%nat := paris_patched]> sample_db).
Proof.
  apply (proj1 (proj2 (patch_trip_merges sample_db "a"
                         {["price" := PyFloat 99999.0]} sample_env))
           0%nat paris "Париж" "Франция" "ТурМир" 7 99999.0%float 4.8%float 15);
    [apply sample_first_a | reflexivity..].
Defined.

(** C1, as stated, fails: a mapping that sets [price] to [None] is refused
    when the merged record is validated; no field is overwritten and no
    record is returned. *)
Lemma patch_trip_None_price :
  first_with_id sample_db "a" 0 paris ∧
  patch_trip "a" {["price" := PyNone]} sample_env sample_db
    = (inl ValidationError, sample_db).
Proof. split; [apply sample_first_a | by vm_compute]. Qed.

Lemma patch_trip_refused_witness :
  patch_trip "a" {["duration_days" := PyStr "week"]} sample_env sample_db
    = (inl ValidationError, sample_db) ∧
  sample_db !! 0%nat = Some paris ∧
  ValidationError ≠ not_found "a" ∧
  ValidationError ≠ RequestValidationError.
Proof.
  apply (patch_trip_refused sample_db "a" 0 paris); [apply sample_first_a|].
  do 3 right. left. by exists (PyStr "week").
Defined.

(** C10, as stated, fails for the field [updated_at]: a list cannot be
    converted to a string, yet the patch succeeds, because the key is
    overwritten with the clock reading before the record is validated; the
    stored record changes. *)
Lemma patch_trip_updated_at_list :
  first_with_id sample_db "a" 0 paris ∧
  optional_str (Some (PyList [])) = None ∧
  patch_trip "a" {["updated_at" := PyList []]} sample_env sample_db
    = (inr paris_touched, <[0%nat := paris_touched]> sample_db) ∧
  <[0%nat := paris_touched]> sample_db !! 0%nat ≠ sample_db !! 0%nat.
Proof.
  split; [apply sample_first_a|].
  split; [reflexivity|]. split; [by vm_compute | discriminate].
Qed.

(** ** Strings *)

Lemma append_cons (c : ascii) (s t : string) :
  String.append (String c s) t = String c (String.append s t).
Proof. reflexivity. Qed.

Lemma append_nil (t : string) : String.append "" t = t.
Proof. reflexivity. Qed.

Lemma prefix_app (sub s : string) :
  String.prefix sub s = true ↔ ∃ suf, s = String.append sub suf.
Proof.
  revert s. induction sub as [|c sub IH]; intros s.
  - split; [intros _; by exists s | intros _; by destruct s].
  - destruct s as [|c' s]; simpl.
    + split; [done | by intros [? ?]].
    + destruct (Ascii.ascii_dec c c') as [->|Hne].
      * rewrite IH. split; intros [suf Hs]; exists suf;
          rewrite append_cons in *; congruence.
      * split; [done | intros [suf Hs]; rewrite append_cons in Hs; congruence].
Qed.

(** [str_contains] decides whether [sub] occurs in [s]. *)
Lemma str_contains_spec (sub s : string) :
  str_contains sub s = true ↔
  ∃ pre suf, s = String.append pre (String.append sub suf).
Proof.
  induction s as [|c s IH].
  - change (str_contains sub "") with (String.prefix sub "" || false).
    rewrite orb_false_r, prefix_app. split.
    + intros [suf Hs]. by exists "", suf.
    + intros (pre & suf & Hs). destruct pre; [by exists suf|discriminate].
  - change (str_contains sub (String c s))
      with (String.prefix sub (String c s) || str_contains sub s).
    rewrite orb_true_iff, prefix_app, IH. split.
    + intros [[suf Hs]|(pre & suf & Hs)].
      * by exists "", suf.
      * exists (String c pre), suf. by rewrite append_cons, Hs.
    + intros (pre & suf & Hs). destruct pre as [|c' pre].
      * left. by exists suf.
      * right. exists pre, suf. rewrite append_cons in Hs. congruence.
Qed.

(** ** GET /trips/search *)

Section SearchSpec.
Context `{Python}.

Lemma filter_filter {A : Type} (f g : A → bool) (l : list A) :
  List.filter f (List.filter g l) = List.filter (λ x, g x && f x) l.
Proof.
  induction l as [|x l IH]; [done|]. simpl.
  destruct (g x); simpl; [destruct (f x)|]; by rewrite IH.
Qed.

Lemma filter_optional {A B : Type} (o : option B) (f : B → A → bool)
    (l : list A) :
  match o with Some b => List.filter (f b) l | None => l end
  = List.filter (λ x, match o with Some b => f b x | None => true end) l.
Proof.
  destruct o; [done|]. induction l as [|x l IH]; [done|]. simpl. by rewrite <- IH.
Qed.

Lemma search_trips_keeps destination' country' min_price max_price min_rating db :
  search_trips destination' country' min_price max_price min_rating db
  = (inr (List.filter
            (keeps destination' country' min_price max_price min_rating) db), db).
Proof.
  unfold search_trips, mbind, M_bind, read_db, mret, M_ret. cbv beta iota zeta.
  rewrite (filter_optional (truthy destination')
             (λ d t, str_contains (str_lower d) (str_lower (destination t)))).
  rewrite (filter_optional (truthy country')
             (λ c t, str_contains (str_lower c) (str_lower (country t)))).
  rewrite (filter_optional min_price (λ lo t, PrimFloat.leb lo (price t))).
  rewrite (filter_optional max_price (λ hi t, PrimFloat.leb (price t) hi)).
  rewrite (filter_optional min_rating (λ lo t, PrimFloat.leb lo (rating t))).
  rewrite !filter_filter. f_equal. f_equal. apply List.filter_ext.
  intros t. unfold keeps. by rewrite !andb_assoc.
Qed.

Lemma truthy_ci_substring (o : option string) (hay : string) :
  match truthy o with
  | Some d => str_contains (str_lower d) (str_lower hay)
  | None => true
  end = true ↔ ∀ d, o = Some d → ci_substring d hay.
Proof.
  destruct o as [[|c d]|]; simpl.
  - split; [|done]. intros _ d [= <-]. exists "", (str_lower hay).
    by rewrite str_lower_empty.
  - rewrite str_contains_spec. split.
    + intros Hc d' [= <-]. exact Hc.
    + intros Hc. by apply Hc.
  - split; [|done]. by intros _ d.
Qed.

Lemma optional_bound (o : option float) (f : float → bool) :
  match o with Some x => f x | None => true end = true ↔
  ∀ x, o = Some x → f x = true.
Proof.
  destruct o as [x|]; split; try done.
  - by intros Hx x' [= <-].
  - intros Hx. by apply Hx.
Qed.

Lemma keeps_satisfies destination' country' min_price max_price min_rating t :
  keeps destination' country' min_price max_price min_rating t = true ↔
  satisfies destination' country' min_price max_price min_rating t.
Proof.
  unfold keeps, satisfies. rewrite !andb_true_iff, !truthy_ci_substring.
  rewrite (optional_bound min_price (λ lo, PrimFloat.leb lo (price t))).
  rewrite (optional_bound max_price (λ hi, PrimFloat.leb (price t) hi)).
  rewrite (optional_bound min_rating (λ lo, PrimFloat.leb lo (rating t))).
  tauto.
Qed.

(** C4. [search_trips] returns the records of the list that satisfy every
    supplied filter, each as often and in the order it stands in the list;
    with no filter it returns the whole list.  The list itself is not
    changed. *)
Theorem search_trips_conjunction (destination' country' : option string)
    (min_price max_price min_rating : option float) (db : list Trip) :
  ∃ keep : Trip → bool,
    (∀ t, keep t = true ↔
          satisfies destination' country' min_price max_price min_rating t) ∧
    search_trips destination' country' min_price max_price min_rating db
      = (inr (List.filter keep db), db) ∧
    search_trips None None None None None db = (inr db, db).
Proof.
  exists (keeps destination' country' min_price max_price min_rating).
  split; [intros t; apply keeps_satisfies|].
  split; [apply search_trips_keeps|].
  rewrite search_trips_keeps. f_equal. f_equal.
  induction db as [|x db IH]; [done|]. simpl. by rewrite IH.
Qed.

End SearchSpec.

(** ** Minimum and maximum *)

Section MinMax.
Context {A : Type} (lt : A → A → bool).
Hypothesis lt_irrefl : ∀ x, lt x x = false.
Hypothesis lt_trans : ∀ x y z, lt x y = true → lt y z = true → lt x z = true.

Lemma py_min_from_elem (cur : A) (l : list A) :
  py_min_from lt cur l ∈ cur :: l.
Proof.
  revert cur. induction l as [|x l IH]; intros cur; simpl; [left|].
  specialize (IH (if lt x cur then x else cur)).
  apply elem_of_cons in IH as [->|IH].
  - destruct (lt x cur); [right; left | left].
  - right. by right.
Qed.

(** No element is below the result, given that none of those seen so far is
    below the current candidate. *)
Lemma py_min_from_least (seen : list A) (cur : A) (l : list A) :
  (∀ v, v ∈ seen → lt v cur = false) →
  ∀ v, v ∈ seen ++ l → lt v (py_min_from lt cur l) = false.
Proof.
  revert seen cur. induction l as [|x l IH]; intros seen cur Hseen v Hv; simpl.
  - rewrite app_nil_r in Hv. by apply Hseen.
  - apply (IH (seen ++ [x])); [|by rewrite <- app_assoc].
    intros w [Hw|Hw%list_elem_of_singleton]%elem_of_app.
    + destruct (lt x cur) eqn:Hx; [|by apply Hseen].
      destruct (lt w x) eqn:Hwx; [|done].
      pose proof (lt_trans w x cur Hwx Hx) as Hc. by rewrite (Hseen w Hw) in Hc.
    + subst w. destruct (lt x cur) eqn:Hx; [apply lt_irrefl | done].
Qed.

Lemma py_min_spec (l : list A) :
  l ≠ [] →
  ∃ mn, py_min lt l = inr mn ∧ mn ∈ l ∧ ∀ v, v ∈ l → lt v mn = false.
Proof.
  destruct l as [|x l]; [done|]. intros _. exists (py_min_from lt x l).
  split; [done|]. split; [apply py_min_from_elem|].
  intros v Hv. apply (py_min_from_least [x] x l); [|done].
  intros w ->%list_elem_of_singleton. apply lt_irrefl.
Qed.

End MinMax.

Lemma py_max_spec {A : Type} (lt : A → A → bool) (l : list A) :
  (∀ x, lt x x = false) →
  (∀ x y z, lt x y = true → lt y z = true → lt x z = true) →
  l ≠ [] →
  ∃ mx, py_max lt l = inr mx ∧ mx ∈ l ∧ ∀ v, v ∈ l → lt mx v = false.
Proof.
  intros Hirr Htr Hl. apply (py_min_spec (λ a b, lt b a)); [done| |done].
  intros x y z Hxy Hyz. by apply (Htr z y x).
Qed.

(** ** The order of binary64 numbers *)

Lemma SFltb_irrefl (x : spec_float) : SFltb x x = false.
Proof.
  unfold SFltb, SFcompare.
  destruct x as [s|s| |s m e]; try destruct s; try reflexivity;
    rewrite Z.compare_refl; change (Pos.compare_cont Eq) with Pos.compare;
    by rewrite Pos.compare_refl.
Qed.

Lemma SFltb_trans (x y z : spec_float) :
  SFltb x y = true → SFltb y z = true → SFltb x z = true.
Proof.
  unfold SFltb, SFcompare.
  destruct x as [sx|sx| |sx mx ex], y as [sy|sy| |sy my ey],
           z as [sz|sz| |sz mz ez];
    try destruct sx; try destruct sy; try destruct sz;
    try discriminate; try reflexivity;
    change (Pos.compare_cont Eq) with Pos.compare;
    repeat match goal with
    | |- context [Z.compare ?a ?b] => destruct (Z.compare_spec a b)
    | |- context [Pos.compare ?a ?b] => destruct (Pos.compare_spec a b)
    end; simpl; try discriminate; try reflexivity; intros; subst; lia.
Qed.

(** Without a NaN on either side, [x] not below [y] means [y <= x]. *)
Lemma SFltb_false_SFleb (x y : spec_float) :
  x ≠ S754_nan → y ≠ S754_nan → SFltb x y = false → SFleb y x = true.
Proof.
  unfold SFltb, SFleb, SFcompare.
  destruct x as [sx|sx| |sx mx ex], y as [sy|sy| |sy my ey];
    try destruct sx; try destruct sy;
    try discriminate; try reflexivity; try congruence;
    change (Pos.compare_cont Eq) with Pos.compare;
    intros _ _; rewrite (Z.compare_antisym ey ex), (Pos.compare_antisym my mx);
    destruct (Z.compare ey ex); simpl; try discriminate; try reflexivity;
    destruct (Pos.compare my mx); simpl; try discriminate; reflexivity.
Qed.

Lemma float_ltb_irrefl (x : float) : PrimFloat.ltb x x = false.
Proof. rewrite FloatAxioms.ltb_spec. apply SFltb_irrefl. Qed.

Lemma float_ltb_trans (x y z : float) :
  PrimFloat.ltb x y = true → PrimFloat.ltb y z = true → PrimFloat.ltb x z = true.
Proof. rewrite !FloatAxioms.ltb_spec. apply SFltb_trans. Qed.

Lemma float_ltb_false_leb (x y : float) :
  not_nan x → not_nan y → PrimFloat.ltb x y = false → PrimFloat.leb y x = true.
Proof. rewrite FloatAxioms.ltb_spec, FloatAxioms.leb_spec. apply SFltb_false_SFleb. Qed.

(** ** GET /statistics *)

Lemma sum_int_total (l : list Z) : sum_int l = total l.
Proof.
  unfold sum_int. assert (∀ a, foldl Z.add a l = a + total l) as ->; [|lia].
  induction l as [|x l IH]; intros a; simpl; [lia|]. rewrite IH. lia.
Qed.

Lemma len_nonzero {A : Type} (l : list A) : l ≠ [] → len l ≠ 0.
Proof. destruct l; [done|]. unfold len. simpl. lia. Qed.

Section StatisticsSpec.
Context `{Python}.

Lemma int_statistics_summary (values : list Z) :
  values ≠ [] → Z.abs (total values) < 2 ^ 1023 →
  ∃ s, int_statistics values = inr s ∧ int_summary values s.
Proof.
  intros Hv Hrange. rewrite <- sum_int_total in Hrange.
  destruct (py_min_spec Z.ltb Z.ltb_irrefl
              (λ x y z Hxy Hyz, proj2 (Z.ltb_lt x z)
                 (Z.lt_trans _ _ _ (proj1 (Z.ltb_lt x y) Hxy)
                    (proj1 (Z.ltb_lt y z) Hyz))) values Hv)
    as (mn & Hmn & Hmn_in & Hmn_least).
  destruct (py_max_spec Z.ltb values Z.ltb_irrefl
              (λ x y z Hxy Hyz, proj2 (Z.ltb_lt x z)
                 (Z.lt_trans _ _ _ (proj1 (Z.ltb_lt x y) Hxy)
                    (proj1 (Z.ltb_lt y z) Hyz))) Hv)
    as (mx & Hmx & Hmx_in & Hmx_most).
  destruct (int_truediv_nonzero (sum_int values) (len values)
              (len_nonzero _ Hv) Hrange) as (q & Hq).
  unfold int_statistics. rewrite Hmn, Hmx. simpl. rewrite Hq. simpl.
  eexists. split; [reflexivity|]. exists mn, mx, q. simpl.
  rewrite <- sum_int_total.
  split; [done|]. split; [done|]. split; [done|]. split; [done|].
  split; [|done].
  intros v Hin. specialize (Hmn_least v Hin). specialize (Hmx_most v Hin). lia.
Qed.

Lemma float_statistics_summary (values : list float) :
  values ≠ [] → ∃ s, float_statistics values = inr s ∧ float_summary values s.
Proof.
  intros Hv.
  destruct (py_min_spec PrimFloat.ltb float_ltb_irrefl float_ltb_trans values Hv)
    as (mn & Hmn & Hmn_in & Hmn_least).
  destruct (py_max_spec PrimFloat.ltb values float_ltb_irrefl float_ltb_trans Hv)
    as (mx & Hmx & Hmx_in & Hmx_most).
  destruct (float_truediv_nonzero (sum_float values) (len values)
              (len_nonzero _ Hv)) as (q & Hq).
  unfold float_statistics. rewrite Hmn, Hmx. simpl. rewrite Hq. simpl.
  eexists. split; [reflexivity|]. exists mn, mx, q. simpl.
  split; [done|]. split; [done|]. split; [done|]. split; [done|].
  split; [by intros v Hin; split; [apply Hmn_least | apply Hmx_most]|].
  split; [|done].
  intros Hnan v Hin. split.
  - apply float_ltb_false_leb; [by apply Hnan..|by apply Hmn_least].
  - apply float_ltb_false_leb; [by apply Hnan..|by apply Hmx_most].
Qed.

(** C5 (amended). On an empty list [get_statistics] returns the no-data
    answer with [trip_count = 0] and no entry for any field, and divides
    nothing.  On a non-empty list whose sums of [duration_days] and of
    [group_size] are below [2 ^ 1023] in magnitude it returns the number of
    records and one entry for each of [duration_days], [price], [rating] and
    [group_size]; the entry holds the minimum, the maximum, the sum and the
    count of the field over all records of the list, and the average
    [round(sum / count, 2)]. *)
Theorem get_statistics_summary (db : list Trip) (e : env) :
  (db = [] →
   get_statistics e db
     = (inr (NoData "Нет данных для расчета статистики" 0), db)) ∧
  (db ≠ [] →
   Z.abs (total (duration_days <$> db)) < 2 ^ 1023 →
   Z.abs (total (group_size <$> db)) < 2 ^ 1023 →
   ∃ s_duration_days s_price s_rating s_group_size,
     get_statistics e db
       = (inr (Statistics (len db)
                 [("duration_days", s_duration_days); ("price", s_price);
                  ("rating", s_rating); ("group_size", s_group_size)]
                 (get_current_time e)), db) ∧
     int_summary (duration_days <$> db) s_duration_days ∧
     float_summary (price <$> db) s_price ∧
     float_summary (rating <$> db) s_rating ∧
     int_summary (group_size <$> db) s_group_size).
Proof.
  split; [by intros ->|]. intros Hdb Hdays Hsize.
  assert (∀ {A} (f : Trip → A), f <$> db ≠ []) as Hmap
    by (intros A f; by destruct db).
  destruct (int_statistics_summary _ (Hmap _ duration_days) Hdays)
    as (sd & Hsd & ?).
  destruct (float_statistics_summary _ (Hmap _ price)) as (sp & Hsp & ?).
  destruct (float_statistics_summary _ (Hmap _ rating)) as (sr & Hsr & ?).
  destruct (int_statistics_summary _ (Hmap _ group_size) Hsize)
    as (sg & Hsg & ?).
  exists sd, sp, sr, sg. split; [|done].
  unfold get_statistics, mbind, M_bind, read_db, lift. cbv beta iota.
  destruct db as [|t db']; [done|].
  by rewrite Hsd, Hsp, Hsr, Hsg.
Qed.

End StatisticsSpec.

Lemma get_statistics_summary_witness :
  ∃ s_duration_days s_price s_rating s_group_size,
    get_statistics sample_env sample_db
      = (inr (Statistics (len sample_db)
                [("duration_days", s_duration_days); ("price", s_price);
                 ("rating", s_rating); ("group_size", s_group_size)]
                (get_current_time sample_env)), sample_db) ∧
    int_summary (duration_days <$> sample_db) s_duration_days ∧
    float_summary (price <$> sample_db) s_price ∧
    float_summary (rating <$> sample_db) s_rating ∧
    int_summary (group_size <$> sample_db) s_group_size.
Proof.
  apply (proj2 (get_statistics_summary sample_db sample_env));
    [done | by vm_compute | by vm_compute].
Defined.

(** With one record of [2 ^ 1100] days in the list, the quotient of the sum
    of [duration_days] by the count is beyond binary64: [get_statistics]
    raises [OverflowError] and reports nothing. *)
Lemma get_statistics_overflow :
  [marathon] ≠ [] ∧
  get_statistics sample_env [marathon] = (inl OverflowError, [marathon]).
Proof. split; [done | by vm_compute]. Qed.

(** ** Failure leaves the list as it was *)

Lemma read_only_atomic {A : Type} (m : M A) : read_only m → atomic m.
Proof. intros Hm db err _. apply Hm. Qed.

Lemma total_atomic {A : Type} (m : M A) : total_m m → atomic m.
Proof. intros Hm db err Herr. destruct (Hm db) as (a & db' & Hdb). by rewrite Hdb in Herr. Qed.

Lemma read_only_ret {A : Type} (a : A) : read_only (mret a : M A).
Proof. by intros db. Qed.

Lemma read_only_raise {A : Type} (e : exn) : read_only (raise e : M A).
Proof. by intros db. Qed.

Lemma read_only_lift {A : Type} (r : result A) : read_only (lift r).
Proof. by intros db. Qed.

Lemma read_only_read_db : read_only read_db.
Proof. by intros db. Qed.

Lemma read_only_bind {A B : Type} (m : M A) (f : A → M B) :
  read_only m → (∀ a, read_only (f a)) → read_only (m ≫= f).
Proof.
  intros Hm Hf db. unfold mbind, M_bind. specialize (Hm db).
  destruct (m db) as [[err|a] db']; simpl in *; [done|].
  subst db'. apply Hf.
Qed.

(** A reader in front of an atomic computation. *)
Lemma atomic_bind_read {A B : Type} (m : M A) (f : A → M B) :
  read_only m → (∀ a, atomic (f a)) → atomic (m ≫= f).
Proof.
  intros Hm Hf db err. unfold mbind, M_bind. specialize (Hm db).
  destruct (m db) as [[err'|a] db']; simpl in *; [done|].
  subst db'. apply Hf.
Qed.

(** An atomic computation followed by one that cannot raise. *)
Lemma atomic_bind_total {A B : Type} (m : M A) (f : A → M B) :
  atomic m → (∀ a, total_m (f a)) → atomic (m ≫= f).
Proof.
  intros Hm Hf db err. unfold mbind, M_bind. specialize (Hm db).
  destruct (m db) as [[err'|a] db']; simpl in *; [by eauto|].
  destruct (Hf a db') as (b & db'' & Hb). by rewrite Hb.
Qed.

Lemma total_ret {A : Type} (a : A) : total_m (mret a : M A).
Proof. intros db. by exists a, db. Qed.

Lemma atomic_db_setitem i t : atomic (db_setitem i t).
Proof. intros db err. unfold db_setitem. by destruct (py_index i (length db)). Qed.

Lemma atomic_db_pop i : atomic (db_pop i).
Proof.
  intros db err. unfold db_pop.
  destruct (py_index i (length db)) as [k|]; [|done]. by destruct (db !! k).
Qed.

Lemma read_only_db_getitem i : read_only (db_getitem i).
Proof. intros db. unfold db_getitem. by destruct (py_index i (length db) ≫= _). Qed.

Lemma total_db_append t : total_m (db_append t).
Proof. intros db. by eexists _, _. Qed.

Lemma total_db_clear : total_m db_clear.
Proof. intros db. by eexists _, _. Qed.

Lemma total_bind {A B : Type} (m : M A) (f : A → M B) :
  total_m m → (∀ a, total_m (f a)) → total_m (m ≫= f).
Proof.
  intros Hm Hf db. unfold mbind, M_bind.
  destruct (Hm db) as (a & db' & ->). apply Hf.
Qed.

Section Atomicity.
Context `{Pydantic} `{Python}.

Lemma total_seed rnd i l : total_m (seed rnd i l).
Proof.
  revert i. induction l as [|d l IH]; intros i; simpl; [apply total_ret|].
  apply total_bind; [apply total_db_append | intros _; apply IH].
Qed.

Lemma total_initialize_database rnd : total_m (initialize_database rnd).
Proof. apply total_bind; [apply total_db_clear | intros _; apply total_seed]. Qed.

Lemma read_only_get_all_trips sort_by reverse :
  read_only (get_all_trips sort_by reverse).
Proof.
  apply read_only_bind; [apply read_only_read_db|]. intros l.
  destruct (truthy sort_by); [|apply read_only_ret].
  destruct (list_sort _ _ _ _) as [[]|]; by intros db.
Qed.

Lemma read_only_get_trip trip_id : read_only (get_trip trip_id).
Proof.
  apply read_only_bind; [apply read_only_read_db|]. intros l.
  destruct (find_trip_by_id l trip_id); by intros db.
Qed.

Lemma total_create_trip trip e : total_m (create_trip trip e).
Proof. apply total_bind; [apply total_db_append | intros _; apply total_ret]. Qed.

Lemma atomic_update_trip trip_id updated_trip e :
  atomic (update_trip trip_id updated_trip e).
Proof.
  apply atomic_bind_read; [apply read_only_read_db|]. intros l.
  cbv beta zeta.
  destruct (find_trip_index l trip_id =? -1);
    [apply read_only_atomic, read_only_raise|].
  apply atomic_bind_read; [apply read_only_db_getitem|]. intros original.
  apply atomic_bind_total; [apply atomic_db_setitem | intros _; apply total_ret].
Qed.

Lemma atomic_patch_trip trip_id trip_update e :
  atomic (patch_trip trip_id trip_update e).
Proof.
  apply atomic_bind_read; [apply read_only_read_db|]. intros l.
  cbv beta zeta.
  destruct (find_trip_index l trip_id =? -1);
    [apply read_only_atomic, read_only_raise|].
  apply atomic_bind_read; [apply read_only_db_getitem|]. intros current.
  destruct (Trip_init _); [|apply read_only_atomic, read_only_raise].
  apply atomic_bind_total; [apply atomic_db_setitem | intros _; apply total_ret].
Qed.

Lemma atomic_delete_trip trip_id : atomic (delete_trip trip_id).
Proof.
  apply atomic_bind_read; [apply read_only_read_db|]. intros l.
  cbv beta zeta.
  destruct (find_trip_index l trip_id =? -1);
    [apply read_only_atomic, read_only_raise|].
  apply atomic_bind_total; [apply atomic_db_pop | intros a; apply total_ret].
Qed.

Lemma read_only_get_statistics e : read_only (get_statistics e).
Proof.
  apply read_only_bind; [apply read_only_read_db|]. intros [|t l].
  - apply read_only_ret.
  - repeat (apply read_only_bind; [apply read_only_lift|]; intros ?).
    apply read_only_ret.
Qed.

Lemma read_only_search_trips destination' country' min_price max_price min_rating :
  read_only (search_trips destination' country' min_price max_price min_rating).
Proof. intros db. by rewrite search_trips_keeps. Qed.

Lemma read_only_health_check e : read_only (health_check e).
Proof. apply read_only_bind; [apply read_only_read_db | intros l; apply read_only_ret]. Qed.

Lemma atomic_serve req e : atomic (serve req e).
Proof.
  unfold serve.
  apply atomic_bind_read; [apply read_only_lift|]. intros [ep params].
  destruct ep;
    repeat (apply atomic_bind_read; [apply read_only_lift|]; intros ?).
  - apply read_only_atomic, read_only_ret.
  - apply read_only_atomic, read_only_bind;
      [apply read_only_get_all_trips | intros; apply read_only_ret].
  - apply read_only_atomic, read_only_bind;
      [apply read_only_get_trip | intros; apply read_only_ret].
  - apply total_atomic, total_bind;
      [apply total_create_trip | intros; apply total_ret].
  - apply atomic_bind_total; [apply atomic_update_trip | intros; apply total_ret].
  - apply atomic_bind_total; [apply atomic_patch_trip | intros; apply total_ret].
  - apply atomic_bind_total; [apply atomic_delete_trip|].
    intros [message deleted_trip]. apply total_ret.
  - apply read_only_atomic, read_only_bind;
      [apply read_only_get_statistics | intros; apply read_only_ret].
  - apply read_only_atomic, read_only_bind;
      [apply read_only_search_trips | intros; apply read_only_ret].
  - apply read_only_atomic, read_only_bind;
      [apply read_only_health_check | intros; apply read_only_ret].
Qed.

(** C7. Every operation that raises leaves the list, records and order, as
    it was before the call: the handlers one by one, the seeding, and a whole
    request from routing and validation to the handler's return. *)
Theorem operations_atomic :
  (∀ rnd, atomic (initialize_database rnd)) ∧
  (∀ sort_by reverse, atomic (get_all_trips sort_by reverse)) ∧
  (∀ trip_id, atomic (get_trip trip_id)) ∧
  (∀ trip e, atomic (create_trip trip e)) ∧
  (∀ trip_id updated_trip e, atomic (update_trip trip_id updated_trip e)) ∧
  (∀ trip_id trip_update e, atomic (patch_trip trip_id trip_update e)) ∧
  (∀ trip_id, atomic (delete_trip trip_id)) ∧
  (∀ destination' country' min_price max_price min_rating,
     atomic (search_trips destination' country' min_price max_price min_rating)) ∧
  (∀ e, atomic (get_statistics e)) ∧
  (∀ req e, atomic (serve req e)).
Proof.
  repeat apply conj; intros.
  - apply total_atomic, total_initialize_database.
  - apply read_only_atomic, read_only_get_all_trips.
  - apply read_only_atomic, read_only_get_trip.
  - apply total_atomic, total_create_trip.
  - apply atomic_update_trip.
  - apply atomic_patch_trip.
  - apply atomic_delete_trip.
  - apply read_only_atomic, read_only_search_trips.
  - apply read_only_atomic, read_only_get_statistics.
  - apply atomic_serve.
Qed.

End Atomicity.

(** ** Routing of GET /trips/search *)

Lemma route_trips_search :
  find_route routes GET ["trips"; "search"] false
    = inr (ep_get_trip, {["trip_id" := "search"]}).
Proof. by vm_compute. Qed.

Lemma find_route_cons_inr r rs m path partial ep params :
  find_route (r :: rs) m path partial = inr (ep, params) →
  (match_path (r_path r) path = Some params ∧ r_method r = m ∧
   r_endpoint r = ep) ∨
  ((match_path (r_path r) path = None ∨ r_method r ≠ m) ∧
   ∃ partial', find_route rs m path partial' = inr (ep, params)).
Proof.
  simpl. destruct (match_path (r_path r) path) as [ps|]; [|by eauto].
  case_bool_decide as Hm; [|by eauto].
  intros [= <- <-]. by left.
Qed.

Lemma match_path_Lit s pattern path params :
  match_path (Lit s :: pattern) path = Some params →
  ∃ path', path = s :: path' ∧ match_path pattern path' = Some params.
Proof.
  destruct path as [|x path']; [done|].
  change (match_path (Lit s :: pattern) (x :: path'))
    with (if String.eqb s x then match_path pattern path' else None).
  destruct (String.eqb_spec s x) as [<-|]; [by eauto | done].
Qed.

Lemma match_path_search path params :
  match_path [Lit "trips"; Lit "search"] path = Some params →
  path = ["trips"; "search"].
Proof.
  intros (p1 & -> & (p2 & -> & Hp)%match_path_Lit)%match_path_Lit.
  by destruct p2.
Qed.

(** No request reaches [search_trips]: the route of [get_trip], registered
    before it, takes every path the search route matches. *)
Lemma search_trips_unreachable m path params :
  find_route routes m path false ≠ inr (ep_search_trips, params).
Proof.
  intros Hr. unfold routes in Hr.
  apply find_route_cons_inr in Hr as [(_ & _ & [=])|(_ & p1 & Hr)].
  apply find_route_cons_inr in Hr as [(_ & _ & [=])|(_ & p2 & Hr)].
  apply find_route_cons_inr in Hr as [(_ & _ & [=])|(Hshadow & p3 & Hr)].
  apply find_route_cons_inr in Hr as [(_ & _ & [=])|(_ & p4 & Hr)].
  apply find_route_cons_inr in Hr as [(_ & _ & [=])|(_ & p5 & Hr)].
  apply find_route_cons_inr in Hr as [(_ & _ & [=])|(_ & p6 & Hr)].
  apply find_route_cons_inr in Hr as [(_ & _ & [=])|(_ & p7 & Hr)].
  apply find_route_cons_inr in Hr as [(_ & _ & [=])|(_ & p8 & Hr)].
  apply find_route_cons_inr in Hr as [(Hpath & Hm & _)|(_ & p9 & Hr)].
  - apply match_path_search in Hpath as ->. simpl in *.
    destruct Hshadow as [Hnone|Hne]; [by vm_compute in Hnone | done].
  - apply find_route_cons_inr in Hr as [(_ & _ & [=])|(_ & p10 & Hr)].
    by destruct p10.
Qed.

Section Routing.
Context `{Pydantic} `{Python}.

(** C8 (what the code does instead). A GET request to /trips/search, with
    any query parameters, is routed to [get_trip] with [trip_id = "search"];
    when no record has that id, which is so for every id the service issues,
    the request raises the 404 exception and returns no list of trips. *)
Theorem get_trips_search_not_found (query : gmap string string)
    (json : option PyValue) (e : env) (db : list Trip) :
  absent db "search" →
  serve (mkRequest GET ["trips"; "search"] query json) e db
    = (inl (not_found "search"), db).
Proof.
  intros Ha. unfold serve. unfold mbind at 1. unfold M_bind, lift. simpl req_method.
  simpl req_path. rewrite route_trips_search.
  change (path_param {["trip_id" := "search"]} "trip_id") with "search".
  unfold get_trip, mbind, M_bind, read_db. cbv beta iota.
  by rewrite (find_trip_by_id_absent _ _ Ha).
Qed.

Lemma getattr_dict (x : Trip) : getattr x "dict" = inr (AttrMethod "dict").
Proof.
  unfold getattr. change (field_value x "dict") with (@None attr).
  by rewrite model_method_dict.
Qed.

(** A name that is no field can still name an attribute.  With
    [sort_by = "dict"], the name of a method, and at least two records in the
    list, [get_all_trips] raises [TypeError]: [getattr] succeeds, so no
    [AttributeError] is caught, and the bound methods cannot be ordered. *)
Lemma get_all_trips_sort_by_method (reverse : bool) (db : list Trip) :
  (2 ≤ length db)%nat →
  get_all_trips (Some "dict") reverse db = (inl TypeError, db).
Proof.
  intros Hlen.
  assert (list_sort (λ x, getattr x "dict") attr_lt reverse db = inl TypeError)
    as Hraise; [|unfold get_all_trips, mbind, M_bind, read_db, truthy;
                 cbv beta iota; by rewrite Hraise].
  unfold list_sort.
  assert (keyed (λ x, getattr x "dict") db
          = inr ((λ x, (AttrMethod "dict", x)) <$> db)) as ->.
  { clear Hlen. induction db as [|x db IH]; [done|].
    change (keyed (λ x, getattr x "dict") (x :: db))
      with (getattr x "dict" ≫= (λ k,
            keyed (λ x, getattr x "dict") db ≫= (λ kl, inr ((k, x) :: kl)))).
    by rewrite getattr_dict, IH. }
  simpl.
  assert (∀ l : list (attr * Trip),
            Forall (λ p, fst p = AttrMethod "dict") l → (2 ≤ length l)%nat →
            insertion_sort attr_lt l = inl TypeError) as Hsort.
  { induction l as [|x [|y l] IH]; intros Hall Hl; simpl in Hl; [lia..|].
    apply Forall_cons in Hall as [Hx Hall].
    destruct l as [|z l].
    - apply Forall_cons in Hall as [Hy _].
      simpl. by rewrite Hx, Hy.
    - change (insertion_sort attr_lt (x :: y :: z :: l))
        with (insertion_sort attr_lt (y :: z :: l) ≫= insert_sorted attr_lt x).
      rewrite IH; [done | done | simpl; lia]. }
  rewrite Hsort; [done | |].
  - destruct reverse; [apply Forall_rev|]; by apply Forall_fmap, Forall_true.
  - destruct reverse; by rewrite ?length_rev, length_fmap.
Qed.

End Routing.

Lemma get_trips_search_not_found_witness :
  serve (mkRequest GET ["trips"; "search"] {["min_price" := "150000"]} None)
    sample_env sample_db
  = (inl (not_found "search"), sample_db).
Proof. apply get_trips_search_not_found, sample_absent_search. Defined.

Lemma get_all_trips_sort_by_method_witness :
  get_all_trips (Some "dict") false sample_db = (inl TypeError, sample_db).
Proof. apply get_all_trips_sort_by_method. simpl. lia. Defined.

(** ** POST /trips *)

Lemma create_trip_created trip e db :
  create_trip trip e db = (inr (created trip e), db ++ [created trip e]).
Proof. reflexivity. Qed.

Lemma created_same_data t1 t2 e : same_data t1 t2 → created t1 e = created t2 e.
Proof.
  intros (Hd & Hc & Ha & Hn & Hp & Hr & Hg). unfold created. congruence.
Qed.

Lemma route_post_trips :
  find_route routes POST ["trips"] false = inr (ep_create_trip, ∅).
Proof. by vm_compute. Qed.

Section CreateSpec.
Context `{Pydantic} `{Python}.

Lemma Trip_init_same_data kw1 kw2 t1 t2 :
  (∀ key, key ∉ ["id"; "created_at"; "updated_at"] → kw1 !! key = kw2 !! key) →
  Trip_init kw1 = Some t1 → Trip_init kw2 = Some t2 → same_data t1 t2.
Proof.
  intros Hkw H1 H2. unfold Trip_init in H1, H2.
  rewrite <- !(Hkw "destination"), <- !(Hkw "country"),
    <- !(Hkw "travel_agency"), <- !(Hkw "duration_days"), <- !(Hkw "price"),
    <- !(Hkw "rating"), <- !(Hkw "group_size") in H2 by (by compute_done).
  repeat match type of H1 with
         | mbind _ ?o = Some _ => destruct o; simpl in H1, H2; [|discriminate]
         end.
  repeat match type of H2 with
         | mbind _ ?o = Some _ => destruct o; simpl in H2; [|discriminate]
         end.
  injection H1 as <-. injection H2 as <-. by repeat split.
Qed.

Lemma serve_create q d trip e db :
  Trip_init (kwargs d) = Some trip →
  serve (mkRequest POST ["trips"] q (Some (PyDict d))) e db
    = (inr (mkResponse 201 (RTrip (created trip e))), db ++ [created trip e]).
Proof.
  intros Hinit. unfold serve. unfold mbind at 1. unfold M_bind, lift.
  simpl req_method. simpl req_path. rewrite route_post_trips.
  unfold body_Trip. simpl req_json. cbv beta iota. rewrite Hinit.
  unfold mbind, M_bind. by rewrite create_trip_created.
Qed.

Lemma serve_create_refused q d e db :
  Trip_init (kwargs d) = None →
  serve (mkRequest POST ["trips"] q (Some (PyDict d))) e db
    = (inl RequestValidationError, db).
Proof.
  intros Hinit. unfold serve. unfold mbind at 1. unfold M_bind, lift.
  simpl req_method. simpl req_path. rewrite route_post_trips.
  unfold body_Trip. simpl req_json. cbv beta iota. by rewrite Hinit.
Qed.

Lemma Trip_init_id_list kw l :
  kw !! "id" = Some (PyList l) → Trip_init kw = None.
Proof.
  intros Hid. unfold Trip_init. rewrite Hid.
  change (optional_str (Some (PyList l)))
    with (Some <$> str_validator (PyList l)).
  by rewrite str_validator_list.
Qed.

(** C9 (amended). The record [create_trip] stores and returns is the same
    for two bodies with the same seven data fields, whatever their [id],
    [created_at] and [updated_at] are, given the same generated identifier
    and the same clock reading: its [id] is the generated identifier, both
    its timestamps are the clock reading, and its data fields are the
    body's.  So for two create requests whose JSON bodies agree on every key
    other than these three and both pass validation: both answer 201 with
    the same record and append it to the list.  A body that fails
    validation is refused with the validation error of the request and
    nothing is stored; a body whose [id] is a list is such a body, whatever
    its other keys are. *)
Theorem create_trip_ignores_client_fields (e : env) (db : list Trip) :
  (∀ t1 t2,
     same_data t1 t2 →
     create_trip t1 e db = create_trip t2 e db ∧
     ∃ t, create_trip t1 e db = (inr t, db ++ [t]) ∧
          id t = Some (uuid4 e) ∧
          created_at t = Some (get_current_time e) ∧
          updated_at t = Some (get_current_time e) ∧
          same_data t t1) ∧
  (∀ d1 d2 q1 q2,
     (∀ key, key ∉ ["id"; "created_at"; "updated_at"] →
             kwargs d1 !! key = kwargs d2 !! key) →
     is_Some (Trip_init (kwargs d1)) →
     is_Some (Trip_init (kwargs d2)) →
     ∃ t,
       serve (mkRequest POST ["trips"] q1 (Some (PyDict d1))) e db
         = (inr (mkResponse 201 (RTrip t)), db ++ [t]) ∧
       serve (mkRequest POST ["trips"] q2 (Some (PyDict d2))) e db
         = (inr (mkResponse 201 (RTrip t)), db ++ [t]) ∧
       id t = Some (uuid4 e) ∧
       created_at t = Some (get_current_time e) ∧
       updated_at t = Some (get_current_time e)) ∧
  (∀ d q,
     Trip_init (kwargs d) = None →
     serve (mkRequest POST ["trips"] q (Some (PyDict d))) e db
       = (inl RequestValidationError, db)) ∧
  (∀ d q l,
     kwargs d !! "id" = Some (PyList l) →
     serve (mkRequest POST ["trips"] q (Some (PyDict d))) e db
       = (inl RequestValidationError, db)).
Proof.
  repeat apply conj.
  - intros t1 t2 Hdata. rewrite !create_trip_created.
    rewrite (created_same_data t1 t2 e Hdata). split; [done|].
    exists (created t2 e). repeat apply conj; try reflexivity;
      symmetry; apply Hdata.
  - intros d1 d2 q1 q2 Hkw [t1 H1] [t2 H2]. exists (created t1 e).
    rewrite (serve_create _ _ _ _ _ H1), (serve_create _ _ _ _ _ H2).
    by rewrite (created_same_data t1 t2 e
                  (Trip_init_same_data _ _ _ _ Hkw H1 H2)).
  - intros d q. apply serve_create_refused.
  - intros d q l Hid. by eapply serve_create_refused, Trip_init_id_list.
Qed.

End CreateSpec.

(** A key of a JSON object does not disturb the other keys. *)
Lemma kwargs_cons_ne (key k : string) (v : PyValue) (d : list (string * PyValue)) :
  key ≠ k → kwargs ((k, v) :: d) !! key = kwargs d !! key.
Proof.
  intros Hne. unfold kwargs. simpl rev. rewrite list_to_map_app.
  apply lookup_union_l. simpl. by rewrite lookup_insert_ne.
Qed.

Lemma create_trip_ignores_client_fields_witness :
  ∃ t,
    serve (mkRequest POST ["trips"] ∅ (Some (PyDict rome_body_with_ids)))
        sample_env sample_db
      = (inr (mkResponse 201 (RTrip t)), sample_db ++ [t]) ∧
    serve (mkRequest POST ["trips"] ∅ (Some (PyDict rome_body)))
        sample_env sample_db
      = (inr (mkResponse 201 (RTrip t)), sample_db ++ [t]) ∧
    id t = Some "z" ∧
    created_at t = Some "2024-06-01T12:00:00" ∧
    updated_at t = Some "2024-06-01T12:00:00".
Proof.
  apply (proj1 (proj2 (create_trip_ignores_client_fields sample_env sample_db))
           rome_body_with_ids rome_body).
  - intros key Hkey. rewrite !not_elem_of_cons in Hkey.
    destruct Hkey as (Hid & Hca & Hua & _).
    unfold rome_body_with_ids. by rewrite !kwargs_cons_ne.
  - by eexists.
  - by eexists.
Defined.

(** C9, as stated, fails: of two create requests whose bodies differ only in
    [id], the one without an [id] stores and returns a record, the one whose
    [id] is a list is refused and stores nothing. *)
Lemma create_trip_id_list_refused :
  (∀ key, key ∉ ["id"; "created_at"; "updated_at"] →
          kwargs rome_body_id_list !! key = kwargs rome_body !! key) ∧
  serve (mkRequest POST ["trips"] ∅ (Some (PyDict rome_body)))
      sample_env sample_db
    = (inr (mkResponse 201 (RTrip (created rome sample_env))),
       sample_db ++ [created rome sample_env]) ∧
  serve (mkRequest POST ["trips"] ∅ (Some (PyDict rome_body_id_list)))
      sample_env sample_db
    = (inl RequestValidationError, sample_db).
Proof.
  split; [|by vm_compute].
  intros key Hkey. rewrite !not_elem_of_cons in Hkey.
  destruct Hkey as (Hid & _). unfold rome_body_id_list.
  by rewrite kwargs_cons_ne.
Qed.

(** ** The order of timestamps *)

Lemma string_compare_refl (a : string) : String.compare a a = Eq.
Proof.
  induction a as [|c a IH]; [done|]. simpl.
  unfold Ascii.compare. by rewrite N.compare_refl.
Qed.

Lemma string_compare_lt_trans (a b c : string) :
  String.compare a b = Lt → String.compare b c = Lt → String.compare a c = Lt.
Proof.
  revert b c. induction a as [|x a IH]; intros [|y b] [|z c]; simpl; try done.
  destruct (Ascii.compare x y) eqn:Hxy; [|clear IH|done].
  - apply Ascii.compare_eq_iff in Hxy as ->.
    destruct (Ascii.compare y z); [apply IH|done..].
  - destruct (Ascii.compare y z) eqn:Hyz; [| |done].
    + apply Ascii.compare_eq_iff in Hyz as <-. by rewrite Hxy.
    + unfold Ascii.compare in *. rewrite N.compare_lt_iff in Hxy, Hyz.
      assert ((N_of_ascii x ?= N_of_ascii z)%N = Lt) as ->; [|done].
      apply N.compare_lt_iff. lia.
Qed.

Lemma str_le_refl (a : string) : str_le a a.
Proof. unfold str_le, String.leb. by rewrite string_compare_refl. Qed.

Lemma str_le_trans (a b c : string) : str_le a b → str_le b c → str_le a c.
Proof.
  unfold str_le, String.leb.
  destruct (String.compare a b) eqn:Hab; [| |done].
  - by apply String.compare_eq_iff in Hab as ->.
  - destruct (String.compare b c) eqn:Hbc; [| |done].
    + apply String.compare_eq_iff in Hbc as <-. by rewrite Hab.
    + by rewrite (string_compare_lt_trans a b c).
Qed.

#[global] Instance str_le_transitive : Transitive str_le := str_le_trans.

(** ** What one operation does to the list *)

Lemma read_only_effects {A : Type} (e : env) (m : M A) :
  read_only m → effects e m.
Proof. intros Hm db. rewrite Hm. constructor. Qed.

Lemma effects_bind_read {A B : Type} (e : env) (m : M A) (f : A → M B) :
  read_only m → (∀ a, effects e (f a)) → effects e (m ≫= f).
Proof.
  intros Hm Hf db. unfold mbind, M_bind. specialize (Hm db).
  destruct (m db) as [[err|a] db']; simpl in *; subst db'; [constructor|].
  apply Hf.
Qed.

Lemma effects_bind_ret {A B : Type} (e : env) (m : M A) (f : A → M B) :
  effects e m → (∀ a, read_only (f a)) → effects e (m ≫= f).
Proof.
  intros Hm Hf db. unfold mbind, M_bind. specialize (Hm db).
  destruct (m db) as [[err|a] db']; simpl in *; [done|].
  by rewrite Hf.
Qed.

Section Effects.
Context `{Pydantic} `{Python}.

Lemma effects_create_trip trip e : effects e (create_trip trip e).
Proof. intros db. rewrite create_trip_created. by constructor. Qed.

Lemma effects_update_trip trip_id updated_trip e :
  effects e (update_trip trip_id updated_trip e).
Proof.
  intros db.
  destruct (find_trip_index_cases db trip_id) as [[Ha _]|(k & t & Hf & _)].
  - rewrite (update_trip_absent _ _ _ _ Ha). constructor.
  - rewrite (update_trip_found _ _ _ _ _ _ Hf).
    destruct Hf as (Hk & Hid & _). by apply (eff_update _ _ k t).
Qed.

Lemma Trip_init_patch_kwargs_inv cur m now t :
  Trip_init (patch_kwargs cur m now) = Some t →
  id t = id cur ∧ created_at t = created_at cur ∧ updated_at t = Some now.
Proof.
  unfold Trip_init.
  rewrite patch_kwargs_id, patch_kwargs_created_at, patch_kwargs_updated_at.
  rewrite !optional_str_py.
  change (optional_str (Some (PyStr now))) with (Some <$> str_validator (PyStr now)).
  rewrite str_validator_str. simpl. intros Ht.
  repeat match type of Ht with
         | mbind _ ?o = Some _ => destruct o; simpl in Ht; [|discriminate]
         end.
  by injection Ht as <-.
Qed.

Lemma effects_patch_trip trip_id trip_update e :
  effects e (patch_trip trip_id trip_update e).
Proof.
  intros db.
  destruct (find_trip_index_cases db trip_id) as [[Ha _]|(k & t & Hf & _)].
  - rewrite (patch_trip_absent _ _ _ _ Ha). constructor.
  - rewrite (patch_trip_found _ _ _ _ _ _ Hf).
    destruct (Trip_init _) as [t'|] eqn:Hinit; [|constructor].
    apply Trip_init_patch_kwargs_inv in Hinit as (Hid & Hca & Hua).
    destruct Hf as (Hk & _). by apply (eff_update _ _ k t).
Qed.

Lemma effects_delete_trip trip_id e : effects e (delete_trip trip_id).
Proof.
  intros db. unfold delete_trip, mbind, M_bind, read_db. cbv beta iota zeta.
  destruct (find_trip_index_cases db trip_id) as [[_ ->]|(k & t & Hf & ->)].
  - constructor.
  - destruct (Z.eqb_spec (Z.of_nat k) (-1)) as [|_]; [lia|].
    destruct Hf as (Hk & _). rewrite (db_pop_lookup _ _ _ Hk).
    by apply (eff_delete _ _ k t).
Qed.

Lemma effects_serve req e : effects e (serve req e).
Proof.
  unfold serve.
  apply effects_bind_read; [apply read_only_lift|]. intros [ep params].
  destruct ep;
    repeat (apply effects_bind_read; [apply read_only_lift|]; intros ?).
  - apply read_only_effects, read_only_ret.
  - apply read_only_effects, read_only_bind;
      [apply read_only_get_all_trips | intros; apply read_only_ret].
  - apply read_only_effects, read_only_bind;
      [apply read_only_get_trip | intros; apply read_only_ret].
  - apply effects_bind_ret; [apply effects_create_trip | intros; apply read_only_ret].
  - apply effects_bind_ret; [apply effects_update_trip | intros; apply read_only_ret].
  - apply effects_bind_ret; [apply effects_patch_trip | intros; apply read_only_ret].
  - apply effects_bind_ret; [apply effects_delete_trip|].
    intros [message deleted_trip]. apply read_only_ret.
  - apply read_only_effects, read_only_bind;
      [apply read_only_get_statistics | intros; apply read_only_ret].
  - apply read_only_effects, read_only_bind;
      [apply read_only_search_trips | intros; apply read_only_ret].
  - apply read_only_effects, read_only_bind;
      [apply read_only_health_check | intros; apply read_only_ret].
Qed.

End Effects.

(** ** The invariants of the data model *)

Lemma well_stamped_mono us ts us' ts' t :
  well_stamped us ts t → well_stamped (us ++ us') (ts ++ ts') t.
Proof.
  intros (i & c & u & Hi & Hus & Hc & Hu & Hle & Hts).
  exists i, c, u. repeat split; try done; apply elem_of_app; by left.
Qed.

Lemma store_ok_id_issued us ts db x :
  store_ok us ts db → x ∈ id <$> db → ∃ i, x = Some i ∧ i ∈ us.
Proof.
  intros [_ Hall] (t & -> & Ht)%list_elem_of_fmap.
  rewrite Forall_forall in Hall.
  destruct (Hall t Ht) as (i & c & u & Hi & Hus & _). by exists i.
Qed.

(** Records of a list without repeated ids are told apart by their id. *)
Lemma NoDup_id_eq (db : list Trip) (t t' : Trip) :
  NoDup (id <$> db) → t ∈ db → t' ∈ db → id t = id t' → t = t'.
Proof.
  induction db as [|a db IH]; intros Hnd Ht Ht' Hid.
  - by apply elem_of_nil in Ht.
  - rewrite fmap_cons in Hnd. apply NoDup_cons in Hnd as [Ha Hnd].
    apply elem_of_cons in Ht as [->|Ht], Ht' as [->|Ht'].
    + done.
    + destruct Ha. rewrite Hid. by apply list_elem_of_fmap_2.
    + destruct Ha. rewrite <- Hid. by apply list_elem_of_fmap_2.
    + by apply IH.
Qed.

(** One step keeps the invariant, given a fresh identifier and a clock
    reading not before the earlier ones. *)
Lemma effect_store_ok us ts e db db' :
  store_ok us ts db →
  effect e db db' →
  uuid4 e ∉ us →
  (∀ u, u ∈ ts → str_le u (get_current_time e)) →
  store_ok (us ++ [uuid4 e]) (ts ++ [get_current_time e]) db'.
Proof.
  intros Hok Heff Hfresh Hclock. pose proof Hok as [Hnd Hall].
  destruct Heff as [|t Hid Hca Hua|k old new Hk Hid Hca Hua|k old Hk].
  - split; [done|]. eapply Forall_impl; [done|]. intros t. apply well_stamped_mono.
  - split.
    + rewrite fmap_app. apply NoDup_app. split; [done|]. split.
      * intros x Hx ->%list_elem_of_singleton.
        destruct (store_ok_id_issued _ _ _ _ Hok Hx) as (i & Hi & Hus).
        rewrite Hid in Hi. by injection Hi as <-.
      * apply NoDup_singleton.
    + apply Forall_app. split.
      * eapply Forall_impl; [done|]. intros t'. apply well_stamped_mono.
      * apply Forall_singleton.
        exists (uuid4 e), (get_current_time e), (get_current_time e).
        repeat split; try done.
        -- apply elem_of_app. right. by left.
        -- apply str_le_refl.
        -- apply elem_of_app. right. by left.
  - rewrite Forall_forall in Hall.
    destruct (Hall old (list_elem_of_lookup_2 _ _ _ Hk))
      as (i & c & u & Hi & Hus & Hc & Hu & Hle & Hts).
    split.
    + rewrite list_fmap_insert, Hid. rewrite list_insert_id; [done|].
      by rewrite list_lookup_fmap, Hk.
    + apply Forall_insert.
      * apply Forall_forall. intros t' Ht'. by apply well_stamped_mono, Hall.
      * exists i, c, (get_current_time e). repeat split; try congruence.
        -- apply elem_of_app. by left.
        -- eapply str_le_trans; [done|]. by apply Hclock.
        -- apply elem_of_app. right. by left.
  - split.
    + rewrite list_fmap_delete. apply (sublist_NoDup _ (id <$> db)); [done | apply sublist_delete].
    + apply Forall_forall. intros t' Ht'%list_elem_of_delete_inv.
      rewrite Forall_forall in Hall. by apply well_stamped_mono, Hall.
Qed.

(** The ids of a step are those before it and, at most, the new identifier. *)
Lemma effect_ids e db db' x :
  effect e db db' → x ∈ id <$> db' → x ∈ id <$> db ∨ x = Some (uuid4 e).
Proof.
  intros [|t Hid Hca Hua|k old new Hk Hid Hca Hua|k old Hk] Hx.
  - by left.
  - rewrite fmap_app in Hx. apply elem_of_app in Hx as [Hx|Hx]; [by left|].
    right. apply list_elem_of_singleton in Hx. congruence.
  - left. rewrite list_fmap_insert, Hid in Hx. rewrite list_insert_id in Hx; [done|].
    by rewrite list_lookup_fmap, Hk.
  - left. rewrite list_fmap_delete in Hx. by eapply list_elem_of_delete_inv.
Qed.

(** A record after a step either stood in the list before, or is the
    replacement of one with the same id and [created_at], or is new with the
    generated identifier. *)
Lemma effect_record e db db' t' :
  effect e db db' → t' ∈ db' →
  (∃ t, t ∈ db ∧ id t' = id t ∧ created_at t' = created_at t) ∨
  id t' = Some (uuid4 e).
Proof.
  intros [|t Hid Hca Hua|k old new Hk Hid Hca Hua|k old Hk] Ht'.
  - left. by exists t'.
  - apply elem_of_app in Ht' as [Ht'|Ht'].
    + left. by exists t'.
    + apply list_elem_of_singleton in Ht' as ->. by right.
  - left. apply list_elem_of_lookup in Ht' as [j Hj].
    destruct (decide (k = j)) as [<-|Hne].
    + rewrite list_lookup_insert_eq in Hj by (by eapply lookup_lt_Some).
      injection Hj as <-. exists old. split; [|done].
      by eapply list_elem_of_lookup_2.
    + rewrite list_lookup_insert_ne in Hj by done. exists t'.
      split; [|done]. by eapply list_elem_of_lookup_2.
  - left. exists t'. split; [|done]. by eapply list_elem_of_delete_inv.
Qed.

Lemma issued_app rnd l k :
  issued rnd (l ++ k) = issued rnd l ++ ((λ oe, uuid4 (snd oe)) <$> k).
Proof. unfold issued. by rewrite fmap_app, app_assoc. Qed.

Lemma readings_app rnd l k :
  readings rnd (l ++ k)
  = readings rnd l ++ ((λ oe, get_current_time (snd oe)) <$> k).
Proof. unfold readings. by rewrite fmap_app, app_assoc. Qed.

Lemma fresh_identifiers_app_l rnd l k :
  fresh_identifiers rnd (l ++ k) → fresh_identifiers rnd l.
Proof.
  unfold fresh_identifiers. rewrite issued_app. by intros [? _]%NoDup_app.
Qed.

Lemma monotone_clock_app_l rnd l k :
  monotone_clock rnd (l ++ k) → monotone_clock rnd l.
Proof.
  unfold monotone_clock. rewrite readings_app.
  intros Hs. apply (Sorted_StronglySorted str_le) in Hs.
  apply StronglySorted_app_1_l in Hs. by apply StronglySorted_Sorted.
Qed.

Lemma fresh_identifiers_snoc rnd l oe :
  fresh_identifiers rnd (l ++ [oe]) → uuid4 (snd oe) ∉ issued rnd l.
Proof.
  unfold fresh_identifiers. rewrite issued_app.
  intros (_ & Hne & _)%NoDup_app Hin. apply (Hne _ Hin). by left.
Qed.

Lemma monotone_clock_snoc rnd l oe u :
  monotone_clock rnd (l ++ [oe]) → u ∈ readings rnd l →
  str_le u (get_current_time (snd oe)).
Proof.
  unfold monotone_clock. rewrite readings_app.
  intros Hs Hu. apply (Sorted_StronglySorted str_le) in Hs.
  eapply StronglySorted_app_1_elem_of; [done..|]. by left.
Qed.

Section Invariants.
Context `{Pydantic} `{Python}.

Lemma effects_perform op e : effects e (perform op e).
Proof.
  destruct op; simpl;
    (apply effects_bind_ret; [|intros; apply read_only_ret]).
  - apply read_only_effects, read_only_get_all_trips.
  - apply read_only_effects, read_only_get_trip.
  - apply effects_create_trip.
  - apply effects_update_trip.
  - apply effects_patch_trip.
  - apply effects_delete_trip.
  - apply read_only_effects, read_only_search_trips.
  - apply read_only_effects, read_only_get_statistics.
  - apply effects_serve.
Qed.

Lemma seed_seeded rnd i l db :
  seed rnd i l db = (inr tt, db ++ seeded rnd i l).
Proof.
  revert i db. induction l as [|d l IH]; intros i db; simpl.
  - by rewrite app_nil_r.
  - unfold mbind, M_bind, db_append. rewrite IH. by rewrite <- app_assoc.
Qed.

Lemma startup_seeded rnd : startup rnd = seeded rnd 0 STATIC_TRIPS.
Proof.
  unfold startup, initialize_database, mbind, M_bind, db_clear.
  by rewrite seed_seeded.
Qed.

Lemma seeded_ids rnd i l :
  id <$> seeded rnd i l = Some <$> ((λ j, uuid4 (rnd j)) <$> seq i (length l)).
Proof. revert i. induction l as [|d l IH]; intros i; simpl; [done|]. by rewrite IH. Qed.

Lemma seeded_well_stamped rnd us ts i l :
  (∀ j, j ∈ seq i (length l) →
        uuid4 (rnd j) ∈ us ∧ get_current_time (rnd j) ∈ ts) →
  Forall (well_stamped us ts) (seeded rnd i l).
Proof.
  revert i. induction l as [|d l IH]; intros i Hin; simpl; [constructor|].
  constructor.
  - destruct (Hin i) as [Hu Ht]; [by left|].
    exists (uuid4 (rnd i)), (get_current_time (rnd i)), (get_current_time (rnd i)).
    repeat split; try done. apply str_le_refl.
  - apply IH. intros j Hj. apply Hin. by right.
Qed.

Lemma startup_store_ok rnd :
  fresh_identifiers rnd [] →
  store_ok (issued rnd []) (readings rnd []) (startup rnd).
Proof.
  unfold fresh_identifiers, issued, readings. rewrite !app_nil_r. intros Hnd.
  rewrite startup_seeded. split.
  - rewrite seeded_ids. by apply (NoDup_fmap_2 Some).
  - apply seeded_well_stamped. intros j Hj.
    split.
    + by apply (list_elem_of_fmap_2 (λ i, uuid4 (rnd i)) _ j).
    + by apply (list_elem_of_fmap_2 (λ i, get_current_time (rnd i)) _ j).
Qed.

Lemma run_snoc rnd trace oe :
  run rnd (trace ++ [oe]) = step (run rnd trace) oe.
Proof. unfold run. by rewrite foldl_app. Qed.

Lemma step_effect db oe : effect (snd oe) db (step db oe).
Proof. apply effects_perform. Qed.

(** Every state of a run satisfies the invariant. *)
Lemma run_store_ok rnd trace :
  fresh_identifiers rnd trace → monotone_clock rnd trace →
  store_ok (issued rnd trace) (readings rnd trace) (run rnd trace).
Proof.
  induction trace as [|oe trace IH] using rev_ind; intros Hfresh Hclock.
  - by apply startup_store_ok.
  - rewrite run_snoc, issued_app, readings_app.
    apply (effect_store_ok (issued rnd trace) (readings rnd trace) (snd oe)
             (run rnd trace)).
    + apply IH; [by eapply fresh_identifiers_app_l | by eapply monotone_clock_app_l].
    + apply step_effect.
    + by apply fresh_identifiers_snoc.
    + intros u Hu. by eapply monotone_clock_snoc.
Qed.

(** The [created_at] of an id is the same in every later state. *)
Lemma created_at_stable rnd before after t t' :
  fresh_identifiers rnd (before ++ after) →
  monotone_clock rnd (before ++ after) →
  t ∈ run rnd before → t' ∈ run rnd (before ++ after) →
  id t' = id t → created_at t' = created_at t.
Proof.
  revert t'. induction after as [|oe after IH] using rev_ind;
    intros t' Hfresh Hclock Ht Ht' Hid.
  - rewrite app_nil_r in *.
    destruct (run_store_ok rnd before Hfresh Hclock) as [Hnd _].
    by rewrite (NoDup_id_eq _ t' t Hnd Ht' Ht Hid).
  - rewrite app_assoc in *. rewrite run_snoc in Ht'.
    pose proof (fresh_identifiers_app_l _ _ _ Hfresh) as Hfresh'.
    pose proof (monotone_clock_app_l _ _ _ Hclock) as Hclock'.
    destruct (effect_record _ _ _ _ (step_effect _ oe) Ht')
      as [(t0 & Ht0 & Hid0 & Hca0)|Hnew].
    + rewrite Hca0. apply IH; [done..|congruence].
    + exfalso. apply (fresh_identifiers_snoc _ _ _ Hfresh).
      rewrite issued_app. apply elem_of_app. left.
      destruct (store_ok_id_issued _ _ _ (id t)
                  (run_store_ok rnd before
                     (fresh_identifiers_app_l _ _ _ Hfresh')
                     (monotone_clock_app_l _ _ _ Hclock'))
                  (list_elem_of_fmap_2 _ _ _ Ht)) as (i & Hi & Hus).
      congruence.
Qed.

(** An id that has left the list does not come back. *)
Lemma deleted_id_not_reused rnd p1 p2 p3 x :
  fresh_identifiers rnd (p1 ++ p2 ++ p3) →
  monotone_clock rnd (p1 ++ p2 ++ p3) →
  x ∈ id <$> run rnd p1 →
  x ∉ id <$> run rnd (p1 ++ p2) →
  x ∉ id <$> run rnd (p1 ++ p2 ++ p3).
Proof.
  induction p3 as [|oe p3 IH] using rev_ind; intros Hfresh Hclock Hin Hout.
  - by rewrite app_nil_r.
  - rewrite !app_assoc in *. rewrite run_snoc.
    pose proof (fresh_identifiers_app_l _ _ _ Hfresh) as Hfresh'.
    pose proof (monotone_clock_app_l _ _ _ Hclock) as Hclock'.
    rewrite <- !app_assoc in *.
    intros [Hx|Hx]%(effect_ids _ _ _ _ (step_effect _ oe)).
    + by apply IH.
    + rewrite !app_assoc in Hfresh.
      apply (fresh_identifiers_snoc _ _ _ Hfresh).
      rewrite <- app_assoc, issued_app. apply elem_of_app. left.
      destruct (store_ok_id_issued _ _ _ x
                  (run_store_ok rnd p1
                     (fresh_identifiers_app_l _ _ _ Hfresh')
                     (monotone_clock_app_l _ _ _ Hclock')) Hin)
        as (i & Hi & Hus).
      congruence.
Qed.

(** C6 (amended). In every state the service reaches from its start by any
    sequence of operations, with identifiers that do not repeat and a clock
    that does not run backwards: the ids of the stored records are pairwise distinct;
    every record has an id and both timestamps, and its [updated_at] is not
    before its [created_at]; a record has the [created_at] that the record
    with its id had in any earlier state; and an id that was in the list and
    has left it is not in the list. *)
Theorem store_invariants (rnd : nat → env) (trace : list (operation * env)) :
  fresh_identifiers rnd trace →
  monotone_clock rnd trace →
  NoDup (id <$> run rnd trace) ∧
  (∀ t, t ∈ run rnd trace →
        ∃ i c u, id t = Some i ∧ created_at t = Some c ∧
                 updated_at t = Some u ∧ str_le c u) ∧
  (∀ before after t t',
     trace = before ++ after →
     t ∈ run rnd before → t' ∈ run rnd trace →
     id t' = id t → created_at t' = created_at t) ∧
  (∀ p1 p2 p3 x,
     trace = p1 ++ p2 ++ p3 →
     x ∈ id <$> run rnd p1 →
     x ∉ id <$> run rnd (p1 ++ p2) →
     x ∉ id <$> run rnd trace).
Proof.
  intros Hfresh Hclock.
  destruct (run_store_ok rnd trace Hfresh Hclock) as [Hnd Hall].
  split; [done|]. split; [|split].
  - intros t Ht. rewrite Forall_forall in Hall.
    destruct (Hall t Ht) as (i & c & u & Hi & _ & Hc & Hu & Hle & _).
    by exists i, c, u.
  - intros before after t t' ->. by apply created_at_stable.
  - intros p1 p2 p3 x ->. by apply deleted_id_not_reused.
Qed.

End Invariants.

Lemma sample_fresh : fresh_identifiers sample_rnd sample_trace.
Proof. unfold fresh_identifiers. apply (bool_decide_unpack _). by vm_compute. Qed.

Lemma sample_monotone : monotone_clock sample_rnd sample_trace.
Proof. unfold monotone_clock. repeat constructor. Qed.

Lemma store_invariants_witness :
  NoDup (id <$> run sample_rnd sample_trace) ∧
  (∀ t, t ∈ run sample_rnd sample_trace →
        ∃ i c u, id t = Some i ∧ created_at t = Some c ∧
                 updated_at t = Some u ∧ str_le c u) ∧
  (∀ before after t t',
     sample_trace = before ++ after →
     t ∈ run sample_rnd before → t' ∈ run sample_rnd sample_trace →
     id t' = id t → created_at t' = created_at t) ∧
  (∀ p1 p2 p3 x,
     sample_trace = p1 ++ p2 ++ p3 →
     x ∈ id <$> run sample_rnd p1 →
     x ∉ id <$> run sample_rnd (p1 ++ p2) →
     x ∉ id <$> run sample_rnd sample_trace).
Proof.
  exact (store_invariants sample_rnd sample_trace sample_fresh sample_monotone).
Defined.

(** Without these assumptions the invariants fail.  When the clock reads
    less at the patch than at the create, the patched record has an
    [updated_at] before its [created_at]; when an identifier is drawn twice,
    two records of the list have the same id. *)
Lemma store_invariants_need_environment :
  (∃ t, t ∈ run sample_rnd backwards_trace ∧
        created_at t = Some "2024-10-27T02:30:00" ∧
        updated_at t = Some "2024-10-27T02:00:00" ∧
        String.leb "2024-10-27T02:30:00" "2024-10-27T02:00:00" = false) ∧
  id <$> run sample_rnd repeated_trace
  = [Some "a"; Some "b"; Some "c"; Some "d"; Some "e"; Some "z"; Some "z"].
Proof.
  split; [|by vm_compute].
  exists (mkTrip (Some "z") "Рим" "Италия" "ЕвроТур" 5 95000.0 4.4 10
            (Some "2024-10-27T02:30:00") (Some "2024-10-27T02:00:00")).
  split; [|by vm_compute].
  apply list_elem_of_In. vm_compute. tauto.
Qed.

Example sample_run_ids :
  id <$> run sample_rnd sample_trace
  = [Some "b"; Some "c"; Some "d"; Some "e"; Some "z"].
Proof. by vm_compute. Qed.

Example sample_statistics :
  fst (get_statistics sample_env sample_db)
  = inr (Statistics 5
           [("duration_days", mkStats (NInt 7) (NInt 12) 9.2 (NInt 46) 5);
            ("price", mkStats (NFloat 120000) (NFloat 250000) 193000
                        (NFloat 965000) 5);
            ("rating", mkStats (NFloat 4.5) (NFloat 4.9) 4.7 (NFloat 23.5) 5);
            ("group_size", mkStats (NInt 8) (NInt 20) 14.6 (NInt 73) 5)]
           "2024-06-01T12:00:00").
Proof. by vm_compute. Qed.

Example sample_sorted_by_price_descending :
  (λ l, price <$> l) <$> fst (get_all_trips (Some "price") true sample_db)
  = inr [250000; 220000; 190000; 185000; 120000]%float.
Proof. by vm_compute. Qed.

Example sample_unknown_field_keeps_order :
  get_all_trips (Some "nonexistent_field") false sample_db
  = (inr sample_db, sample_db).
Proof. by vm_compute. Qed.

Example sample_serve_unknown_id :
  serve (mkRequest GET ["trips"; "nope"] ∅ None) sample_env sample_db
  = (inl (not_found "nope"), sample_db).
Proof. by vm_compute. Qed.

(** ** Sorting by a key *)

Lemma StronglySorted_rev {A : Type} (R : relation A) (l : list A) :
  StronglySorted R l → StronglySorted (flip R) (rev l).
Proof.
  induction 1 as [|x l Hs IH Hx]; simpl; [constructor|].
  apply StronglySorted_app_2; [|done|repeat constructor].
  intros x1 x2 Hx1%list_elem_of_In%in_rev%list_elem_of_In
    ->%list_elem_of_singleton.
  rewrite Forall_forall in Hx. by apply Hx.
Qed.

Lemma StronglySorted_fmap_elem {A B : Type} (f : A → B) (R1 : relation A)
    (R2 : relation B) (l : list A) :
  (∀ x y, x ∈ l → y ∈ l → R1 x y → R2 (f x) (f y)) →
  StronglySorted R1 l → StronglySorted R2 (f <$> l).
Proof.
  intros Hf Hs. induction Hs as [|x l Hs IH Hx]; simpl; [constructor|].
  constructor.
  - apply IH. intros y z Hy Hz. apply Hf; by right.
  - rewrite Forall_fmap. rewrite Forall_forall in Hx |- *.
    intros y Hy. apply Hf; [by left | by right | by apply Hx].
Qed.

Lemma filter_fmap_elem {A B : Type} (f : A → B) (g : A → bool) (h : B → bool)
    (l : list A) :
  (∀ x, x ∈ l → g x = h (f x)) →
  f <$> List.filter g l = List.filter h (f <$> l).
Proof.
  induction l as [|x l IH]; intros Hg; [done|].
  change (List.filter g (x :: l))
    with (if g x then x :: List.filter g l else List.filter g l).
  rewrite fmap_cons.
  change (List.filter h (f x :: (f <$> l)))
    with (if h (f x) then f x :: List.filter h (f <$> l)
          else List.filter h (f <$> l)).
  rewrite <- (Hg x) by by left.
  rewrite <- IH by (intros y Hy; apply Hg; by right).
  by destruct (g x).
Qed.

Section SortSpec.
Context {K : Type} (P : K → Prop).
Context (lt : K → K → result bool) (ltb : K → K → bool).
Hypothesis lt_ltb : ∀ a b, P a → P b → lt a b = inr (ltb a b).
Hypothesis ltb_asym : ∀ a b, P a → P b → ltb a b = true → ltb b a = false.
Hypothesis ltb_negtrans : ∀ a b c,
  P a → P b → P c → ltb a c = true → ltb a b = true ∨ ltb b c = true.

Lemma ties_below k a b :
  P k → P a → P b → ltb a b = true →
  ties ltb k a = true → ties ltb k b = true → False.
Proof.
  unfold ties. intros Hk Ha Hb Hab [Ha1 Ha2]%andb_true_iff [Hb1 Hb2]%andb_true_iff.
  apply negb_true_iff in Ha1, Ha2, Hb1, Hb2.
  destruct (ltb_negtrans a k b Ha Hk Hb Hab); congruence.
Qed.

Lemma insert_sorted_spec x l :
  P (fst x) → in_domain P l → StronglySorted (not_after ltb) l →
  ∃ l', insert_sorted lt x l = inr l' ∧ l' ≡ₚ x :: l ∧
        StronglySorted (not_after ltb) l' ∧
        ∀ k, P k → List.filter (λ y, ties ltb k (fst y)) l'
                   = List.filter (λ y, ties ltb k (fst y)) (x :: l).
Proof.
  intros Hx. induction l as [|y l IH]; intros Hl Hs.
  - exists [x]. repeat split; [done|repeat constructor].
  - apply Forall_cons in Hl as [Hy Hl].
    apply StronglySorted_cons in Hs as [Hyl Hs].
    simpl. rewrite (lt_ltb _ _ Hy Hx). simpl.
    destruct (ltb (fst y) (fst x)) eqn:Hyx.
    + destruct (IH Hl Hs) as (l' & -> & Hperm & Hs' & Hst). simpl.
      exists (y :: l'). split; [done|]. split; [|split].
      * rewrite Hperm. apply Permutation_swap.
      * apply StronglySorted_cons. split; [|done].
        rewrite Hperm. constructor; [|done]. by apply ltb_asym.
      * intros k Hk. simpl. rewrite (Hst k Hk). simpl.
        destruct (ties ltb k (fst y)) eqn:Hty, (ties ltb k (fst x)) eqn:Htx; try done.
        by destruct (ties_below k (fst y) (fst x)).
    + exists (x :: y :: l). split; [done|]. split; [done|]. split; [|done].
      apply StronglySorted_cons. split; [|by apply StronglySorted_cons].
      constructor; [done|].
      rewrite Forall_forall in Hyl, Hl |- *. intros z Hz.
      unfold not_after in *. destruct (ltb (fst z) (fst x)) eqn:Hzx; [|done].
      destruct (ltb_negtrans (fst z) (fst y) (fst x)) as [Hc|Hc];
        [by apply Hl | done..| |]; [|congruence].
      by rewrite (Hyl z Hz) in Hc.
Qed.

Lemma insertion_sort_spec l :
  in_domain P l →
  ∃ l', insertion_sort lt l = inr l' ∧ l' ≡ₚ l ∧
        StronglySorted (not_after ltb) l' ∧
        ∀ k, P k → List.filter (λ y, ties ltb k (fst y)) l'
                   = List.filter (λ y, ties ltb k (fst y)) l.
Proof.
  induction l as [|x l IH]; intros Hl.
  - exists []. repeat split; [done|constructor].
  - apply Forall_cons in Hl as [Hx Hl].
    destruct (IH Hl) as (s & Hsort & Hperm & Hs & Hst).
    destruct (insert_sorted_spec x s Hx) as (l' & Hins & Hperm' & Hs' & Hst');
      [by unfold in_domain; rewrite Hperm | done |].
    exists l'. simpl. rewrite Hsort. simpl. split; [done|].
    split; [by rewrite Hperm', Hperm|]. split; [done|].
    intros k Hk. rewrite (Hst' k Hk). simpl. by rewrite (Hst k Hk).
Qed.

Lemma keyed_total (key : Trip → result K) (k : Trip → K) (l : list Trip) :
  (∀ x, x ∈ l → key x = inr (k x)) →
  keyed key l = inr ((λ x, (k x, x)) <$> l).
Proof.
  induction l as [|x l IH]; intros Hkey; [done|]. simpl.
  rewrite (Hkey x) by by left. simpl.
  rewrite IH; [done|]. intros y Hy. apply Hkey. by right.
Qed.

(** [list.sort] on keys that [<] orders: the result is a permutation of the
    list, no element is followed by one with a smaller key (with [reverse],
    by one with a greater key), and elements whose keys tie keep their
    order. *)
Lemma list_sort_spec (key : Trip → result K) (k : Trip → K) (reverse : bool)
    (l : list Trip) :
  (∀ x, x ∈ l → key x = inr (k x)) →
  (∀ x, x ∈ l → P (k x)) →
  ∃ l', list_sort key lt reverse l = inr l' ∧ l' ≡ₚ l ∧
        StronglySorted (λ x y, if reverse then ltb (k x) (k y) = false
                               else ltb (k y) (k x) = false) l' ∧
        ∀ k0, P k0 → List.filter (λ x, ties ltb k0 (k x)) l'
                     = List.filter (λ x, ties ltb k0 (k x)) l.
Proof.
  intros Hkey HP. unfold list_sort. rewrite (keyed_total key k l Hkey). simpl.
  set (pairs := (λ x, (k x, x)) <$> l).
  assert (Forall (λ p, P (fst p) ∧ fst p = k (snd p)) pairs) as Hpairs.
  { apply Forall_fmap, Forall_forall. intros x Hx. split; [by apply HP | done]. }
  assert (snd <$> pairs = l) as Hsnd.
  { unfold pairs. rewrite <- list_fmap_compose. apply list_fmap_id. }
  assert (∀ k0, snd <$> List.filter (λ y, ties ltb k0 (fst y)) pairs
                = List.filter (λ x, ties ltb k0 (k x)) l) as Hfilter.
  { intros k0.
    transitivity (List.filter (λ x, ties ltb k0 (k x)) (snd <$> pairs));
      [|by rewrite Hsnd].
    apply filter_fmap_elem.
    intros p Hp. rewrite Forall_forall in Hpairs. by destruct (Hpairs p Hp) as [_ ->]. }
  destruct (insertion_sort_spec (if reverse then rev pairs else pairs))
    as (s & -> & Hperm & Hs & Hst).
  { unfold in_domain. destruct reverse; [rewrite <- Permutation_rev|];
      eapply Forall_impl; eauto; by intros p [? _]. }
  assert (s ≡ₚ pairs) as Hperm'.
  { rewrite Hperm. destruct reverse; [by rewrite <- Permutation_rev|done]. }
  assert (∀ p, p ∈ s → fst p = k (snd p)) as Hcanon.
  { intros p Hp. rewrite Hperm' in Hp. rewrite Forall_forall in Hpairs.
    by destruct (Hpairs p Hp). }
  simpl. eexists. split; [done|]. split; [|split].
  - rewrite <- Hsnd, <- Hperm'.
    destruct reverse; [by rewrite <- Permutation_rev|done].
  - destruct reverse.
    + apply (StronglySorted_fmap_elem snd (flip (not_after ltb)));
        [|by apply StronglySorted_rev].
      intros p q Hp%list_elem_of_In%in_rev%list_elem_of_In
        Hq%list_elem_of_In%in_rev%list_elem_of_In.
      unfold flip, not_after. by rewrite (Hcanon p Hp), (Hcanon q Hq).
    + apply (StronglySorted_fmap_elem snd (not_after ltb)); [|done].
      intros p q Hp Hq. unfold not_after. by rewrite (Hcanon p Hp), (Hcanon q Hq).
  - intros k0 Hk0. rewrite <- Hfilter.
    rewrite <- (filter_fmap_elem snd (λ y, ties ltb k0 (fst y))).
    + f_equal. destruct reverse.
      * rewrite List.filter_rev, (Hst k0 Hk0), List.filter_rev. apply rev_involutive.
      * apply (Hst k0 Hk0).
    + intros p Hp. rewrite Hcanon; [done|].
      destruct reverse; [|done].
      by apply list_elem_of_In, in_rev, list_elem_of_In in Hp.
Qed.

End SortSpec.

(** ** GET /trips: the sorted list *)

Lemma string_ltb_asym (a b : string) :
  String.ltb a b = true → String.ltb b a = false.
Proof.
  unfold String.ltb. rewrite (String.compare_antisym b a).
  by destruct (String.compare a b).
Qed.

Lemma string_ltb_negtrans (a b c : string) :
  String.ltb a c = true → String.ltb a b = true ∨ String.ltb b c = true.
Proof.
  unfold String.ltb. destruct (String.compare a c) eqn:Hac; try done. intros _.
  destruct (String.compare a b) eqn:Hab; [|by left|].
  - apply String.compare_eq_iff in Hab as <-. right. by rewrite Hac.
  - right. rewrite (string_compare_lt_trans b a c); [done| |done].
    rewrite String.compare_antisym, Hab. done.
Qed.

Lemma SFltb_asym (x y : spec_float) : SFltb x y = true → SFltb y x = false.
Proof.
  intros Hxy. destruct (SFltb y x) eqn:Hyx; [|done].
  pose proof (SFltb_trans x y x Hxy Hyx) as Hxx. by rewrite SFltb_irrefl in Hxx.
Qed.

Lemma SFltb_negtrans (x y z : spec_float) :
  y ≠ S754_nan → SFltb x z = true → SFltb x y = false → SFltb y z = true.
Proof.
  unfold SFltb, SFcompare.
  destruct x as [sx|sx| |sx mx ex], y as [sy|sy| |sy my ey],
           z as [sz|sz| |sz mz ez];
    try destruct sx; try destruct sy; try destruct sz;
    try discriminate; try reflexivity; try congruence;
    change (Pos.compare_cont Eq) with Pos.compare;
    repeat match goal with
    | |- context [Z.compare ?a ?b] => destruct (Z.compare_spec a b)
    | |- context [Pos.compare ?a ?b] => destruct (Pos.compare_spec a b)
    end; simpl; try discriminate; try reflexivity; intros; subst; lia.
Qed.

Lemma attr_lt_ltb κ a b :
  of_kind κ a → of_kind κ b → attr_lt a b = inr (attr_ltb a b).
Proof. by destruct κ, a, b. Qed.

Lemma attr_ltb_asym κ a b :
  of_kind κ a → of_kind κ b → attr_ltb a b = true → attr_ltb b a = false.
Proof.
  destruct κ, a, b; try done; unfold attr_ltb; simpl; intros _ _.
  - apply string_ltb_asym.
  - intros Hlt%Z.ltb_lt. apply Z.ltb_ge. lia.
  - rewrite !FloatAxioms.ltb_spec. apply SFltb_asym.
Qed.

Lemma attr_ltb_negtrans κ a b c :
  of_kind κ a → of_kind κ b → of_kind κ c →
  attr_ltb a c = true → attr_ltb a b = true ∨ attr_ltb b c = true.
Proof.
  destruct κ, a, b, c; try done; unfold attr_ltb; simpl; intros _ Hb _.
  - apply string_ltb_negtrans.
  - rewrite !Z.ltb_lt. lia.
  - rewrite !FloatAxioms.ltb_spec. intros Hac.
    destruct (SFltb (Prim2SF f) (Prim2SF f0)) eqn:Hab; [by left|right].
    by apply (SFltb_negtrans (Prim2SF f)).
Qed.

Lemma field_value_is_Some (x : Trip) (name : string) :
  name ∈ Trip_fields → field_value x name = Some (key_of name x).
Proof.
  unfold Trip_fields. rewrite !elem_of_cons, elem_of_nil.
  intros [->|[->|[->|[->|[->|[->|[->|[->|[->|[->|[]]]]]]]]]]]; reflexivity.
Qed.

Lemma field_value_is_None (x : Trip) (name : string) :
  name ∉ Trip_fields → field_value x name = None.
Proof.
  unfold Trip_fields. rewrite !not_elem_of_cons. intros Hne.
  unfold field_value.
  repeat match goal with
         | |- context [String.eqb name ?s] =>
             destruct (String.eqb_spec name s); [tauto|]
         end.
  done.
Qed.

Section ListSpec.
Context `{Pydantic}.

(** With a field name and keys of one kind, [get_all_trips] returns a
    permutation of the list in which no record is followed by one with a
    smaller key (with [reverse], a greater one) and records whose keys tie
    keep the order they have in the list. *)
Lemma get_all_trips_sorted (name : string) (reverse : bool) (κ : kind)
    (db : list Trip) :
  name ∈ Trip_fields →
  (∀ x, x ∈ db → of_kind κ (key_of name x)) →
  ∃ l, get_all_trips (Some name) reverse db = (inr l, db) ∧ l ≡ₚ db ∧
       StronglySorted
         (λ x y, if reverse
                 then attr_ltb (key_of name x) (key_of name y) = false
                 else attr_ltb (key_of name y) (key_of name x) = false) l ∧
       ∀ k0, of_kind κ k0 →
             List.filter (λ x, ties attr_ltb k0 (key_of name x)) l
             = List.filter (λ x, ties attr_ltb k0 (key_of name x)) db.
Proof.
  intros Hname Hkind.
  destruct (list_sort_spec (of_kind κ) attr_lt attr_ltb (attr_lt_ltb κ)
              (attr_ltb_asym κ) (attr_ltb_negtrans κ)
              (λ x, getattr x name) (key_of name) reverse db)
    as (l & Hsort & Hperm & Hs & Hst); [|done|].
  { intros x _. unfold getattr. by rewrite field_value_is_Some. }
  exists l. split; [|done].
  unfold get_all_trips, mbind, M_bind, read_db. cbv beta iota.
  assert (truthy (Some name) = Some name) as ->.
  { destruct name; [|done]. unfold Trip_fields in Hname.
    rewrite !elem_of_cons, elem_of_nil in Hname. intuition discriminate. }
  by rewrite Hsort.
Qed.

(** The text and integer fields are always of one kind; a float field is
    when none of its values is a NaN. *)
Lemma text_fields_of_kind (x : Trip) (name : string) :
  name ∈ ["destination"; "country"; "travel_agency"] →
  of_kind KStr (key_of name x).
Proof.
  rewrite !elem_of_cons, elem_of_nil. by intros [->|[->|[->|[]]]].
Qed.

Lemma integer_fields_of_kind (x : Trip) (name : string) :
  name ∈ ["duration_days"; "group_size"] → of_kind KInt (key_of name x).
Proof. rewrite !elem_of_cons, elem_of_nil. by intros [->|[->|[]]]. Qed.

Lemma price_of_kind (x : Trip) : not_nan (price x) → of_kind KFloat (key_of "price" x).
Proof. done. Qed.

Lemma rating_of_kind (x : Trip) : not_nan (rating x) → of_kind KFloat (key_of "rating" x).
Proof. done. Qed.

Lemma getattr_missing (x : Trip) (name : string) :
  name ∉ Trip_fields → model_method name = false →
  getattr x name = inl AttributeError.
Proof. intros Hname Hm. unfold getattr. by rewrite field_value_is_None, Hm. Qed.

(** Without a sort field, with the empty one, or with a name that is
    neither a field nor a method, [get_all_trips] returns the list as it
    stands. *)
Lemma get_all_trips_unsorted (sort_by : option string) (reverse : bool)
    (db : list Trip) :
  (sort_by = None ∨ sort_by = Some "" ∨
   (∃ name, sort_by = Some name ∧ (name ∉ Trip_fields) ∧
            model_method name = false)) →
  get_all_trips sort_by reverse db = (inr db, db).
Proof.
  intros [->|[->|(name & -> & Hname & Hmethod)]]; [reflexivity..|].
  unfold get_all_trips, mbind, M_bind, read_db. cbv beta iota.
  destruct (truthy (Some name)) as [name'|] eqn:Htruthy; [|reflexivity].
  assert (name' = name) as ->
    by (destruct name; simpl in Htruthy; [discriminate | by injection Htruthy]).
  destruct db as [|x db]; [by destruct reverse|].
  unfold list_sort.
  change (keyed (λ x, getattr x name) (x :: db))
    with (getattr x name ≫= (λ k,
          keyed (λ x, getattr x name) db ≫= (λ kl, inr ((k, x) :: kl)))).
  by rewrite getattr_missing.
Qed.

(** C3 (amended). For a sort field that names a field of [Trip] whose
    values in the list are all strings, all integers, or all floats other
    than NaN, [get_all_trips] returns a permutation of the list in which no
    record is followed by one with a smaller key (with [reverse], by one with
    a greater key), and in which the records whose keys tie keep the order
    they have in the list; the list is left as it is.  Without a sort field,
    with the empty one, or with a name that is no attribute of a record at
    all, it returns the list in its order and raises nothing. *)
Theorem get_all_trips_orders (reverse : bool) (db : list Trip) :
  (∀ name κ,
     name ∈ Trip_fields →
     (∀ x, x ∈ db → of_kind κ (key_of name x)) →
     ∃ l, get_all_trips (Some name) reverse db = (inr l, db) ∧ l ≡ₚ db ∧
          StronglySorted
            (λ x y, if reverse
                    then attr_ltb (key_of name x) (key_of name y) = false
                    else attr_ltb (key_of name y) (key_of name x) = false) l ∧
          ∀ k0, of_kind κ k0 →
                List.filter (λ x, ties attr_ltb k0 (key_of name x)) l
                = List.filter (λ x, ties attr_ltb k0 (key_of name x)) db) ∧
  (∀ sort_by,
     (sort_by = None ∨ sort_by = Some "" ∨
      (∃ name, sort_by = Some name ∧ (name ∉ Trip_fields) ∧
               model_method name = false)) →
     get_all_trips sort_by reverse db = (inr db, db)).
Proof.
  split.
  - intros name κ. apply get_all_trips_sorted.
  - intros sort_by. apply get_all_trips_unsorted.
Qed.

End ListSpec.

Lemma sample_prices_of_kind (x : Trip) :
  x ∈ sample_db → of_kind KFloat (key_of "price" x).
Proof.
  revert x. apply Forall_forall. unfold sample_db.
  repeat apply Forall_cons_2; [by vm_compute..|apply Forall_nil_2].
Qed.

Lemma get_all_trips_orders_witness :
  ∃ l, get_all_trips (Some "price") true sample_db = (inr l, sample_db) ∧
       l ≡ₚ sample_db ∧
       StronglySorted
         (λ x y, attr_ltb (key_of "price" x) (key_of "price" y) = false) l ∧
       ∀ k0, of_kind KFloat k0 →
             List.filter (λ x, ties attr_ltb k0 (key_of "price" x)) l
             = List.filter (λ x, ties attr_ltb k0 (key_of "price" x)) sample_db.
Proof.
  apply (proj1 (get_all_trips_orders true sample_db) "price" KFloat).
  - by compute_done.
  - exact sample_prices_of_kind.
Defined.

(** A NaN is below nothing and nothing is below it.  Sorted by [price], the
    records with the prices 2, NaN and 1 come back as they stand: the record
    with the price 2 is followed by the one with the price 1. *)
Lemma get_all_trips_nan_price :
  get_all_trips (Some "price") false nan_prices = (inr nan_prices, nan_prices) ∧
  price <$> nan_prices = [2; nan; 1]%float ∧
  PrimFloat.ltb 1 2 = true.
Proof. by vm_compute. Qed.

(** * Further properties of the handlers *)

(** ** The two lookups *)

Lemma find_trip_by_id_first db trip_id k t :
  first_with_id db trip_id k t → find_trip_by_id db trip_id = Some t.
Proof.
  revert k. induction db as [|a db IH]; intros k Hf.
  - destruct Hf as (Hk & _). by rewrite lookup_nil in Hk.
  - simpl. case_bool_decide as Ha.
    + destruct k as [|k'].
      * destruct Hf as (Hk & _). simpl in Hk. congruence.
      * destruct Hf as (_ & _ & Hfirst). by destruct (Hfirst 0%nat a); [lia|..].
    + destruct (first_with_id_cons_ne _ _ _ _ _ Ha Hf) as (k' & -> & Hf').
      by apply (IH k').
Qed.

Lemma first_with_id_insert db trip_id k old new :
  first_with_id db trip_id k old → id new = Some trip_id →
  first_with_id (<[k := new]> db) trip_id k new.
Proof.
  intros (Hk & _ & Hfirst) Hid. repeat split; [|done|].
  - apply list_lookup_insert_eq. by eapply lookup_lt_Some.
  - intros j t' Hj. rewrite list_lookup_insert_ne by lia. by apply Hfirst.
Qed.

Lemma first_with_id_app db trip_id k t l :
  first_with_id db trip_id k t → first_with_id (db ++ l) trip_id k t.
Proof.
  intros (Hk & Hid & Hfirst). repeat split; [|done|].
  - by apply lookup_app_l_Some.
  - intros j t' Hj Ht'. apply (Hfirst j t'); [done|].
    rewrite lookup_app_l in Ht'; [done|].
    apply lookup_lt_Some in Hk. lia.
Qed.

Lemma first_with_id_snoc db trip_id t :
  absent db trip_id → id t = Some trip_id →
  first_with_id (db ++ [t]) trip_id (length db) t.
Proof.
  intros Ha Hid. repeat split; [|done|].
  - by apply list_lookup_middle.
  - intros j t' Hj Ht'. rewrite lookup_app_l in Ht' by done.
    apply (Ha t'). by eapply list_elem_of_lookup_2.
Qed.

Lemma first_with_id_elem db trip_id k t :
  first_with_id db trip_id k t → t ∈ db.
Proof. intros (Hk & _). by eapply list_elem_of_lookup_2. Qed.

Lemma absent_not_first db trip_id k t :
  absent db trip_id → first_with_id db trip_id k t → False.
Proof. intros Ha Hf. destruct Hf as (Hk & Hid & _). apply (Ha t); [|done]. by eapply list_elem_of_lookup_2. Qed.

(** [find_trip_by_id] and [find_trip_index] agree: either no record has the
    id, the one returns [None] and the other [-1]; or the one returns the
    first record with the id and the other its position.  The index is
    [-1] or a position of the list. *)
Theorem find_trip_helpers_agree (db : list Trip) (trip_id : string) :
  ((absent db trip_id ∧ find_trip_by_id db trip_id = None ∧
    find_trip_index db trip_id = -1) ∨
   (∃ k t, first_with_id db trip_id k t ∧
           find_trip_by_id db trip_id = Some t ∧
           find_trip_index db trip_id = Z.of_nat k)) ∧
  -1 ≤ find_trip_index db trip_id < len db.
Proof.
  destruct (find_trip_index_cases db trip_id) as [[Ha Hi]|(k & t & Hf & Hi)].
  - split; [left|rewrite Hi; unfold len; lia].
    by rewrite (find_trip_by_id_absent _ _ Ha).
  - split; [right; exists k, t|].
    + by rewrite (find_trip_by_id_first _ _ _ _ Hf).
    + rewrite Hi. destruct Hf as (Hk & _). apply lookup_lt_Some in Hk.
      unfold len. lia.
Qed.

(** ** GET, DELETE and what a lookup sees after a write *)

Lemma NoDup_lookup_not_in_delete {A : Type} (l : list A) (k : nat) (x : A) :
  NoDup l → l !! k = Some x → x ∉ delete k l.
Proof.
  intros Hnd Hk. rewrite <- (take_drop_middle l k x Hk) in Hnd.
  apply NoDup_app in Hnd as (_ & Hdisj & Hnd').
  apply NoDup_cons in Hnd' as [Hx _].
  rewrite delete_take_drop. intros [Hin|Hin]%elem_of_app; [|done].
  apply (Hdisj x Hin). left.
Qed.

Section Lookups.
Context `{Pydantic} `{Python}.

Lemma get_trip_found db trip_id k t :
  first_with_id db trip_id k t → get_trip trip_id db = (inr t, db).
Proof.
  intros Hf. unfold get_trip, mbind, M_bind, read_db. cbv beta iota.
  by rewrite (find_trip_by_id_first _ _ _ _ Hf).
Qed.

Lemma get_trip_absent db trip_id :
  absent db trip_id → get_trip trip_id db = (inl (not_found trip_id), db).
Proof.
  intros Ha. unfold get_trip, mbind, M_bind, read_db. cbv beta iota.
  by rewrite (find_trip_by_id_absent _ _ Ha).
Qed.

Lemma delete_trip_found db trip_id k t :
  first_with_id db trip_id k t →
  delete_trip trip_id db
    = (inr ("Поездка успешно удалена", Trip_dict t), delete k db).
Proof.
  intros Hf. unfold delete_trip, mbind, M_bind, read_db. cbv beta iota.
  rewrite (find_trip_index_first _ _ _ _ Hf).
  destruct (Z.eqb_spec (Z.of_nat k) (-1)) as [|_]; [lia|].
  destruct Hf as (Hk & _). by rewrite (db_pop_lookup _ _ _ Hk).
Qed.

Lemma delete_trip_absent db trip_id :
  absent db trip_id → delete_trip trip_id db = (inl (not_found trip_id), db).
Proof.
  intros Ha. unfold delete_trip, mbind, M_bind, read_db. cbv beta iota.
  by rewrite (find_trip_index_absent _ _ Ha).
Qed.

(** [get_trip] returns the first record of the list that has the id and
    raises the 404 exception when no record has it; a record it returns is
    in the list and has the id; the list is left as it is. *)
Theorem get_trip_returns_first (db : list Trip) (trip_id : string) :
  (absent db trip_id →
   get_trip trip_id db = (inl (not_found trip_id), db)) ∧
  (∀ k t, first_with_id db trip_id k t → get_trip trip_id db = (inr t, db)) ∧
  (∀ t, fst (get_trip trip_id db) = inr t → t ∈ db ∧ id t = Some trip_id) ∧
  snd (get_trip trip_id db) = db.
Proof.
  split; [apply get_trip_absent|]. split; [apply get_trip_found|].
  destruct (find_trip_index_cases db trip_id) as [[Ha _]|(k & t' & Hf & _)].
  - rewrite (get_trip_absent _ _ Ha). by split.
  - rewrite (get_trip_found _ _ _ _ Hf). split; [|done].
    intros t [= <-]. split; [by eapply first_with_id_elem | by destruct Hf as (_ & ? & _)].
Qed.

(** [delete_trip] removes the first record with the id and nothing else: it
    returns the message and the dictionary of that record, the list is one
    shorter, the records before the position stay where they are and the
    records after it move up by one.  When no record has the id it raises
    the 404 exception and removes nothing. *)
Theorem delete_trip_removes_first (db : list Trip) (trip_id : string) :
  (absent db trip_id →
   delete_trip trip_id db = (inl (not_found trip_id), db)) ∧
  (∀ k t,
     first_with_id db trip_id k t →
     delete_trip trip_id db
       = (inr ("Поездка успешно удалена", Trip_dict t), delete k db) ∧
     S (length (delete k db)) = length db ∧
     (∀ j, (j < k)%nat → delete k db !! j = db !! j) ∧
     (∀ j, (k ≤ j)%nat → delete k db !! j = db !! S j)).
Proof.
  split; [apply delete_trip_absent|]. intros k t Hf.
  split; [by apply delete_trip_found|].
  destruct Hf as (Hk & _). split; [|split].
  - rewrite length_delete by eauto. apply lookup_lt_Some in Hk. lia.
  - intros j Hj. by apply list_lookup_delete_lt.
  - intros j Hj. by apply list_lookup_delete_ge.
Qed.

(** A lookup sees the last write.  After [update_trip] or [patch_trip] has
    returned a record, [get_trip] on the same id returns that record.  After
    [create_trip], [get_trip] on the generated identifier returns the new
    record when no older record has that identifier; when one has, it is the
    older record that [get_trip] keeps returning. *)
Theorem get_trip_after_write (db : list Trip) (e : env) :
  (∀ trip_id updated_trip t db',
     update_trip trip_id updated_trip e db = (inr t, db') →
     get_trip trip_id db' = (inr t, db')) ∧
  (∀ trip_id trip_update t db',
     patch_trip trip_id trip_update e db = (inr t, db') →
     get_trip trip_id db' = (inr t, db')) ∧
  (∀ trip t db',
     create_trip trip e db = (inr t, db') →
     (absent db (uuid4 e) → get_trip (uuid4 e) db' = (inr t, db')) ∧
     (∀ k old, first_with_id db (uuid4 e) k old →
               get_trip (uuid4 e) db' = (inr old, db'))).
Proof.
  split; [|split].
  - intros trip_id updated_trip t db' Hu.
    destruct (find_trip_index_cases db trip_id) as [[Ha _]|(k & orig & Hf & _)].
    + by rewrite (update_trip_absent _ _ _ _ Ha) in Hu.
    + rewrite (update_trip_found _ _ _ _ _ _ Hf) in Hu. injection Hu as <- <-.
      by apply (get_trip_found _ _ k), (first_with_id_insert _ _ _ orig).
  - intros trip_id trip_update t db' Hp.
    destruct (find_trip_index_cases db trip_id) as [[Ha _]|(k & cur & Hf & _)].
    + by rewrite (patch_trip_absent _ _ _ _ Ha) in Hp.
    + rewrite (patch_trip_found _ _ _ _ _ _ Hf) in Hp.
      destruct (Trip_init _) as [t'|] eqn:Hinit; [|done].
      injection Hp as <- <-.
      apply Trip_init_patch_kwargs_inv in Hinit as (Hid & _).
      apply (get_trip_found _ _ k), (first_with_id_insert _ _ _ cur); [done|].
      destruct Hf as (_ & Hcur & _). congruence.
  - intros trip t db'. rewrite create_trip_created. intros [= <- <-]. split.
    + intros Ha. by apply (get_trip_found _ _ (length db)), first_with_id_snoc.
    + intros k old Hf. by apply (get_trip_found _ _ k), first_with_id_app.
Qed.

(** When the ids of the list are pairwise distinct, a deleted id is gone:
    after a successful [delete_trip], both [get_trip] and a second
    [delete_trip] on that id raise the 404 exception. *)
Theorem deleted_trip_is_gone (db : list Trip) (trip_id : string)
    (r : string * gmap string PyValue) (db' : list Trip) :
  NoDup (id <$> db) →
  delete_trip trip_id db = (inr r, db') →
  get_trip trip_id db' = (inl (not_found trip_id), db') ∧
  delete_trip trip_id db' = (inl (not_found trip_id), db').
Proof.
  intros Hnd Hdel.
  destruct (find_trip_index_cases db trip_id) as [[Ha _]|(k & t & Hf & _)].
  { by rewrite (delete_trip_absent _ _ Ha) in Hdel. }
  rewrite (delete_trip_found _ _ _ _ Hf) in Hdel. injection Hdel as _ <-.
  assert (absent (delete k db) trip_id) as Ha.
  { intros t' Ht' Hid'. destruct Hf as (Hk & Hid & _).
    assert (t' = t) as ->.
    { apply (NoDup_id_eq db); [done| |by eapply list_elem_of_lookup_2|congruence].
      by eapply list_elem_of_delete_inv. }
    revert Ht'. apply NoDup_lookup_not_in_delete; [|done].
    by eapply NoDup_fmap_1. }
  by rewrite (get_trip_absent _ _ Ha), (delete_trip_absent _ _ Ha).
Qed.

(** Of two successive [update_trip] calls on one id the first leaves no
    trace: the second returns, and leaves in the list, exactly what it
    would have on the list before the first. *)
Theorem update_trip_last_wins (db : list Trip) (trip_id : string)
    (first second : Trip) (e1 e2 : env) (t1 : Trip) (db1 : list Trip) :
  update_trip trip_id first e1 db = (inr t1, db1) →
  update_trip trip_id second e2 db1 = update_trip trip_id second e2 db.
Proof.
  intros Hu.
  destruct (find_trip_index_cases db trip_id) as [[Ha _]|(k & orig & Hf & _)].
  { by rewrite (update_trip_absent _ _ _ _ Ha) in Hu. }
  rewrite (update_trip_found _ _ _ _ _ _ Hf) in Hu. injection Hu as <- <-.
  rewrite (update_trip_found _ _ _ _ _ _ Hf).
  rewrite (update_trip_found _ _ k
             (mkTrip (Some trip_id) (destination first) (country first)
                (travel_agency first) (duration_days first) (price first)
                (rating first) (group_size first) (created_at orig)
                (Some (get_current_time e1)))).
  - cbv zeta. simpl created_at. by rewrite list_insert_insert_eq.
  - by apply (first_with_id_insert _ _ _ orig).
Qed.

End Lookups.

(** ** What the handlers can raise *)

Lemma insert_sorted_raises (x : attr * Trip) (l : list (attr * Trip)) (err : exn) :
  insert_sorted attr_lt x l = inl err → err = TypeError ∧ l ≠ [].
Proof.
  induction l as [|y l IH]; [done|]. intros Hins. split; [|done]. revert Hins.
  change (insert_sorted attr_lt x (y :: l))
    with (attr_lt (fst y) (fst x) ≫= (λ b : bool,
            if b then insert_sorted attr_lt x l ≫= (λ l'', inr (y :: l''))
            else inr (x :: y :: l))).
  destruct (attr_lt (fst y) (fst x)) as [err'|[]] eqn:Hlt; simpl.
  - intros [= <-]. destruct (fst y), (fst x); simpl in Hlt; congruence.
  - destruct (insert_sorted attr_lt x l) as [err'|l''] eqn:Hl; simpl; [|done].
    intros [= <-]. by apply IH.
  - done.
Qed.

Lemma insert_sorted_Permutation {K : Type} (lt : K → K → result bool)
    (x : K * Trip) (l l' : list (K * Trip)) :
  insert_sorted lt x l = inr l' → l' ≡ₚ x :: l.
Proof.
  revert l'. induction l as [|y l IH]; intros l'; simpl.
  - by intros [= <-].
  - destruct (lt (fst y) (fst x)) as [err|[]]; simpl; [done| |by intros [= <-]].
    destruct (insert_sorted lt x l) as [err|l''] eqn:Hl; simpl; [done|].
    intros [= <-]. rewrite (IH l'' eq_refl). apply Permutation_swap.
Qed.

Lemma insertion_sort_Permutation {K : Type} (lt : K → K → result bool)
    (l s : list (K * Trip)) :
  insertion_sort lt l = inr s → s ≡ₚ l.
Proof.
  revert s. induction l as [|x l IH]; intros s; simpl.
  - by intros [= <-].
  - destruct (insertion_sort lt l) as [err|s'] eqn:Hs; simpl; [done|].
    intros Hins%insert_sorted_Permutation. by rewrite Hins, (IH s' eq_refl).
Qed.

Lemma insertion_sort_raises (l : list (attr * Trip)) (err : exn) :
  insertion_sort attr_lt l = inl err → err = TypeError ∧ (2 ≤ length l)%nat.
Proof.
  revert err. induction l as [|x l IH]; intros err; [done|].
  change (insertion_sort attr_lt (x :: l))
    with (insertion_sort attr_lt l ≫= insert_sorted attr_lt x).
  destruct (insertion_sort attr_lt l) as [err'|s] eqn:Hs; simpl.
  - intros [= <-]. destruct (IH err' eq_refl) as [-> Hlen]. split; [done|].
    simpl. lia.
  - intros [-> Hne]%insert_sorted_raises. split; [done|].
    apply insertion_sort_Permutation, Permutation_length in Hs.
    destruct s; [done|]. simpl in *. lia.
Qed.

Lemma keyed_snd {K : Type} (key : Trip → result K) (l : list Trip)
    (kl : list (K * Trip)) :
  keyed key l = inr kl → snd <$> kl = l.
Proof.
  revert kl. induction l as [|x l IH]; intros kl; simpl.
  - by intros [= <-].
  - destruct (key x) as [err|k]; simpl; [done|].
    destruct (keyed key l) as [err|kl'] eqn:Hkl; simpl; [done|].
    intros [= <-]. rewrite fmap_cons. simpl. f_equal. by apply IH.
Qed.

Section Raises.
Context `{Pydantic} `{Python}.

Lemma keyed_getattr_raises (name : string) (l : list Trip) (err : exn) :
  keyed (λ x, getattr x name) l = inl err → err = AttributeError.
Proof.
  induction l as [|x l IH]; [done|].
  change (keyed (λ x, getattr x name) (x :: l))
    with (getattr x name ≫= (λ k,
          keyed (λ x, getattr x name) l ≫= (λ kl, inr ((k, x) :: kl)))).
  destruct (getattr x name) as [err'|k] eqn:Hk; simpl.
  - intros [= <-]. unfold getattr in Hk.
    destruct (field_value x name); [done|].
    destruct (model_method name); congruence.
  - destruct (keyed _ l); simpl; [|discriminate]. intros [= <-]. by apply IH.
Qed.

(** What [list_sort] with the key of [get_all_trips] does: it raises
    [AttributeError] from the keys or [TypeError] from the comparisons, the
    latter on two or more records only; what it returns is a permutation. *)
Lemma list_sort_getattr (name : string) (reverse : bool) (l : list Trip) :
  match list_sort (λ x, getattr x name) attr_lt reverse l with
  | inr sorted => sorted ≡ₚ l
  | inl err => err = AttributeError ∨ (err = TypeError ∧ (2 ≤ length l)%nat)
  end.
Proof.
  unfold list_sort.
  destruct (keyed _ l) as [err|kl] eqn:Hkl; simpl.
  { left. by eapply keyed_getattr_raises. }
  pose proof (keyed_snd _ _ _ Hkl) as Hsnd.
  destruct (insertion_sort attr_lt _) as [err|s] eqn:Hs; simpl.
  - right. apply insertion_sort_raises in Hs as [-> Hlen]. split; [done|].
    rewrite <- Hsnd, length_fmap.
    destruct reverse; by rewrite ?length_rev in Hlen.
  - apply insertion_sort_Permutation in Hs. rewrite <- Hsnd.
    destruct reverse.
    + by rewrite <- Permutation_rev, Hs, <- Permutation_rev.
    + by rewrite Hs.
Qed.

(** [get_all_trips] never changes the list and never drops, repeats or adds
    a record: what it returns is a permutation of the list.  The one
    exception it can raise is [TypeError], and that only when the list holds
    two or more records; an [AttributeError] never leaves it. *)
Theorem get_all_trips_returns_all (sort_by : option string) (reverse : bool)
    (db : list Trip) :
  snd (get_all_trips sort_by reverse db) = db ∧
  match fst (get_all_trips sort_by reverse db) with
  | inr l => l ≡ₚ db
  | inl err => err = TypeError ∧ (2 ≤ length db)%nat
  end.
Proof.
  split; [apply read_only_get_all_trips|].
  unfold get_all_trips, mbind, M_bind, read_db. cbv beta iota.
  destruct (truthy sort_by) as [name|]; [|simpl; reflexivity].
  pose proof (list_sort_getattr name reverse db) as Hsort.
  destruct (list_sort _ _ _ _) as [err|sorted]; [|exact Hsort].
  destruct Hsort as [->|[-> Hlen]]; [simpl; reflexivity | by split].
Qed.

(** The handlers that look a record up raise the 404 exception for the id
    they were given, and only when no record of the list has that id;
    [patch_trip] can in addition raise the validation error of the model.
    None of them raises [IndexError]: the list is never indexed with the
    [-1] that [find_trip_index] returns for a missing id.  [create_trip],
    [search_trips] and [health_check] raise nothing. *)
Theorem lookup_handlers_raise (db : list Trip) (e : env) :
  (∀ trip_id err,
     fst (get_trip trip_id db) = inl err →
     err = not_found trip_id ∧ absent db trip_id) ∧
  (∀ trip_id updated_trip err,
     fst (update_trip trip_id updated_trip e db) = inl err →
     err = not_found trip_id ∧ absent db trip_id) ∧
  (∀ trip_id err,
     fst (delete_trip trip_id db) = inl err →
     err = not_found trip_id ∧ absent db trip_id) ∧
  (∀ trip_id trip_update err,
     fst (patch_trip trip_id trip_update e db) = inl err →
     (err = not_found trip_id ∧ absent db trip_id) ∨
     (err = ValidationError ∧ ¬ absent db trip_id)) ∧
  (∀ trip, ∃ t, create_trip trip e db = (inr t, db ++ [t])) ∧
  (∀ destination' country' min_price max_price min_rating,
     ∃ l, search_trips destination' country' min_price max_price min_rating db
          = (inr l, db)) ∧
  (∃ h, health_check e db = (inr h, db)).
Proof.
  repeat apply conj.
  - intros trip_id err.
    destruct (find_trip_index_cases db trip_id) as [[Ha _]|(k & t & Hf & _)].
    + rewrite (get_trip_absent _ _ Ha). by intros [= <-].
    + by rewrite (get_trip_found _ _ _ _ Hf).
  - intros trip_id updated_trip err.
    destruct (find_trip_index_cases db trip_id) as [[Ha _]|(k & t & Hf & _)].
    + rewrite (update_trip_absent _ _ _ _ Ha). by intros [= <-].
    + by rewrite (update_trip_found _ _ _ _ _ _ Hf).
  - intros trip_id err.
    destruct (find_trip_index_cases db trip_id) as [[Ha _]|(k & t & Hf & _)].
    + rewrite (delete_trip_absent _ _ Ha). by intros [= <-].
    + by rewrite (delete_trip_found _ _ _ _ Hf).
  - intros trip_id trip_update err.
    destruct (find_trip_index_cases db trip_id) as [[Ha _]|(k & t & Hf & _)].
    + rewrite (patch_trip_absent _ _ _ _ Ha). intros [= <-]. by left.
    + rewrite (patch_trip_found _ _ _ _ _ _ Hf).
      destruct (Trip_init _); [done|]. intros [= <-]. right. split; [done|].
      intros Ha. by eapply absent_not_first.
  - intros trip. eexists. apply create_trip_created.
  - intros. eexists. apply search_trips_keeps.
  - by eexists.
Qed.

End Raises.

(** ** A record and its dictionary *)

Section Dictionary.
Context `{Pydantic}.

(** The constructor undoes [dict()]: the dictionary of a record has exactly
    the ten field names as keys, the constructor accepts it and builds the
    record back; so two records with the same dictionary are the same. *)
Theorem Trip_dict_round_trip (t : Trip) :
  Trip_init (Trip_dict t) = Some t ∧
  (∀ key, is_Some (Trip_dict t !! key) ↔ key ∈ Trip_fields) ∧
  (∀ t', Trip_dict t' = Trip_dict t → t' = t).
Proof.
  split; [apply Trip_init_dict|]. split.
  - intros key. rewrite <- not_eq_None_Some, Trip_dict_lookup_None.
    destruct (decide (key ∈ Trip_fields)); tauto.
  - intros t' Heq. pose proof (Trip_init_dict t') as Ht'.
    rewrite Heq, Trip_init_dict in Ht'. congruence.
Qed.

End Dictionary.

(** ** The seeding *)

Lemma seeded_lookup rnd i l j d :
  l !! j = Some d →
  seeded rnd i l !! j
  = Some (mkTrip (Some (uuid4 (rnd (i + j)%nat))) (d_destination d)
            (d_country d) (d_travel_agency d) (d_duration_days d) (d_price d)
            (d_rating d) (d_group_size d)
            (Some (get_current_time (rnd (i + j)%nat)))
            (Some (get_current_time (rnd (i + j)%nat)))).
Proof.
  revert i j. induction l as [|d' l IH]; intros i [|j]; simpl; try done.
  - intros [= ->]. by rewrite Nat.add_0_r.
  - intros Hj. rewrite (IH (S i) j Hj). by rewrite Nat.add_succ_r.
Qed.

Lemma length_seeded rnd i l : length (seeded rnd i l) = length l.
Proof. revert i. induction l as [|d l IH]; intros i; simpl; [done|]. by rewrite IH. Qed.

Section Seeding.
Context `{Pydantic} `{Python}.

Lemma Trip_init_seed_kwargs d trip_id now :
  Trip_init (seed_kwargs d trip_id now)
  = Some (mkTrip (Some trip_id) (d_destination d) (d_country d)
            (d_travel_agency d) (d_duration_days d) (d_price d) (d_rating d)
            (d_group_size d) (Some now) (Some now)).
Proof.
  unfold Trip_init.
  change (seed_kwargs d trip_id now !! "id") with (Some (PyStr trip_id)).
  change (seed_kwargs d trip_id now !! "destination")
    with (Some (PyStr (d_destination d))).
  change (seed_kwargs d trip_id now !! "country")
    with (Some (PyStr (d_country d))).
  change (seed_kwargs d trip_id now !! "travel_agency")
    with (Some (PyStr (d_travel_agency d))).
  change (seed_kwargs d trip_id now !! "duration_days")
    with (Some (PyInt (d_duration_days d))).
  change (seed_kwargs d trip_id now !! "price") with (Some (PyFloat (d_price d))).
  change (seed_kwargs d trip_id now !! "rating") with (Some (PyFloat (d_rating d))).
  change (seed_kwargs d trip_id now !! "group_size")
    with (Some (PyInt (d_group_size d))).
  change (seed_kwargs d trip_id now !! "created_at") with (Some (PyStr now)).
  change (seed_kwargs d trip_id now !! "updated_at") with (Some (PyStr now)).
  change (optional_str (Some (PyStr trip_id)))
    with (Some <$> str_validator (PyStr trip_id)).
  change (optional_str (Some (PyStr now)))
    with (Some <$> str_validator (PyStr now)).
  simpl.
  by rewrite !str_validator_str, !int_validator_int, !float_validator_float.
Qed.

(** [initialize_database] forgets what the list held and never raises: on
    any list it leaves exactly one record per entry of [STATIC_TRIPS], in
    their order.  The record at position [i] is the one the constructor
    builds from the entry's dictionary with the [i]-th identifier and clock
    reading: it has that identifier, that reading in both timestamps, and
    the entry's data. *)
Theorem initialize_database_resets (rnd : nat → env) (db : list Trip) :
  ∃ db',
    initialize_database rnd db = (inr tt, db') ∧
    initialize_database rnd [] = (inr tt, db') ∧
    length db' = length STATIC_TRIPS ∧
    ∀ i d,
      STATIC_TRIPS !! i = Some d →
      ∃ t, db' !! i = Some t ∧
           Trip_init (seed_kwargs d (uuid4 (rnd i)) (get_current_time (rnd i)))
             = Some t ∧
           id t = Some (uuid4 (rnd i)) ∧
           created_at t = Some (get_current_time (rnd i)) ∧
           updated_at t = Some (get_current_time (rnd i)) ∧
           destination t = d_destination d ∧ country t = d_country d ∧
           travel_agency t = d_travel_agency d ∧
           duration_days t = d_duration_days d ∧ price t = d_price d ∧
           rating t = d_rating d ∧ group_size t = d_group_size d.
Proof.
  exists (seeded rnd 0 STATIC_TRIPS).
  assert (∀ l, initialize_database rnd l = (inr tt, seeded rnd 0 STATIC_TRIPS))
    as Hinit.
  { intros l. unfold initialize_database, mbind, M_bind, db_clear.
    by rewrite seed_seeded. }
  split; [apply Hinit|]. split; [apply Hinit|].
  split; [apply length_seeded|].
  intros i d Hd. eexists. split; [by apply seeded_lookup|].
  split; [apply Trip_init_seed_kwargs|]. done.
Qed.

End Seeding.

(** ** The order of the list *)

Section Order.
Context `{Pydantic} `{Python}.

(** No operation reorders the list.  After any operation, a raw request
    included, the sequence of the ids of the list is what it was, or has
    the generated identifier appended, or has one position removed; and a
    record that is at a position it held before has kept its
    [created_at]. *)
Theorem operations_keep_order (op : operation) (e : env) (db : list Trip) :
  let db' := snd (perform op e db) in
  (id <$> db' = id <$> db ∧ created_at <$> db' = created_at <$> db) ∨
  (∃ t, db' = db ++ [t] ∧ id t = Some (uuid4 e)) ∨
  (∃ k, (k < length db)%nat ∧ db' = delete k db).
Proof.
  intros db'. subst db'.
  destruct (effects_perform op e db) as [|t Hid _ _|k old new Hk Hid Hca _|k old Hk].
  - by left.
  - right. left. by exists t.
  - left. rewrite !list_fmap_insert, Hid, Hca.
    split; apply list_insert_id; by rewrite list_lookup_fmap, Hk.
  - right. right. exists k. split; [by eapply lookup_lt_Some | done].
Qed.

End Order.

(** ** Bounds of a search that nothing can meet *)

Lemma SFleb_not_nan (x y : spec_float) :
  SFleb x y = true → x ≠ S754_nan ∧ y ≠ S754_nan.
Proof.
  unfold SFleb, SFcompare.
  destruct x as [sx|sx| |sx mx ex], y as [sy|sy| |sy my ey]; done.
Qed.

Lemma SFleb_between (x y z : spec_float) :
  SFleb x y = true → SFleb y z = true → SFltb z x = false.
Proof.
  unfold SFleb, SFltb, SFcompare.
  destruct x as [sx|sx| |sx mx ex], y as [sy|sy| |sy my ey],
           z as [sz|sz| |sz mz ez];
    try destruct sx; try destruct sy; try destruct sz;
    try discriminate; try reflexivity;
    change (Pos.compare_cont Eq) with Pos.compare;
    repeat match goal with
    | |- context [Z.compare ?a ?b] => destruct (Z.compare_spec a b)
    | |- context [Pos.compare ?a ?b] => destruct (Pos.compare_spec a b)
    end; simpl; try discriminate; try reflexivity; intros; subst; lia.
Qed.

Lemma float_leb_not_nan (x y : float) :
  PrimFloat.leb x y = true → not_nan x ∧ not_nan y.
Proof. rewrite FloatAxioms.leb_spec. apply SFleb_not_nan. Qed.

Lemma float_leb_between (x y z : float) :
  PrimFloat.leb x y = true → PrimFloat.leb y z = true → PrimFloat.ltb z x = false.
Proof. rewrite !FloatAxioms.leb_spec, FloatAxioms.ltb_spec. apply SFleb_between. Qed.

Lemma filter_none {A : Type} (f : A → bool) (l : list A) :
  (∀ x, x ∈ l → f x = false) → List.filter f l = [].
Proof.
  induction l as [|x l IH]; intros Hf; [done|]. simpl.
  rewrite (Hf x) by left. apply IH. intros y Hy. apply Hf. by right.
Qed.

Lemma elem_of_filter_keeps {A : Type} (f : A → bool) (l : list A) (x : A) :
  x ∈ List.filter f l → f x = true ∧ x ∈ l.
Proof.
  rewrite !list_elem_of_In. intros Hx%filter_In. tauto.
Qed.

Section SearchEdges.
Context `{Pydantic} `{Python}.

(** A price range whose upper bound is below its lower bound matches no
    record: the search returns the empty list, whatever the other filters
    and the list are. *)
Theorem search_trips_empty_range (destination' country' : option string)
    (lo hi : float) (min_rating : option float) (db : list Trip) :
  PrimFloat.ltb hi lo = true →
  search_trips destination' country' (Some lo) (Some hi) min_rating db
    = (inr [], db).
Proof.
  intros Hrange. rewrite search_trips_keeps. f_equal. f_equal.
  apply filter_none. intros t _.
  destruct (keeps _ _ _ _ _ t) eqn:Hk; [|done].
  apply keeps_satisfies in Hk as (_ & _ & Hlo & Hhi & _).
  by rewrite (float_leb_between lo (price t) hi) in Hrange by eauto.
Qed.

(** A NaN never passes a numeric filter.  A search with a NaN as
    [min_price], [max_price] or [min_rating] returns the empty list; and a
    record whose price is a NaN is returned by no search that bounds the
    price, one whose rating is a NaN by none that bounds the rating. *)
Theorem search_trips_nan (destination' country' : option string)
    (min_price max_price min_rating : option float) (db : list Trip) :
  ((∃ x, (min_price = Some x ∨ max_price = Some x ∨ min_rating = Some x) ∧
         Prim2SF x = S754_nan) →
   search_trips destination' country' min_price max_price min_rating db
     = (inr [], db)) ∧
  (∀ l t,
     search_trips destination' country' min_price max_price min_rating db
       = (inr l, db) →
     t ∈ l →
     (is_Some min_price ∨ is_Some max_price → not_nan (price t)) ∧
     (is_Some min_rating → not_nan (rating t))).
Proof.
  rewrite search_trips_keeps. split.
  - intros (x & Hx & Hnan). f_equal. f_equal. apply filter_none. intros t _.
    destruct (keeps _ _ _ _ _ t) eqn:Hk; [|done].
    apply keeps_satisfies in Hk as (_ & _ & Hlo & Hhi & Hr).
    destruct Hx as [Hx|[Hx|Hx]].
    + by destruct (float_leb_not_nan _ _ (Hlo x Hx)).
    + by destruct (float_leb_not_nan _ _ (Hhi x Hx)).
    + by destruct (float_leb_not_nan _ _ (Hr x Hx)).
  - intros l t [= <-] [Hk _]%elem_of_filter_keeps.
    apply keeps_satisfies in Hk as (_ & _ & Hlo & Hhi & Hr). split.
    + intros [[x Hx]|[x Hx]].
      * by destruct (float_leb_not_nan _ _ (Hlo x Hx)).
      * by destruct (float_leb_not_nan _ _ (Hhi x Hx)).
    + intros [x Hx]. by destruct (float_leb_not_nan _ _ (Hr x Hx)).
Qed.

End SearchEdges.

(** ** Statistics: a NaN at the head, and the counts *)

Lemma py_min_from_keeps {A : Type} (lt : A → A → bool) (cur : A) (l : list A) :
  (∀ x, lt x cur = false) → py_min_from lt cur l = cur.
Proof.
  intros Hcur. induction l as [|x l IH]; [done|]. simpl. by rewrite Hcur.
Qed.

Lemma float_ltb_nan (x y : float) :
  Prim2SF x = S754_nan → PrimFloat.ltb x y = false ∧ PrimFloat.ltb y x = false.
Proof.
  intros Hx. rewrite !FloatAxioms.ltb_spec, Hx. unfold SFltb, SFcompare.
  split; [done|]. by destruct (Prim2SF y).
Qed.

Section StatisticsEdges.
Context `{Pydantic} `{Python}.

Lemma int_statistics_count (values : list Z) (s : field_stats) :
  int_statistics values = inr s → st_count s = len values.
Proof.
  unfold int_statistics.
  destruct (py_min _ _); simpl; [done|]. destruct (py_max _ _); simpl; [done|].
  destruct (int_truediv _ _); simpl; [done|]. by intros [= <-].
Qed.

Lemma float_statistics_count (values : list float) (s : field_stats) :
  float_statistics values = inr s → st_count s = len values.
Proof.
  unfold float_statistics.
  destruct (py_min _ _); simpl; [done|]. destruct (py_max _ _); simpl; [done|].
  destruct (float_truediv _ _); simpl; [done|]. by intros [= <-].
Qed.

(** The minimum and the maximum depend on the order of the list: when the
    price of the first record is a NaN, the statistics report that NaN as
    both the minimum and the maximum price, whatever the other prices are. *)
Theorem get_statistics_nan_first (t : Trip) (db : list Trip) (e : env) :
  Prim2SF (price t) = S754_nan →
  Z.abs (total (duration_days <$> t :: db)) < 2 ^ 1023 →
  Z.abs (total (group_size <$> t :: db)) < 2 ^ 1023 →
  ∃ s_duration_days s_price s_rating s_group_size,
    get_statistics e (t :: db)
      = (inr (Statistics (len (t :: db))
                [("duration_days", s_duration_days); ("price", s_price);
                 ("rating", s_rating); ("group_size", s_group_size)]
                (get_current_time e)), t :: db) ∧
    st_min s_price = NFloat (price t) ∧ st_max s_price = NFloat (price t).
Proof.
  intros Hnan Hdays Hsize.
  destruct (int_statistics_summary (duration_days <$> t :: db)) as (sd & Hsd & _);
    [done..|].
  destruct (float_statistics_summary (rating <$> t :: db)) as (sr & Hsr & _);
    [done|].
  destruct (int_statistics_summary (group_size <$> t :: db)) as (sg & Hsg & _);
    [done..|].
  destruct (float_truediv_nonzero (sum_float (price <$> t :: db))
              (len (price <$> t :: db))) as (q & Hq); [by apply len_nonzero|].
  eexists sd, _, sr, sg. split.
  - unfold get_statistics, mbind, M_bind, read_db, lift. cbv beta iota.
    rewrite Hsd, Hsr, Hsg.
    unfold float_statistics. rewrite Hq. rewrite fmap_cons. unfold py_max, py_min.
    simpl. reflexivity.
  - simpl. split; f_equal; apply py_min_from_keeps; intros x;
      by destruct (float_ltb_nan (price t) x Hnan).
Qed.

(** [health_check] and [get_statistics] count alike.  [health_check] raises
    nothing and reports the length of the list and the clock reading.  When
    [get_statistics] returns, it is the no-data answer with count 0 exactly
    on the empty list, and else an answer whose count is that length, with
    one entry for each of the four numeric fields, each entry counting as
    many values. *)
Theorem trip_count_agrees (e : env) (db : list Trip) :
  ∃ h, health_check e db = (inr h, db) ∧
       h_status h = "healthy" ∧ h_timestamp h = get_current_time e ∧
       h_trip_count h = len db ∧
       match fst (get_statistics e db) with
       | inr (NoData _ n) => db = [] ∧ n = 0 ∧ n = h_trip_count h
       | inr (Statistics n stats now) =>
           db ≠ [] ∧ n = h_trip_count h ∧ now = h_timestamp h ∧
           fst <$> stats = ["duration_days"; "price"; "rating"; "group_size"] ∧
           Forall (λ entry, st_count (snd entry) = n) stats
       | inl _ => db ≠ []
       end.
Proof.
  eexists. split; [reflexivity|]. simpl. repeat split.
  destruct db as [|t db]; [done|].
  unfold get_statistics, mbind, M_bind, read_db, lift. cbv beta iota.
  destruct (int_statistics (duration_days <$> t :: db)) as [|sd] eqn:Hsd; [done|].
  destruct (float_statistics (price <$> t :: db)) as [|sp] eqn:Hsp; [done|].
  destruct (float_statistics (rating <$> t :: db)) as [|sr] eqn:Hsr; [done|].
  destruct (int_statistics (group_size <$> t :: db)) as [|sg] eqn:Hsg; [done|].
  apply int_statistics_count in Hsd, Hsg. apply float_statistics_count in Hsp, Hsr.
  unfold len in Hsd, Hsp, Hsr, Hsg.
  rewrite length_fmap in Hsd. rewrite length_fmap in Hsp.
  rewrite length_fmap in Hsr. rewrite length_fmap in Hsg.
  simpl fst. repeat split; [done|].
  unfold len. repeat constructor; done.
Qed.

End StatisticsEdges.

(** ** The route table *)

Lemma find_route_method rs m path partial ep params :
  find_route rs m path partial = inr (ep, params) →
  ∃ r, r ∈ rs ∧ r_method r = m ∧ r_endpoint r = ep ∧
       match_path (r_path r) path = Some params.
Proof.
  revert partial. induction rs as [|r rs IH]; intros partial; [done|].
  intros [(Hp & Hm & Hep)|(_ & partial' & Hr)]%find_route_cons_inr.
  - exists r. by repeat split; [left|..].
  - destruct (IH _ Hr) as (r' & Hin & ?). exists r'. split; [by right | done].
Qed.

Lemma match_path_trip_id (x : string) :
  x ≠ "" →
  match_path [Lit "trips"; Param "trip_id"] ["trips"; x]
  = Some {["trip_id" := x]}.
Proof. intros Hx. by destruct x. Qed.

Lemma find_route_cons r rs m path partial :
  find_route (r :: rs) m path partial
  = match match_path (r_path r) path with
    | Some params =>
        if bool_decide (r_method r = m) then inr (r_endpoint r, params)
        else find_route rs m path true
    | None => find_route rs m path partial
    end.
Proof. reflexivity. Qed.

Lemma route_trip_id (m : http_method) (x : string) :
  x ≠ "" →
  find_route routes m ["trips"; x] false =
    match m with
    | GET => inr (ep_get_trip, {["trip_id" := x]})
    | PUT => inr (ep_update_trip, {["trip_id" := x]})
    | PATCH => inr (ep_patch_trip, {["trip_id" := x]})
    | DELETE => inr (ep_delete_trip, {["trip_id" := x]})
    | POST => inl (HTTPException 405 "Method Not Allowed")
    end.
Proof.
  intros Hx. unfold routes. rewrite !find_route_cons.
  simpl r_path. simpl r_method. simpl r_endpoint.
  rewrite !(match_path_trip_id x Hx).
  change (match_path [] ["trips"; x]) with (@None (gmap string string)).
  change (match_path [Lit "trips"] ["trips"; x])
    with (@None (gmap string string)).
  change (match_path [Lit "statistics"] ["trips"; x])
    with (@None (gmap string string)).
  change (match_path [Lit "health"] ["trips"; x])
    with (@None (gmap string string)).
  change (match_path [Lit "trips"; Lit "search"] ["trips"; x])
    with (if String.eqb "search" x then Some (∅ : gmap string string) else None).
  cbv iota. destruct m; try reflexivity.
  by destruct (String.eqb "search" x).
Qed.

Lemma route_trip_id_patch (m : http_method) (x : string) :
  find_route routes m ["trips"; x; "patch"] false
  = inl (HTTPException 404 "Not Found").
Proof.
  assert (∀ name, match_path [Lit "trips"; Param name] ["trips"; x; "patch"]
                  = None) as Hparam by (intros name; by destruct x).
  unfold routes. rewrite !find_route_cons.
  simpl r_path. simpl r_method. simpl r_endpoint. rewrite !Hparam.
  change (match_path [] ["trips"; x; "patch"]) with (@None (gmap string string)).
  change (match_path [Lit "trips"] ["trips"; x; "patch"])
    with (@None (gmap string string)).
  change (match_path [Lit "statistics"] ["trips"; x; "patch"])
    with (@None (gmap string string)).
  change (match_path [Lit "health"] ["trips"; x; "patch"])
    with (@None (gmap string string)).
  change (match_path [Lit "trips"; Lit "search"] ["trips"; x; "patch"])
    with (if String.eqb "search" x then @None (gmap string string) else None).
  cbv iota. by destruct (String.eqb "search" x).
Qed.

Section RouteTable.
Context `{Pydantic} `{Python}.

(** A GET request never changes the list, whatever its path, its query and
    its body are, and whether it is answered or refused. *)
Theorem serve_GET_read_only (path : list string) (q : gmap string string)
    (j : option PyValue) (e : env) (db : list Trip) :
  snd (serve (mkRequest GET path q j) e db) = db.
Proof.
  unfold serve. unfold mbind at 1. unfold M_bind, lift.
  simpl req_method. simpl req_path.
  destruct (find_route routes GET path false) as [err|[ep params]] eqn:Hr;
    [done|].
  apply find_route_method in Hr as (r & Hin & Hm & Hep & _).
  unfold routes in Hin. rewrite !elem_of_cons, elem_of_nil in Hin.
  assert (∀ {A} (m : M A), read_only m → snd (m db) = db) as Hro
    by (intros A m Hm'; apply Hm').
  destruct Hin as [->|[->|[->|[->|[->|[->|[->|[->|[->|[->|[]]]]]]]]]]];
    simpl in Hm, Hep; try discriminate Hm; subst ep; cbv beta iota;
    apply Hro;
    repeat (apply read_only_bind; [apply read_only_lift|]; intros ?).
  - apply read_only_ret.
  - apply read_only_bind; [apply read_only_get_all_trips|].
    intros; apply read_only_ret.
  - apply read_only_bind; [apply read_only_get_trip|].
    intros; apply read_only_ret.
  - apply read_only_bind; [apply read_only_get_statistics|].
    intros; apply read_only_ret.
  - apply read_only_bind; [apply read_only_search_trips|].
    intros; apply read_only_ret.
  - apply read_only_bind; [apply read_only_health_check|].
    intros; apply read_only_ret.
Qed.

(** What the four routes on /trips/{trip_id} do with a request whose last
    segment [x] is not empty.  GET calls [get_trip] and DELETE calls
    [delete_trip] with [x]; PUT and PATCH validate the body first and raise
    the validation error of the request without looking [x] up when the
    body is refused, and else call [update_trip] and [patch_trip] with [x];
    a returned value is answered with status 200.  POST on such a path is
    refused with 405. *)
Theorem serve_trip_id (x : string) (q : gmap string string)
    (j : option PyValue) (e : env) (db : list Trip) :
  x ≠ "" →
  serve (mkRequest GET ["trips"; x] q j) e db
    = respond 200 RTrip (get_trip x) db ∧
  serve (mkRequest DELETE ["trips"; x] q j) e db
    = respond 200 (λ r, RDeleted (fst r) (snd r)) (delete_trip x) db ∧
  serve (mkRequest PUT ["trips"; x] q j) e db
    = match body_Trip (mkRequest PUT ["trips"; x] q j) with
      | inr updated_trip => respond 200 RTrip (update_trip x updated_trip e) db
      | inl err => (inl err, db)
      end ∧
  serve (mkRequest PATCH ["trips"; x] q j) e db
    = match body_dict (mkRequest PATCH ["trips"; x] q j) with
      | inr trip_update => respond 200 RTrip (patch_trip x trip_update e) db
      | inl err => (inl err, db)
      end ∧
  serve (mkRequest POST ["trips"; x] q j) e db
    = (inl (HTTPException 405 "Method Not Allowed"), db).
Proof.
  intros Hx. unfold serve, respond.
  repeat apply conj; unfold mbind at 1; unfold M_bind at 1; unfold lift at 1;
    simpl req_method; simpl req_path; rewrite (route_trip_id _ x Hx);
    cbv beta iota;
    change (path_param {["trip_id" := x]} "trip_id") with x.
  - reflexivity.
  - unfold mbind, M_bind. by destruct (delete_trip x db) as [[err|[msg d]] db'].
  - unfold mbind at 1. unfold M_bind at 1. unfold lift at 1.
    by destruct (body_Trip _).
  - unfold mbind at 1. unfold M_bind at 1. unfold lift at 1.
    by destruct (body_dict _).
  - reflexivity.
Qed.

(** No route serves a path of the form /trips/{x}/patch: a request to it,
    with any method, is answered 404 and changes nothing.  The PATCH route
    is the one on /trips/{trip_id}. *)
Theorem serve_trips_patch_path (m : http_method) (x : string)
    (q : gmap string string) (j : option PyValue) (e : env) (db : list Trip) :
  serve (mkRequest m ["trips"; x; "patch"] q j) e db
    = (inl (HTTPException 404 "Not Found"), db).
Proof.
  unfold serve. unfold mbind at 1. unfold M_bind, lift.
  simpl req_method. simpl req_path. by rewrite route_trip_id_patch.
Qed.

End RouteTable.

(** ** Writes are local *)

Lemma find_trip_by_id_app db l trip_id :
  find_trip_by_id (db ++ l) trip_id
  = match find_trip_by_id db trip_id with
    | Some t => Some t
    | None => find_trip_by_id l trip_id
    end.
Proof.
  induction db as [|a db IH]; [done|]. simpl. by case_bool_decide.
Qed.

Lemma find_trip_by_id_insert db k old new other :
  db !! k = Some old → id old ≠ Some other → id new ≠ Some other →
  find_trip_by_id (<[k := new]> db) other = find_trip_by_id db other.
Proof.
  revert k. induction db as [|a db IH]; intros [|k] Hk Hold Hnew; try done.
  - simpl in Hk. injection Hk as ->. simpl.
    by rewrite !bool_decide_false by done.
  - simpl in *. case_bool_decide; [done|]. by apply IH.
Qed.

Lemma find_trip_by_id_delete db k old other :
  db !! k = Some old → id old ≠ Some other →
  find_trip_by_id (delete k db) other = find_trip_by_id db other.
Proof.
  revert k. induction db as [|a db IH]; intros [|k] Hk Hold; try done.
  - simpl in Hk. injection Hk as ->. simpl. by rewrite bool_decide_false by done.
  - simpl in *. case_bool_decide; [done|]. by apply IH.
Qed.

Section Locality.
Context `{Pydantic} `{Python}.

Lemma fst_get_trip trip_id db :
  fst (get_trip trip_id db)
  = match find_trip_by_id db trip_id with
    | Some t => inr t
    | None => inl (not_found trip_id)
    end.
Proof.
  unfold get_trip, mbind, M_bind, read_db. cbv beta iota.
  by destruct (find_trip_by_id db trip_id).
Qed.

(** A write under one id does not show under another.  What [get_trip]
    answers for an id is the same before and after [update_trip],
    [patch_trip] or [delete_trip] was called with a different id, whether
    the call succeeded or raised, and the same before and after
    [create_trip] drew a different identifier. *)
Theorem writes_are_local (db : list Trip) (e : env) (other : string) :
  (∀ trip_id updated_trip,
     trip_id ≠ other →
     fst (get_trip other (snd (update_trip trip_id updated_trip e db)))
     = fst (get_trip other db)) ∧
  (∀ trip_id trip_update,
     trip_id ≠ other →
     fst (get_trip other (snd (patch_trip trip_id trip_update e db)))
     = fst (get_trip other db)) ∧
  (∀ trip_id,
     trip_id ≠ other →
     fst (get_trip other (snd (delete_trip trip_id db)))
     = fst (get_trip other db)) ∧
  (∀ trip,
     uuid4 e ≠ other →
     fst (get_trip other (snd (create_trip trip e db)))
     = fst (get_trip other db)).
Proof.
  repeat apply conj.
  - intros trip_id updated_trip Hne. rewrite !fst_get_trip.
    destruct (find_trip_index_cases db trip_id) as [[Ha _]|(k & orig & Hf & _)].
    + by rewrite (update_trip_absent _ _ _ _ Ha).
    + rewrite (update_trip_found _ _ _ _ _ _ Hf). cbv zeta. simpl snd.
      destruct Hf as (Hk & Hid & _).
      rewrite (find_trip_by_id_insert _ _ orig); [done..| |]; simpl; congruence.
  - intros trip_id trip_update Hne. rewrite !fst_get_trip.
    destruct (find_trip_index_cases db trip_id) as [[Ha _]|(k & cur & Hf & _)].
    + by rewrite (patch_trip_absent _ _ _ _ Ha).
    + rewrite (patch_trip_found _ _ _ _ _ _ Hf).
      destruct (Trip_init _) as [t|] eqn:Hinit; [|done]. simpl snd.
      apply Trip_init_patch_kwargs_inv in Hinit as (Hidt & _).
      destruct Hf as (Hk & Hid & _).
      rewrite (find_trip_by_id_insert _ _ cur); [done..| |]; congruence.
  - intros trip_id Hne. rewrite !fst_get_trip.
    destruct (find_trip_index_cases db trip_id) as [[Ha _]|(k & t & Hf & _)].
    + by rewrite (delete_trip_absent _ _ Ha).
    + rewrite (delete_trip_found _ _ _ _ Hf). simpl snd.
      destruct Hf as (Hk & Hid & _).
      rewrite (find_trip_by_id_delete _ _ t); [done..|]. congruence.
  - intros trip Hne. rewrite !fst_get_trip, create_trip_created. simpl snd.
    rewrite find_trip_by_id_app. destruct (find_trip_by_id db other); [done|].
    simpl. rewrite bool_decide_false; [done|]. congruence.
Qed.

(** Deleting what was just created gives the list back: when no record has
    the generated identifier, [delete_trip] on it after [create_trip]
    returns the dictionary of the created record and leaves the list as it
    was before the create. *)
Theorem create_then_delete (db : list Trip) (e : env) (trip : Trip) :
  absent db (uuid4 e) →
  delete_trip (uuid4 e) (snd (create_trip trip e db))
    = (inr ("Поездка успешно удалена", Trip_dict (created trip e)), db).
Proof.
  intros Ha. rewrite create_trip_created. simpl snd.
  rewrite (delete_trip_found _ _ (length db) (created trip e))
    by (by apply first_with_id_snoc).
  by rewrite delete_middle, app_nil_r.
Qed.

End Locality.

(** ** Evaluated instances of the theorems above, on the seed data *)

Lemma sample_ids_distinct : NoDup (id <$> sample_db).
Proof. apply (bool_decide_unpack _). by vm_compute. Qed.

Lemma sample_absent_z : absent sample_db "z".
Proof.
  intros t Ht Hid. unfold sample_db in Ht.
  repeat (apply elem_of_cons in Ht as [->|Ht]; [discriminate Hid|]).
  by apply elem_of_nil in Ht.
Qed.

Lemma deleted_trip_is_gone_witness :
  get_trip "a" (delete 0%nat sample_db)
    = (inl (not_found "a"), delete 0%nat sample_db) ∧
  delete_trip "a" (delete 0%nat sample_db)
    = (inl (not_found "a"), delete 0%nat sample_db).
Proof.
  apply (deleted_trip_is_gone sample_db "a"
           ("Поездка успешно удалена", Trip_dict paris)).
  - exact sample_ids_distinct.
  - apply delete_trip_found, sample_first_a.
Defined.

Lemma update_trip_last_wins_witness :
  update_trip "a" paris (mkEnv "y" "2024-06-02T08:30:00")
    (<[0%nat := rome_stored]> sample_db)
  = update_trip "a" paris (mkEnv "y" "2024-06-02T08:30:00") sample_db.
Proof.
  apply (update_trip_last_wins sample_db "a" rome paris sample_env
           (mkEnv "y" "2024-06-02T08:30:00") rome_stored).
  apply (update_trip_found sample_db "a" 0 paris rome sample_env), sample_first_a.
Defined.

Lemma search_trips_empty_range_witness :
  search_trips (Some "Париж") None (Some 200000%float) (Some 100000%float)
    None sample_db
  = (inr [], sample_db).
Proof. apply search_trips_empty_range. reflexivity. Defined.

Lemma get_statistics_nan_first_witness :
  ∃ s_duration_days s_price s_rating s_group_size,
    get_statistics sample_env (priced "nan" nan :: [priced "one" 1])
      = (inr (Statistics (len (priced "nan" nan :: [priced "one" 1]))
                [("duration_days", s_duration_days); ("price", s_price);
                 ("rating", s_rating); ("group_size", s_group_size)]
                (get_current_time sample_env)),
         priced "nan" nan :: [priced "one" 1]) ∧
    st_min s_price = NFloat (price (priced "nan" nan)) ∧
    st_max s_price = NFloat (price (priced "nan" nan)).
Proof.
  apply (get_statistics_nan_first (priced "nan" nan) [priced "one" 1] sample_env);
    [reflexivity | by vm_compute | by vm_compute].
Defined.

Lemma serve_trip_id_witness :
  serve (mkRequest GET ["trips"; "a"] ∅ None) sample_env sample_db
    = respond 200 RTrip (get_trip "a") sample_db ∧
  serve (mkRequest DELETE ["trips"; "a"] ∅ None) sample_env sample_db
    = respond 200 (λ r, RDeleted (fst r) (snd r)) (delete_trip "a") sample_db ∧
  serve (mkRequest PUT ["trips"; "a"] ∅ None) sample_env sample_db
    = match body_Trip (mkRequest PUT ["trips"; "a"] ∅ None) with
      | inr updated_trip =>
          respond 200 RTrip (update_trip "a" updated_trip sample_env) sample_db
      | inl err => (inl err, sample_db)
      end ∧
  serve (mkRequest PATCH ["trips"; "a"] ∅ None) sample_env sample_db
    = match body_dict (mkRequest PATCH ["trips"; "a"] ∅ None) with
      | inr trip_update =>
          respond 200 RTrip (patch_trip "a" trip_update sample_env) sample_db
      | inl err => (inl err, sample_db)
      end ∧
  serve (mkRequest POST ["trips"; "a"] ∅ None) sample_env sample_db
    = (inl (HTTPException 405 "Method Not Allowed"), sample_db).
Proof. apply serve_trip_id. discriminate. Defined.

Lemma create_then_delete_witness :
  delete_trip "z" (snd (create_trip rome sample_env sample_db))
    = (inr ("Поездка успешно удалена", Trip_dict (created rome sample_env)),
       sample_db).
Proof. apply (create_then_delete sample_db sample_env rome), sample_absent_z. Defined.
